(** * drone/db: the typed key-value layer and its JSON snapshot format

    A shallow embedding of package [db] (interfaces [DB] and [Tx], the
    sentinel [ErrKeyNotFound], [GetJson], [GetJsonDefault], [SetJson],
    [DumpJson], [RestoreJson]) together with the part of Go's
    [encoding/json], [errors], [fmt] and [io] that these functions call.

    Conventions.
    - A Go [[]byte] and a Go [string] are both sequences of bytes; both are
      [list ascii] here, and the conversions [[]byte(s)] and [string(b)]
      are the identity.
    - A Go function returning [(v, err)] returns a pair [v * option error];
      [None] is the nil error.
    - Methods of the interfaces [Tx], [DB] and [io.Writer] act on hidden
      state; here the state is passed explicitly (monad [M]).
    - The [context.Context] argument is only handed through by the source
      and is left out. *)

From Stdlib Require Import ZArith Ascii String List Lia Bool.
From Stdlib Require Import DecimalString DecimalZ DecimalPos DecimalFacts.
From stdpp Require Import base option list gmap strings sorting.

Abbreviation bytes := (list ascii).

(** A byte sequence written as a literal. *)
Definition B (s : string) : bytes := list_ascii_of_string s.

(** ** Go errors *)

(** The error values that occur: the package-level sentinel, leaf errors
    made by [errors.New] (or by a storage engine, a reader, a writer), the
    error types of [encoding/json], and [fmt.Errorf(ctx + ": %w", inner)]. *)
Inductive error : Type :=
| ErrKeyNotFound
| ErrNew (msg : string)
| SyntaxError (msg : string)
| UnmarshalTypeError (msg : string)
| MarshalerError (inner : error)
| Errorf (ctx : string) (inner : error).

Global Instance error_eq_dec : EqDecision error.
Proof. solve_decision. Defined.

(** [err.Error()] *)
Fixpoint Error (e : error) : string :=
  match e with
  | ErrKeyNotFound => "db: not found"
  | ErrNew msg => msg
  | SyntaxError msg => msg
  | UnmarshalTypeError msg => msg
  | MarshalerError inner => String.append "json: error calling MarshalJSON: " (Error inner)
  | Errorf ctx inner => String.append ctx (String.append ": " (Error inner))
  end.

(** [Unwrap]: [fmt.Errorf] with [%w] and [*json.MarshalerError] wrap. *)
Definition Unwrap (e : error) : option error :=
  match e with
  | MarshalerError inner | Errorf _ inner => Some inner
  | _ => None
  end.

(** The loop of [errors.Is] for a non-nil [err]: compare, else unwrap. *)
Fixpoint is_chain (err target : error) : bool :=
  if decide (err = target) then true
  else match err with
       | MarshalerError inner | Errorf _ inner => is_chain inner target
       | _ => false
       end.

(** [errors.Is(err, target)] *)
Definition errors_Is (err : option error) (target : option error) : bool :=
  match err, target with
  | Some e, Some t => is_chain e t
  | None, None => true
  | _, _ => false
  end.

(** ** Explicit state *)

Definition M (S A : Type) : Type := S -> A * S.

Definition ret {S A} (a : A) : M S A := fun s => (a, s).

Definition bind {S A B} (m : M S A) (k : A -> M S B) : M S B :=
  fun s => let '(a, s') := m s in k a s'.

Notation "x <- m ;; k" := (bind m (fun x => k))
  (at level 100, m at next level, right associativity).

(** ** The interfaces of package db *)

(** [type Tx interface { Get(key) ([]byte, error); Set(key, val) error }] *)
Class Tx (T : Type) := {
  Get : bytes -> M T (bytes * option error);
  Set_ : bytes -> bytes -> M T (option error)
}.

(** A Go byte slice that may be nil, as [json.RawMessage] tells nil from
    empty. *)
Abbreviation RawMessage := (option bytes).

(** [type KV struct { Key []byte; Val []byte }] *)
Record KV := { Key : bytes; Val : RawMessage }.

(** [type DB interface { Start; Stop; Do; Dump }]. [Start] and [Stop] are
    not called by the functions of this file. *)
Class DB (D T : Type) := {
  Do : M T (option error) -> M D (option error);
  Dump : M D (list KV * option error)
}.

(** ** Typed codec layer *)

(** What [GetJson[T]] and [SetJson[T]] need of a type argument [T]:
    [*new(T)], [json.Marshal(val)], and [json.Unmarshal(data, &result)] for a
    [result] that was just set to [*new(T)] (its value afterwards, and the
    error). *)
Class JsonType (A : Type) := {
  zero : A;
  Marshal : A -> bytes * option error;
  Unmarshal : bytes -> A * option error
}.

Section TypedCodec.
Context {T : Type} `{!Tx T}.
Context {A : Type} `{!JsonType A}.

Definition GetJson (key : bytes) : M T (A * option error) :=
  r <- Get key ;;
  match r with
  | (_, Some err) => ret (zero, Some (Errorf "get key" err))
  | (data, None) =>
      match Unmarshal data with
      | (_, Some err) => ret (zero, Some (Errorf "unmarshall key val" err))
      | (result, None) => ret (result, None)
      end
  end.

Definition GetJsonDefault (key : bytes) (defaultVal : A) : M T (A * option error) :=
  r <- GetJson key ;;
  let '(result, err) := r in
  if errors_Is err (Some ErrKeyNotFound) then ret (defaultVal, None)
  else ret (result, err).

Definition SetJson (key : bytes) (val : A) : M T (option error) :=
  match Marshal val with
  | (_, Some err) => ret (Some (Errorf "marshall key val" err))
  | (data, None) =>
      err <- Set_ key data ;;
      match err with
      | Some err => ret (Some (Errorf "set key" err))
      | None => ret None
      end
  end.

End TypedCodec.

Arguments GetJson {T _} A {_} key.
Arguments GetJsonDefault {T _} A {_} key defaultVal.

(** ** encoding/json: the scanner

    The grammar that [scanner.step] accepts (scanner.go), written as a
    recursive descent. Every function is given the input from the current
    position on and returns what is left after the piece it accepts. *)

Definition code (c : ascii) : N := N_of_ascii c.

Definition dquote : ascii := "034"%char.
Definition backslash : ascii := "092"%char.

(** [isSpace] *)
Definition is_space (c : ascii) : bool :=
  (code c =? 32)%N || (code c =? 9)%N || (code c =? 13)%N || (code c =? 10)%N.

Definition is_digit (c : ascii) : bool := (48 <=? code c)%N && (code c <=? 57)%N.

Definition is_hex (c : ascii) : bool :=
  is_digit c || ((97 <=? code c)%N && (code c <=? 102)%N)
             || ((65 <=? code c)%N && (code c <=? 70)%N).

(** The characters that [stateInStringEsc] accepts besides [u]. *)
Definition is_escape (c : ascii) : bool :=
  existsb (Ascii.eqb c) (dquote :: backslash :: B "/bfnrt").

Fixpoint skip_space (s : bytes) : bytes :=
  match s with
  | c :: t => if is_space c then skip_space t else s
  | [] => []
  end.

(** [stateInString], [stateInStringEsc], [stateInStringEscU..U123]: the
    input after the opening quote; what follows the closing quote. *)
Fixpoint string_rest (s : bytes) : option bytes :=
  match s with
  | [] => None
  | c :: t =>
      if Ascii.eqb c dquote then Some t
      else if Ascii.eqb c backslash then
        match t with
        | [] => None
        | e :: t' =>
            if is_escape e then string_rest t'
            else if Ascii.eqb e "u" then
              match t' with
              | h1 :: h2 :: h3 :: h4 :: t'' =>
                  if is_hex h1 && is_hex h2 && is_hex h3 && is_hex h4
                  then string_rest t'' else None
              | _ => None
              end
            else None
        end
      else if (code c <? 32)%N then None
      else string_rest t
  end.

(** [state1], [stateDot0], [stateE0]: a run of digits. *)
Fixpoint digits (s : bytes) : bytes :=
  match s with
  | c :: t => if is_digit c then digits t else s
  | [] => []
  end.

(** [state0] or [state1]: the integer part. *)
Definition number_int (s : bytes) : option bytes :=
  match s with
  | c :: t =>
      if Ascii.eqb c "0" then Some t
      else if is_digit c then Some (digits t)
      else None
  | [] => None
  end.

(** [stateDot], [stateDot0] *)
Definition number_frac (s : bytes) : option bytes :=
  match s with
  | c :: t =>
      if Ascii.eqb c "." then
        match t with
        | d :: t' => if is_digit d then Some (digits t') else None
        | [] => None
        end
      else Some s
  | [] => Some []
  end.

(** [stateE], [stateESign], [stateE0] *)
Definition number_exp (s : bytes) : option bytes :=
  match s with
  | c :: t =>
      if Ascii.eqb c "e" || Ascii.eqb c "E" then
        let t1 := match t with
                  | x :: t' => if Ascii.eqb x "+" || Ascii.eqb x "-" then t' else t
                  | [] => t
                  end in
        match t1 with
        | d :: t2 => if is_digit d then Some (digits t2) else None
        | [] => None
        end
      else Some s
  | [] => Some []
  end.

(** A number literal, from [stateBeginValue] on [-] or a digit. *)
Definition number (s : bytes) : option bytes :=
  let s1 := match s with
            | c :: t => if Ascii.eqb c "-" then t else s
            | [] => s
            end in
  match number_int s1 with
  | Some r1 => match number_frac r1 with
               | Some r2 => number_exp r2
               | None => None
               end
  | None => None
  end.

(** [stateT..stateNul]: the rest of a keyword. *)
Fixpoint strip_prefix (p s : bytes) : option bytes :=
  match p with
  | [] => Some s
  | a :: p' =>
      match s with
      | b :: s' => if Ascii.eqb a b then strip_prefix p' s' else None
      | [] => None
      end
  end.

(** The bytes of [s] that a scan leaving [r] went over. *)
Definition consumed (s r : bytes) : bytes := take (length s - length r) s.

Section Composite.
Variable value : bytes -> option bytes.

(** Array elements after [[] when the array is not empty: the text of
    each element and what follows the closing bracket. *)
Fixpoint elements (fuel : nat) (s : bytes) : option (list bytes * bytes) :=
  match fuel with
  | 0 => None
  | S fuel =>
      let s := skip_space s in
      match value s with
      | None => None
      | Some r =>
          match skip_space r with
          | c :: r' =>
              if Ascii.eqb c "," then
                match elements fuel r' with
                | Some (l, r'') => Some (consumed s r :: l, r'')
                | None => None
                end
              else if Ascii.eqb c "]" then Some ([consumed s r], r')
              else None
          | [] => None
          end
      end
  end.

(** Object members after [{] when the object is not empty: the key
    literal and the value text of each member, and what follows [}]. *)
Fixpoint members (fuel : nat) (s : bytes) : option (list (bytes * bytes) * bytes) :=
  match fuel with
  | 0 => None
  | S fuel =>
      match skip_space s with
      | q :: s1 =>
          if Ascii.eqb q dquote then
            match string_rest s1 with
            | None => None
            | Some r1 =>
                match skip_space r1 with
                | c :: r2 =>
                    if Ascii.eqb c ":" then
                      let s2 := skip_space r2 in
                      match value s2 with
                      | None => None
                      | Some r3 =>
                          let m := (q :: consumed s1 r1, consumed s2 r3) in
                          match skip_space r3 with
                          | d :: r4 =>
                              if Ascii.eqb d "," then
                                match members fuel r4 with
                                | Some (l, r5) => Some (m :: l, r5)
                                | None => None
                                end
                              else if Ascii.eqb d "}" then Some ([m], r4)
                              else None
                          | [] => None
                          end
                      end
                    else None
                | [] => None
                end
            end
          else None
      | [] => None
      end
  end.

(** [stateBeginValueOrEmpty] after [[] *)
Definition array (s : bytes) : option (list bytes * bytes) :=
  match skip_space s with
  | c :: r => if Ascii.eqb c "]" then Some ([], r) else elements (length s) s
  | [] => None
  end.

(** [stateBeginStringOrEmpty] after [{] *)
Definition object (s : bytes) : option (list (bytes * bytes) * bytes) :=
  match skip_space s with
  | c :: r => if Ascii.eqb c "}" then Some ([], r) else members (length s) s
  | [] => None
  end.

End Composite.

(** The nesting left inside the outermost bracket: 9999. *)
Definition innerNestingDepth : nat := 99 * 101.

(** [maxNestingDepth = 10000]: [pushParseState] fails beyond it. *)
Definition maxNestingDepth : nat := S innerNestingDepth.

Arguments innerNestingDepth : simpl never.
Arguments maxNestingDepth : simpl never.

(** [stateBeginValue] on a non-space byte: one JSON value whose brackets
    may still nest [n] deep. *)
Fixpoint value (n : nat) (s : bytes) : option bytes :=
  match s with
  | [] => None
  | c :: t =>
      if Ascii.eqb c "{" then
        match n with
        | 0 => None
        | S n' => snd <$> object (value n') t
        end
      else if Ascii.eqb c "[" then
        match n with
        | 0 => None
        | S n' => snd <$> array (value n') t
        end
      else if Ascii.eqb c dquote then string_rest t
      else if Ascii.eqb c "-" || is_digit c then number s
      else if Ascii.eqb c "t" then strip_prefix (B "rue") t
      else if Ascii.eqb c "f" then strip_prefix (B "alse") t
      else if Ascii.eqb c "n" then strip_prefix (B "ull") t
      else None
  end.

(** [checkValid]: spaces, one value, spaces, end of input. *)
Definition valid (data : bytes) : bool :=
  match value maxNestingDepth (skip_space data) with
  | Some r => bool_decide (skip_space r = [])
  | None => false
  end.

(** ** encoding/json: compaction of a [Marshaler]'s output

    [appendCompact(dst, src, escape=true)] (indent.go) runs the scanner
    over [src]; it fails when [src] is not valid JSON and otherwise copies
    [src] without the spaces between tokens and with [<], [>], [&],
    U+2028 and U+2029 escaped. *)

Definition hex_digit (n : N) : ascii := nth (N.to_nat n) (B "0123456789abcdef") "0"%char.

(** [\u00XX] for the byte [c] *)
Definition u00 (c : ascii) : bytes :=
  B "\u00" ++ [hex_digit (code c / 16); hex_digit (code c mod 16)].

(** The escape of U+2028 or U+2029, from the last byte (A8 or A9) of its
    encoding. *)
Definition u202 (c2 : ascii) : bytes := B "\u202" ++ [hex_digit (code c2 mod 16)].

Definition is_html (c : ascii) : bool :=
  Ascii.eqb c "<" || Ascii.eqb c ">" || Ascii.eqb c "&".

(** E2 80 A8 or E2 80 A9 *)
Definition is_line_sep (c0 c1 c2 : ascii) : bool :=
  (code c0 =? 0xE2)%N && (code c1 =? 0x80)%N && ((code c2 =? 0xA8)%N || (code c2 =? 0xA9)%N).

(** Where the scanner is with respect to string literals. *)
Inductive place := Outside | InString | InEscape.

Definition place_step (st : place) (c : ascii) : place :=
  match st with
  | Outside => if Ascii.eqb c dquote then InString else Outside
  | InString => if Ascii.eqb c dquote then Outside
                else if Ascii.eqb c backslash then InEscape else InString
  | InEscape => InString
  end.

(** The bytes [appendCompact] emits for a valid [src]. *)
Fixpoint strip (st : place) (s : bytes) : bytes :=
  match s with
  | [] => []
  | c :: t =>
      let st' := place_step st c in
      if is_html c then u00 c ++ strip st' t
      else
        match t with
        | c1 :: c2 :: t' =>
            if is_line_sep c c1 c2 then u202 c2 ++ strip st' t'
            else if match st with Outside => is_space c | _ => false end
                 then strip st' t else c :: strip st' t
        | _ =>
            if match st with Outside => is_space c | _ => false end
            then strip st' t else c :: strip st' t
        end
  end.

Definition compact (src : bytes) : bytes * option error :=
  if valid src then (strip Outside src, None)
  else ([], Some (SyntaxError "invalid character or unexpected end of JSON input")).

(** ** unicode/utf8 *)

Definition in_range (lo hi : N) (c : ascii) : bool := (lo <=? code c)%N && (code c <=? hi)%N.

(** [utf8.DecodeRune]: the size of the rune at the head of [s] when it is
    well formed; [None] when the result is [RuneError] with size 1 (or 0,
    on empty input). The tests follow the tables [first] and
    [acceptRanges]. *)
Definition rune_size (s : bytes) : option nat :=
  match s with
  | [] => None
  | s0 :: t =>
      let x := code s0 in
      if (x <? 0x80)%N then Some 1
      else if (x <? 0xC2)%N then None
      else if (x <? 0xE0)%N then
        match t with
        | s1 :: _ => if in_range 0x80 0xBF s1 then Some 2 else None
        | _ => None
        end
      else if (x <? 0xF0)%N then
        let lo := if (x =? 0xE0)%N then 0xA0%N else 0x80%N in
        let hi := if (x =? 0xED)%N then 0x9F%N else 0xBF%N in
        match t with
        | s1 :: s2 :: _ =>
            if in_range lo hi s1 && in_range 0x80 0xBF s2 then Some 3 else None
        | _ => None
        end
      else if (x <? 0xF5)%N then
        let lo := if (x =? 0xF0)%N then 0x90%N else 0x80%N in
        let hi := if (x =? 0xF4)%N then 0x8F%N else 0xBF%N in
        match t with
        | s1 :: s2 :: s3 :: _ =>
            if in_range lo hi s1 && in_range 0x80 0xBF s2 && in_range 0x80 0xBF s3
            then Some 4 else None
        | _ => None
        end
      else None
  end.

(** [utf8.Valid] *)
Fixpoint utf8_valid (s : bytes) : bool :=
  match s with
  | [] => true
  | _ :: t =>
      match rune_size s with
      | Some 1 => utf8_valid t
      | Some 2 => match t with _ :: t' => utf8_valid t' | _ => false end
      | Some 3 => match t with _ :: _ :: t' => utf8_valid t' | _ => false end
      | Some 4 => match t with _ :: _ :: _ :: t' => utf8_valid t' | _ => false end
      | _ => false
      end
  end.

Definition byte (n : N) : ascii := ascii_of_N n.

Definition RuneError : N := 0xFFFD.

(** [utf8.EncodeRune] *)
Definition EncodeRune (r : N) : bytes :=
  if (r <=? 0x7F)%N then [byte r]
  else if (r <=? 0x7FF)%N then
    [byte (N.lor 0xC0 (N.shiftr r 6)); byte (N.lor 0x80 (N.land r 0x3F))]
  else
    let r := if (0x10FFFF <? r)%N || ((0xD800 <=? r)%N && (r <=? 0xDFFF)%N)
             then RuneError else r in
    if (r <=? 0xFFFF)%N then
      [byte (N.lor 0xE0 (N.shiftr r 12));
       byte (N.lor 0x80 (N.land (N.shiftr r 6) 0x3F));
       byte (N.lor 0x80 (N.land r 0x3F))]
    else
      [byte (N.lor 0xF0 (N.shiftr r 18));
       byte (N.lor 0x80 (N.land (N.shiftr r 12) 0x3F));
       byte (N.lor 0x80 (N.land (N.shiftr r 6) 0x3F));
       byte (N.lor 0x80 (N.land r 0x3F))].

(** ** encoding/json: string literals *)

(** [htmlSafeSet] *)
Definition html_safe (c : ascii) : bool :=
  (32 <=? code c)%N && (code c <? 128)%N
  && negb (Ascii.eqb c dquote) && negb (Ascii.eqb c backslash) && negb (is_html c).

(** What [appendString] writes for a byte below [utf8.RuneSelf]. (The
    short forms [\b] and [\f] are those of Go 1.22 and later; before, these
    two bytes were written as [\u0008] and [\u000c], which [unquote] reads
    the same way.) *)
Definition quote_ascii (c : ascii) : bytes :=
  if html_safe c then [c]
  else if Ascii.eqb c backslash || Ascii.eqb c dquote then [backslash; c]
  else if (code c =? 8)%N then B "\b"
  else if (code c =? 12)%N then B "\f"
  else if (code c =? 10)%N then B "\n"
  else if (code c =? 13)%N then B "\r"
  else if (code c =? 9)%N then B "\t"
  else u00 c.

(** The loop of [appendString(dst, src, escapeHTML=true)]: a well-formed
    rune is copied, except U+2028 and U+2029; an ill-formed byte becomes
    the escape of U+FFFD. *)
Fixpoint quote_body (s : bytes) : bytes :=
  match s with
  | [] => []
  | s0 :: t =>
      match rune_size s with
      | Some 1 => quote_ascii s0 ++ quote_body t
      | Some 2 =>
          match t with
          | s1 :: t' => s0 :: s1 :: quote_body t'
          | _ => []
          end
      | Some 3 =>
          match t with
          | s1 :: s2 :: t' =>
              (if is_line_sep s0 s1 s2 then u202 s2 else [s0; s1; s2]) ++ quote_body t'
          | _ => []
          end
      | Some 4 =>
          match t with
          | s1 :: s2 :: s3 :: t' => s0 :: s1 :: s2 :: s3 :: quote_body t'
          | _ => []
          end
      | _ => B "\ufffd" ++ quote_body t
      end
  end.

(** [appendString]: the JSON string literal for [s]. *)
Definition quote (s : bytes) : bytes := dquote :: quote_body s ++ [dquote].

Definition hex_val (c : ascii) : N :=
  if is_digit c then code c - 48
  else if in_range 97 102 c then code c - 87
  else code c - 55.

(** The four hex digits of [getu4]. *)
Definition hex4 (h1 h2 h3 h4 : ascii) : option N :=
  if is_hex h1 && is_hex h2 && is_hex h3 && is_hex h4
  then Some (((hex_val h1 * 16 + hex_val h2) * 16 + hex_val h3) * 16 + hex_val h4)%N
  else None.

(** [utf16.DecodeRune]; [None] is U+FFFD. *)
Definition utf16_DecodeRune (r1 r2 : N) : option N :=
  if (0xD800 <=? r1)%N && (r1 <? 0xDC00)%N && (0xDC00 <=? r2)%N && (r2 <? 0xE000)%N
  then Some (N.lor (N.shiftl (r1 - 0xD800) 10) (r2 - 0xDC00) + 0x10000)%N
  else None.

Definition is_surrogate (r : N) : bool := (0xD800 <=? r)%N && (r <? 0xE000)%N.

(** The second loop of [unquoteBytes], over the bytes after the opening
    quote; the closing quote must be the last byte. (The first loop only
    returns early the input that the second one would copy.) A well-formed
    rune decoded by [DecodeRune] and encoded again by [EncodeRune] is
    copied. *)
Fixpoint unquote_body (s : bytes) : option bytes :=
  match s with
  | [] => None
  | c :: t =>
      if Ascii.eqb c dquote then match t with [] => Some [] | _ => None end
      else if Ascii.eqb c backslash then
        match t with
        | [] => None
        | e :: t1 =>
            if Ascii.eqb e dquote || Ascii.eqb e backslash
               || Ascii.eqb e "/" || Ascii.eqb e "'"
            then cons e <$> unquote_body t1
            else if Ascii.eqb e "b" then cons (byte 8) <$> unquote_body t1
            else if Ascii.eqb e "f" then cons (byte 12) <$> unquote_body t1
            else if Ascii.eqb e "n" then cons (byte 10) <$> unquote_body t1
            else if Ascii.eqb e "r" then cons (byte 13) <$> unquote_body t1
            else if Ascii.eqb e "t" then cons (byte 9) <$> unquote_body t1
            else if Ascii.eqb e "u" then
              match t1 with
              | h1 :: h2 :: h3 :: h4 :: t2 =>
                  match hex4 h1 h2 h3 h4 with
                  | None => None
                  | Some rr =>
                      if is_surrogate rr then
                        match t2 with
                        | b' :: u' :: g1 :: g2 :: g3 :: g4 :: t3 =>
                            match (if Ascii.eqb b' backslash && Ascii.eqb u' "u"
                                   then hex4 g1 g2 g3 g4 else None)
                                  ≫= utf16_DecodeRune rr with
                            | Some dec => app (EncodeRune dec) <$> unquote_body t3
                            | None => app (EncodeRune RuneError) <$> unquote_body t2
                            end
                        | _ => app (EncodeRune RuneError) <$> unquote_body t2
                        end
                      else app (EncodeRune rr) <$> unquote_body t2
                  end
              | _ => None
              end
            else None
        end
      else if (code c <? 32)%N then None
      else
        match rune_size s with
        | Some 1 => cons c <$> unquote_body t
        | Some 2 =>
            match t with
            | s1 :: t' => (fun r => c :: s1 :: r) <$> unquote_body t'
            | _ => None
            end
        | Some 3 =>
            match t with
            | s1 :: s2 :: t' => (fun r => c :: s1 :: s2 :: r) <$> unquote_body t'
            | _ => None
            end
        | Some 4 =>
            match t with
            | s1 :: s2 :: s3 :: t' => (fun r => c :: s1 :: s2 :: s3 :: r) <$> unquote_body t'
            | _ => None
            end
        | _ => app (EncodeRune RuneError) <$> unquote_body t
        end
  end.

(** [unquoteBytes] *)
Definition unquote (s : bytes) : option bytes :=
  match s with
  | c :: t => if Ascii.eqb c dquote then unquote_body t else None
  | [] => None
  end.

(** ** encoding/json on [map[string]json.RawMessage] *)

(** [RawMessage.MarshalJSON] *)
Definition RawMessage_MarshalJSON (m : RawMessage) : bytes :=
  match m with
  | None => B "null"
  | Some b => b
  end.

(** [strings.Compare(a, b) <= 0]: the order of the bytes. *)
Fixpoint bytes_leb (a b : bytes) : bool :=
  match a, b with
  | [], _ => true
  | _ :: _, [] => false
  | x :: a', y :: b' =>
      if (code x <? code y)%N then true
      else if (code y <? code x)%N then false
      else bytes_leb a' b'
  end.

Definition key_le (x y : bytes * RawMessage) : Prop := bytes_leb x.1 y.1 = true.

Global Instance key_le_dec x y : Decision (key_le x y).
Proof. unfold key_le. apply _. Defined.

(** [marshalerEncoder] after the key: the member's text. *)
Definition encode_member (kv : bytes * RawMessage) : bytes * option error :=
  match compact (RawMessage_MarshalJSON kv.2) with
  | (c, None) => (quote kv.1 ++ B ":" ++ c, None)
  | (_, Some err) => ([], Some (MarshalerError err))
  end.

(** The loop of [mapEncoder.encode] over the sorted members. *)
Fixpoint encode_members (first : bool) (l : list (bytes * RawMessage)) : bytes * option error :=
  match l with
  | [] => ([], None)
  | kv :: l' =>
      match encode_member kv with
      | (_, Some err) => ([], Some err)
      | (m, None) =>
          match encode_members false l' with
          | (_, Some err) => ([], Some err)
          | (ms, None) => ((if first then [] else B ",") ++ m ++ ms, None)
          end
      end
  end.

(** [json.Marshal(out)] for a non-nil [out map[string]json.RawMessage]. *)
Definition Marshal_map (out : gmap bytes RawMessage) : bytes * option error :=
  match encode_members true (merge_sort key_le (map_to_list out)) with
  | (_, Some err) => ([], Some err)
  | (ms, None) => (B "{" ++ ms ++ B "}", None)
  end.

(** The loop of [decodeState.object] into a map: later members win. *)
Fixpoint store_members (l : list (bytes * bytes)) (raw : gmap bytes RawMessage)
  : gmap bytes RawMessage * option error :=
  match l with
  | [] => (raw, None)
  | (k, v) :: l' =>
      match unquote k with
      | Some key => store_members l' (<[key := Some v]> raw)
      | None => (raw, Some (ErrNew "JSON decoder out of sync - data changing underfoot?"))
      end
  end.

(** [json.Unmarshal(data, &raw)] for a nil [raw map[string]json.RawMessage]:
    the map afterwards (a nil map is the empty map) and the error. *)
Definition Unmarshal_map (data : bytes) : gmap bytes RawMessage * option error :=
  if valid data then
    match skip_space data with
    | c :: t =>
        if Ascii.eqb c "{" then
          match object (value innerNestingDepth) t with
          | Some (l, _) => store_members l ∅
          | None => (∅, Some (SyntaxError "unexpected end of JSON input"))
          end
        else if Ascii.eqb c "n" then (∅, None)
        else (∅, Some (UnmarshalTypeError
                "json: cannot unmarshal into Go value of type map[string]json.RawMessage"))
    | [] => (∅, Some (SyntaxError "unexpected end of JSON input"))
    end
  else (∅, Some (SyntaxError "invalid character or unexpected end of JSON input")).

(** ** io *)

(** [io.Writer]: [Write(p) (n, err)] *)
Class Writer (W : Type) := {
  Write : bytes -> M W (nat * option error)
}.

(** [io.Reader] as [io.ReadAll] uses it. *)
Class Reader (R : Type) := {
  ReadAll : M R (bytes * option error)
}.

(** [bytes.Buffer]: the unread bytes. *)
Definition Buffer : Type := bytes.

Global Instance Buffer_Writer : Writer Buffer := {
  Write p := fun buf => ((length p, None), buf ++ p)
}.

Global Instance Buffer_Reader : Reader Buffer := {
  ReadAll := fun buf => ((buf, None), [])
}.

(** ** Snapshot serializer *)

(** [KV{Key: []byte(k), Val: v}] *)
Definition to_KV (kv : bytes * RawMessage) : KV := {| Key := kv.1; Val := kv.2 |}.

Section Snapshot.
Context {D T : Type} `{!Tx T} `{!DB D T}.

(** The loop [for _, kv := range dump { out[string(kv.Key)] = kv.Val }] *)
Definition collect (dump : list KV) : gmap bytes RawMessage :=
  foldl (fun out kv => <[Key kv := Val kv]> out) ∅ dump.

Definition DumpJson {W : Type} `{!Writer W} (db : D) (writer : W) : option error * D * W :=
  let '((dump, err), db) := Dump db in
  match err with
  | Some err => (Some (Errorf "dump db" err), db, writer)
  | None =>
      let out := collect dump in
      match Marshal_map out with
      | (_, Some err) => (Some (Errorf "marshall dump" err), db, writer)
      | (data, None) =>
          let '((_, err), writer) := Write data writer in
          match err with
          | Some err => (Some (Errorf "write dump" err), db, writer)
          | None => (None, db, writer)
          end
      end
  end.

(** The closure handed to [db.Do]: set every pair, stop at the first
    error. (The [slog.Info] line is not modelled.) *)
Fixpoint replay (dump : list KV) : M T (option error) :=
  match dump with
  | [] => ret None
  | kv :: dump' =>
      err <- Set_ (Key kv) (default [] (Val kv)) ;;
      match err with
      | Some err => ret (Some err)
      | None => replay dump'
      end
  end.

(** [for k, v := range raw]: Go leaves the order of a map iteration open;
    [range] is any function that lists the map's entries. *)
Variable range : gmap bytes RawMessage -> list (bytes * RawMessage).

Definition RestoreJson {R : Type} `{!Reader R} (db : D) (reader : R) : option error * D * R :=
  let '((data, err), reader) := ReadAll reader in
  match err with
  | Some err => (Some (Errorf "read dump" err), db, reader)
  | None =>
      let '(raw, err) := Unmarshal_map data in
      match err with
      | Some err => (Some (Errorf "unmarshall dump" err), db, reader)
      | None =>
          let dump := map to_KV (range raw) in
          let '(err, db) := Do (replay dump) db in
          (err, db, reader)
      end
  end.

End Snapshot.

(** ** The store *)

(** What a store was asked to do, in order. *)
Inductive event :=
| EvBegin
| EvGet (key : bytes)
| EvSet (key val : bytes)
| EvCommit
| EvRollback.

(** Modelled from the spec: the store behind [DB] and [Tx] (the Badger
    adapter, [NewBadgerDB], is not among the sources). The keyspace is a
    finite map from keys to values; [history] records the calls. *)
Record memDB := { cells : gmap bytes bytes; history : list event }.

Definition log (e : event) (s : memDB) : memDB :=
  {| cells := cells s; history := history s ++ [e] |}.

(** Modelled from the spec: the transaction handle. [Get] on a key that
    was never set reports the sentinel, a [Get] after a [Set] in the same
    transaction sees the value set. *)
Global Instance memDB_Tx : Tx memDB := {
  Get key := fun tx =>
    match cells tx !! key with
    | Some val => ((val, None), log (EvGet key) tx)
    | None => (([], Some ErrKeyNotFound), log (EvGet key) tx)
    end;
  Set_ key val := fun tx =>
    (None, {| cells := <[key := val]> (cells tx); history := history tx ++ [EvSet key val] |})
}.

(** Modelled from the spec: [Do] runs the closure on a view of the
    keyspace and makes its writes visible if and only if it returns nil;
    [Dump] returns every entry. One transaction runs at a time here, so
    there are no conflicts and no retries. *)
Global Instance memDB_DB : DB memDB memDB := {
  Do work := fun db =>
    match work (log EvBegin db) with
    | (None, tx) => (None, log EvCommit tx)
    | (Some err, tx) => (Some err, {| cells := cells db; history := history tx ++ [EvRollback] |})
    end;
  Dump := fun db =>
    ((map (fun kv => {| Key := kv.1; Val := Some kv.2 |}) (map_to_list (cells db)), None), db)
}.

Definition empty_db : memDB := {| cells := ∅; history := [] |}.

(** ** encoding/json on typed values

    The Go types whose encoding is modelled: [bool], [int], [string],
    pointers and slices of these. ([float64], [time.Time], structs and maps
    are not modelled.) A pointer is [None] when nil, and so is a slice:
    [reflect.DeepEqual] compares pointers by what they point to and tells a
    nil slice from an empty one, so deep equality is [=]. *)
Inductive gotype := TBool | TInt | TString | TPtr (t : gotype) | TSlice (t : gotype).

Fixpoint govalue (t : gotype) : Type :=
  match t with
  | TBool => bool
  | TInt => Z
  | TString => bytes
  | TPtr t' => option (govalue t')
  | TSlice t' => option (list (govalue t'))
  end.

(** [*new(T)] *)
Definition gozero (t : gotype) : govalue t :=
  match t with
  | TBool => false
  | TInt => 0%Z
  | TString => []
  | TPtr _ => None
  | TSlice _ => None
  end.

(** [strconv.AppendInt(b, v, 10)] *)
Definition FormatInt (z : Z) : bytes := B (NilZero.string_of_int (Z.to_int z)).

(** [strconv.ParseInt(s, 10, 64)] on a JSON number literal; [None] is an
    error (a fraction, an exponent, or out of range). *)
Definition ParseInt (s : bytes) : option Z :=
  match NilZero.int_of_string (string_of_list_ascii s) with
  | Some d =>
      let z := Z.of_int d in
      if ((- 2 ^ 63 <=? z) && (z <? 2 ^ 63))%Z then Some z else None
  | None => None
  end.

Fixpoint join_comma (l : list bytes) : bytes :=
  match l with
  | [] => []
  | [x] => x
  | x :: l' => x ++ B "," ++ join_comma l'
  end.

(** The encoders of encode.go: [boolEncoder], [intEncoder],
    [stringEncoder], [ptrEncoder] and [sliceEncoder]/[arrayEncoder]. *)
Fixpoint encode (t : gotype) : govalue t -> bytes :=
  match t with
  | TBool => fun b : bool => if b then B "true" else B "false"
  | TInt => FormatInt
  | TString => quote
  | TPtr t' => fun p =>
      match p with
      | None => B "null"
      | Some v => encode t' v
      end
  | TSlice t' => fun s =>
      match s with
      | None => B "null"
      | Some l => B "[" ++ join_comma (map (encode t') l) ++ B "]"
      end
  end.

Definition is_null (raw : bytes) : bool := bool_decide (raw = B "null").

(** [decodeState.value] into a zero value of type [t], given the text of
    one value of a document that [checkValid] accepted; [None] is an
    [UnmarshalTypeError]. The literal [null] sets a pointer or a slice to
    nil and leaves a [bool], an [int] and a [string] as they are. *)
Fixpoint decode (t : gotype) (raw : bytes) : option (govalue t) :=
  match t with
  | TBool =>
      if is_null raw then Some false
      else if bool_decide (raw = B "true") then Some true
      else if bool_decide (raw = B "false") then Some false
      else None
  | TInt =>
      if is_null raw then Some 0%Z
      else match raw with
           | c :: _ => if Ascii.eqb c "-" || is_digit c then ParseInt raw else None
           | [] => None
           end
  | TString =>
      if is_null raw then Some []
      else unquote raw
  | TPtr t' =>
      if is_null raw then Some None
      else Some <$> decode t' raw
  | TSlice t' =>
      if is_null raw then Some None
      else match raw with
           | c :: body =>
               if Ascii.eqb c "[" then
                 match array (value maxNestingDepth) body with
                 | Some (items, _) => Some <$> mapM (decode t') items
                 | None => None
                 end
               else None
           | [] => None
           end
  end.

(** [json.Marshal] and [json.Unmarshal] at type [t]. When [Unmarshal]
    fails the value it leaves behind is not modelled ([GetJson] drops
    it). *)
Global Instance go_JsonType (t : gotype) : JsonType (govalue t) := {
  zero := gozero t;
  Marshal v := (encode t v, None);
  Unmarshal data :=
    if valid data then
      let s := skip_space data in
      match value maxNestingDepth s with
      | Some r =>
          match decode t (consumed s r) with
          | Some v => (v, None)
          | None => (gozero t, Some (UnmarshalTypeError "json: cannot unmarshal value into Go value"))
          end
      | None => (gozero t, Some (SyntaxError "unexpected end of JSON input"))
      end
    else (gozero t, Some (SyntaxError "invalid character or unexpected end of JSON input"))
}.

(** How deep the brackets of [encode t v] nest. *)
Fixpoint nesting (t : gotype) : govalue t -> nat :=
  match t with
  | TPtr t' => fun p =>
      match p with
      | Some v => nesting t' v
      | None => 0
      end
  | TSlice t' => fun s =>
      match s with
      | Some l => S (foldr Nat.max 0 (map (nesting t') l))
      | None => 0
      end
  | _ => fun _ => 0
  end.

(** The values that [decode] gives back from their encoding: an [int] is
    in range, a string is valid UTF-8, and a non-nil pointer does not
    point to something encoded as [null]. *)
Fixpoint faithful (t : gotype) : govalue t -> bool :=
  match t with
  | TBool => fun _ => true
  | TInt => fun z : Z => ((- 2 ^ 63 <=? z) && (z <? 2 ^ 63))%Z
  | TString => utf8_valid
  | TPtr t' => fun p =>
      match p with
      | Some v => faithful t' v && negb (is_null (encode t' v))
      | None => true
      end
  | TSlice t' => fun s =>
      match s with
      | Some l => forallb (faithful t') l
      | None => true
      end
  end.


(** ** Auxiliary definitions for the statements *)

(** A byte that cannot continue a number literal, or the end of input. *)
Definition delimited (x : bytes) : bool :=
  match x with
  | [] => true
  | c :: _ => negb (is_digit c || Ascii.eqb c "." || Ascii.eqb c "e" || Ascii.eqb c "E")
  end.

(** The text of an object member as [mapEncoder] writes it: the key as
    a string literal, a colon, the compacted value. *)
Definition member_text (kv : bytes * RawMessage) : bytes :=
  quote kv.1 ++ B ":" ++ strip Outside (RawMessage_MarshalJSON kv.2).

(** A stored value that the snapshot carries unchanged: exactly one JSON
    value (no space around it) whose brackets nest at most 9999 deep, and
    which compaction leaves as it is. *)
Definition canonical (v : bytes) : bool :=
  bool_decide (value innerNestingDepth v = Some []) && bool_decide (strip Outside v = v).

(** A member as [decodeState.object] sees it (the key literal and the
    value text) and as the text of the object has it. *)
Definition seen (kv : bytes * bytes) : bytes * bytes := (quote kv.1, kv.2).

Definition written (kv : bytes * bytes) : bytes := quote kv.1 ++ B ":" ++ kv.2.

(** The bytes of a non-nil [RawMessage]. *)
Definition unwrap (kv : bytes * RawMessage) : bytes * bytes := (kv.1, default [] kv.2).


(** Keyspaces for the examples: a value that is not JSON, a value with a
    space between its tokens, a key that is not UTF-8, and a value that
    nests 10000 brackets. *)
Definition db_bad : memDB :=
  {| cells := <[B "a" := B "1"]> (<[B "k" := B "x"]> ∅); history := [] |}.

Definition db_spaced : memDB :=
  {| cells := <[B "k" := B "[1, 2]"]> ∅; history := [] |}.

Definition db_key : memDB :=
  {| cells := <[[byte 255] := B "1"]> ∅; history := [] |}.

Definition db_deep : memDB :=
  {| cells := <[B "k" := repeat "["%char maxNestingDepth ++ repeat "]"%char maxNestingDepth]> ∅;
     history := [] |}.

(** Export, then import into an empty store, listing the parsed object in
    the order of [map_to_list]. *)
Definition round_trip (db : memDB) : option error * option error * memDB :=
  let '(e1, _, data) := DumpJson db ([] : Buffer) in
  let '(e2, restored, _) := RestoreJson (fun m => map_to_list m) empty_db data in
  (e1, e2, restored).

(** A keyspace that a snapshot carries unchanged: every key is valid
    UTF-8 and every value is canonical. *)
Definition snapshot_safe (m : gmap bytes bytes) : bool :=
  forallb (fun kv => utf8_valid kv.1 && canonical kv.2) (map_to_list m).

(** A keyspace holding what [SetJson] writes for a slice, a string, a
    nil pointer and an integer. *)
Definition db_good : memDB :=
  {| cells := <[B "key3.0" := encode (TSlice TInt) (Some [444; 13; -1; 0]%Z)]>
              (<[B "key3.1" := encode TString (B "string <sg>")]>
              (<[B "key3.2" := encode (TPtr TInt) None]>
              (<[B "k" := encode TInt 80%Z]> ∅)));
     history := [] |}.

(** Go's [int] is 64 bits wide here, as in [faithful]: a sum that leaves
    [-2^63, 2^63) wraps around in two's complement. *)
Definition wrap_int (z : Z) : Z := ((z + 2 ^ 63) mod 2 ^ 64 - 2 ^ 63)%Z.

Definition add_int (a b : Z) : Z := wrap_int (a + b).

(** The closure of the counter test: read the counter (0 when absent),
    add one as Go [int]s, write it back. *)
Definition increment (key : bytes) : M memDB (option error) :=
  r <- GetJsonDefault (govalue TInt) key 0%Z ;;
  match r with
  | (_, Some err) => ret (Some err)
  | (val, None) => SetJson (A:=govalue TInt) key (add_int val 1)
  end.

(** The keyspace in which the counter [key5] stands at the largest
    [int]. *)
Definition db_max : memDB :=
  {| cells := <[B "key5" := FormatInt (2 ^ 63 - 1)]> ∅; history := [] |}.

(** [n] transactions run one after the other. *)
Fixpoint run_serially (n : nat) (work : M memDB (option error)) (db : memDB) : memDB :=
  match n with
  | 0 => db
  | S n' => (Do work (run_serially n' work db)).2
  end.

(** A byte that compaction copies between tokens and that does not open
    a string: not a space, not a quote, not [<], [>], [&], not E2. *)
Definition inert (c : ascii) : bool :=
  negb (is_html c) && negb (code c =? 0xE2)%N && negb (is_space c)
  && negb (Ascii.eqb c dquote).

(** The [Set] events of a replay. *)
Definition sets_of (dump : list KV) : list event :=
  map (fun kv => EvSet (Key kv) (default [] (Val kv))) dump.

(** The keyspace in which 80 was committed for [k]. *)
Definition db80 : memDB := (Do (SetJson (A:=govalue TInt) (B "k") 80%Z) empty_db).2.

(** ** Stores and closures for the statements about snapshots *)

(** A transaction handle with room for a bounded number of writes: [Set]
    fails once the room is used up, as an engine does that refuses a
    transaction grown too big. It implements [Tx] for the statements about
    a [Set] that fails. *)
Record roomTx := { kept : gmap bytes bytes; room : nat }.

Global Instance roomTx_Tx : Tx roomTx := {
  Get key := fun tx =>
    match kept tx !! key with
    | Some val => ((val, None), tx)
    | None => (([], Some ErrKeyNotFound), tx)
    end;
  Set_ key val := fun tx =>
    match room tx with
    | 0 => (Some (ErrNew "transaction is too big"), tx)
    | S n => (None, {| kept := <[key := val]> (kept tx); room := n |})
    end
}.

(** A store that is a list of entries and dumps them in the order of the
    list. It implements [Dump] for the statements about the order in which
    a store lists its entries; its [Do] runs the closure without a handle
    to write through. *)
Definition listDB : Type := list KV.

Global Instance listDB_DB : DB listDB unit := {
  Do work := fun db => ((work tt).1, db);
  Dump := fun db => ((db, None), db)
}.

(** Two stores that list the same entries in different orders. *)
Definition listed : listDB :=
  [{| Key := B "a"; Val := Some (B "1") |}; {| Key := B "b"; Val := Some (B "[2]") |}].

Definition listed_backwards : listDB :=
  [{| Key := B "b"; Val := Some (B "[2]") |}; {| Key := B "a"; Val := Some (B "1") |}].

(** A snapshot that assigns 81 to [k] and the empty array to [new]. *)
Definition merge_doc : bytes :=
  B "{" ++ quote (B "k") ++ B ":81," ++ quote (B "new") ++ B ":[]}".

(** A member of an object in compact form: the key literal (a quote, a
    body that [string_rest] reads up to the closing quote, the quote) and
    the text of a value whose brackets nest at most [n] deep, both left
    as they are by compaction; and the bytes of the member. *)
Definition member_ok (n : nat) (kv : bytes * bytes) : Prop :=
  (∃ b, kv.1 = dquote :: b ++ [dquote]
        ∧ (∀ z, string_rest (b ++ dquote :: z) = Some z)
        ∧ ∀ y, strip InString (b ++ dquote :: y) = b ++ dquote :: strip Outside y)
  ∧ value n kv.2 = Some []
  ∧ ∀ y, strip Outside (kv.2 ++ y) = kv.2 ++ strip Outside y.

Definition member_bytes (kv : bytes * bytes) : bytes := kv.1 ++ B ":" ++ kv.2.

(** One JSON value with spaces around it at most, its brackets nested at
    most [n] deep: [checkValid] with the depth as a parameter. *)
Definition valid_within (n : nat) (data : bytes) : bool :=
  match value n (skip_space data) with
  | Some r => bool_decide (skip_space r = [])
  | None => false
  end.

(** A keyspace that a snapshot can carry: every key is valid UTF-8 and
    every value is valid JSON nested at most 9999 deep. *)
Definition exportable (m : gmap bytes bytes) : bool :=
  forallb (fun kv => utf8_valid kv.1 && valid_within innerNestingDepth kv.2) (map_to_list m).

(** A keyspace with spaces inside and around its values, an escape that
    compaction adds, and nested brackets. *)
Definition db_loose : memDB :=
  {| cells := <[B "a" := B " [1, {} , [ ] ]  "]>
              (<[B "b" := B "{" ++ quote (B "x<y") ++ B " : -1.5e+3 , "
                          ++ [dquote] ++ B "k>" ++ [dquote] ++ B ":null}"]> ∅);
     history := [] |}.

(** A value together with its type: what one call of [SetJson] is given. *)
Record typed := Typed { ty_of : gotype; val_of : govalue ty_of }.

(** The closure of the backup test, for any entries: [SetJson] for every
    key in turn, stopping at the first error. *)
Fixpoint set_all (entries : list (bytes * typed)) : M memDB (option error) :=
  match entries with
  | [] => ret None
  | (key, tv) :: rest =>
      err <- SetJson key (val_of tv) ;;
      match err with
      | Some err => ret (Some err)
      | None => set_all rest
      end
  end.

(** What the entries assign to each key: the last assignment wins. *)
Definition assigned (entries : list (bytes * typed)) : gmap bytes typed :=
  foldl (fun m e => <[e.1 := e.2]> m) ∅ entries.

(** Every string of the value is valid UTF-8, no pointer hides a null, and
    the slices nest at most 9999 deep; the key is valid UTF-8. *)
Definition entry_ok (e : bytes * typed) : bool :=
  utf8_valid e.1 && faithful (ty_of e.2) (val_of e.2)
  && bool_decide (nesting (ty_of e.2) (val_of e.2) ≤ innerNestingDepth).

(** Entries under the keys of the backup test: fields of its test value
    that have a modelled type, and the first key set a second time. *)
Definition backup_entries : list (bytes * typed) :=
  [(B "key3.0", Typed (TSlice TInt) (Some [444; 13; 44; -1; 0; 44]%Z));
   (B "key3.1", Typed TString (B "string sg"));
   (B "key3.2", Typed (TPtr TInt) None);
   (B "key3.0", Typed TBool true)].

(** * Configuration and cron registration *)

(** ** package config

    [config.go]. A Go string is a [string] here; [int], [int64] and
    [time.Duration] are [Z]; a slice is [None] when it is nil. The structs
    without a name in [Config] get the name of their field, in lower
    case. *)

Module config.

Record features := { SnippetsGenerationEnabled : bool }.

Record tg := { Key : string; LongPollerTimeout : Z; AdminChatID : Z }.

Record rod := { Host : string; Port : Z; DownloadsFolder : string }.

Record mediaGenerator := {
  CarbonURL : string;
  RaysoURL : string;
  JavaHighlightURL : string;
  UseCarbon : bool;
  UseRayso : bool;
  UseJavaHighlight : bool;
  RodDownloadsFolder : string
}.

Record vc := { Domain : string; Token : string }.

Record boardwhite := {
  ChatID : Z;
  LeetCodeThreadID : Z;
  LeetcodeChickensThreadID : Z;
  FloodThreadID : Z
}.

Record leetcode := { Session : string; CSRF : string }.

(** The struct of [LeetcodeDaily] and of [NeetcodeDaily]. *)
Record daily := { Cron : string; RatingCron : string }.

Record mock := { Username : string; Period : string; StickerIDs : option (list string) }.

Record Config := {
  BadgerPath : string;
  Features : features;
  Tg : tg;
  Rod : rod;
  MediaGenerator : mediaGenerator;
  VC : vc;
  Boardwhite : boardwhite;
  Leetcode : leetcode;
  LeetcodeDaily : daily;
  NeetcodeDaily : daily;
  DailyStickerIDs : option (list string);
  DailyChickensStickerIDs : option (list string);
  DPStickerID : string;
  Mocks : option (list mock);
  GreetingsNewUsersTemplates : option (list string);
  GreetingsOldUsersTemplates : option (list string)
}.

(** [Config{}] *)
Definition zero_Config : Config := {|
  BadgerPath := EmptyString;
  Features := {| SnippetsGenerationEnabled := false |};
  Tg := {| Key := EmptyString; LongPollerTimeout := 0; AdminChatID := 0 |};
  Rod := {| Host := EmptyString; Port := 0; DownloadsFolder := EmptyString |};
  MediaGenerator := {|
    CarbonURL := EmptyString; RaysoURL := EmptyString; JavaHighlightURL := EmptyString;
    UseCarbon := false; UseRayso := false; UseJavaHighlight := false;
    RodDownloadsFolder := EmptyString |};
  VC := {| Domain := EmptyString; Token := EmptyString |};
  Boardwhite := {| ChatID := 0; LeetCodeThreadID := 0; LeetcodeChickensThreadID := 0;
                   FloodThreadID := 0 |};
  Leetcode := {| Session := EmptyString; CSRF := EmptyString |};
  LeetcodeDaily := {| Cron := EmptyString; RatingCron := EmptyString |};
  NeetcodeDaily := {| Cron := EmptyString; RatingCron := EmptyString |};
  DailyStickerIDs := None;
  DailyChickensStickerIDs := None;
  DPStickerID := EmptyString;
  Mocks := None;
  GreetingsNewUsersTemplates := None;
  GreetingsOldUsersTemplates := None
|}.

Definition validate (cfg : Config) : option error :=
  let enabledFlags :=
    [UseCarbon (MediaGenerator cfg);
     UseRayso (MediaGenerator cfg);
     UseJavaHighlight (MediaGenerator cfg)] in
  let enabledCount := foldl (fun n (flag : bool) => if flag then (n + 1)%Z else n) 0%Z enabledFlags in
  if bool_decide (enabledCount ≠ 1%Z) then
    Some (ErrNew "only one of use_carbon, use_rayso, and use_javahighlight should be enabled")
  else None.

(** Exactly one of the three flags is set. *)
Definition one_generator (cfg : Config) : bool :=
  let c := UseCarbon (MediaGenerator cfg) in
  let r := UseRayso (MediaGenerator cfg) in
  let j := UseJavaHighlight (MediaGenerator cfg) in
  (c && negb r && negb j) || (negb c && r && negb j) || (negb c && negb r && j).

(** [structEncoder] of encoding/json: between braces, the fields in the
    order of their declaration, each as its name, a colon and its value.
    No field of [Config] has a [json] name, so the name is the Go name
    (which needs no escape); a field tagged [json:"-"] is not among
    [fields]. A struct without fields to write is [{}]. *)
Definition encode_struct (fields : list (string * bytes)) : bytes :=
  B "{" ++ join_comma (map (fun f => quote (B f.1) ++ B ":" ++ f.2) fields) ++ B "}".

(** [[]string] *)
Definition encode_strings (l : option (list string)) : bytes :=
  encode (TSlice TString) (map B <$> l).

Definition encode_daily (d : daily) : bytes :=
  encode_struct [("Cron", encode TString (B (Cron d)));
                 ("RatingCron", encode TString (B (RatingCron d)))].

Definition encode_mock (m : mock) : bytes :=
  encode_struct [("Username", encode TString (B (Username m)));
                 ("Period", encode TString (B (Period m)));
                 ("StickerIDs", encode_strings (StickerIDs m))].

(** [sliceEncoder] at the struct of [Mocks] *)
Definition encode_mocks (l : option (list mock)) : bytes :=
  match l with
  | None => B "null"
  | Some l => B "[" ++ join_comma (map encode_mock l) ++ B "]"
  end.

(** [Config.String]: [json.Marshal(&cfg)] as a string. [Marshal] has no
    error to give at this type. [Tg.Key], [VC.Token], [Leetcode.Session]
    and [Leetcode.CSRF] are tagged [json:"-"]. *)
Definition Config_String (cfg : Config) : bytes :=
  encode_struct
    [("BadgerPath", encode TString (B (BadgerPath cfg)));
     ("Features",
      encode_struct
        [("SnippetsGenerationEnabled", encode TBool (SnippetsGenerationEnabled (Features cfg)))]);
     ("Tg",
      encode_struct
        [("LongPollerTimeout", encode TInt (LongPollerTimeout (Tg cfg)));
         ("AdminChatID", encode TInt (AdminChatID (Tg cfg)))]);
     ("Rod",
      encode_struct
        [("Host", encode TString (B (Host (Rod cfg))));
         ("Port", encode TInt (Port (Rod cfg)));
         ("DownloadsFolder", encode TString (B (DownloadsFolder (Rod cfg))))]);
     ("MediaGenerator",
      encode_struct
        [("CarbonURL", encode TString (B (CarbonURL (MediaGenerator cfg))));
         ("RaysoURL", encode TString (B (RaysoURL (MediaGenerator cfg))));
         ("JavaHighlightURL", encode TString (B (JavaHighlightURL (MediaGenerator cfg))));
         ("UseCarbon", encode TBool (UseCarbon (MediaGenerator cfg)));
         ("UseRayso", encode TBool (UseRayso (MediaGenerator cfg)));
         ("UseJavaHighlight", encode TBool (UseJavaHighlight (MediaGenerator cfg)));
         ("RodDownloadsFolder", encode TString (B (RodDownloadsFolder (MediaGenerator cfg))))]);
     ("VC", encode_struct [("Domain", encode TString (B (Domain (VC cfg))))]);
     ("Boardwhite",
      encode_struct
        [("ChatID", encode TInt (ChatID (Boardwhite cfg)));
         ("LeetCodeThreadID", encode TInt (LeetCodeThreadID (Boardwhite cfg)));
         ("LeetcodeChickensThreadID", encode TInt (LeetcodeChickensThreadID (Boardwhite cfg)));
         ("FloodThreadID", encode TInt (FloodThreadID (Boardwhite cfg)))]);
     ("Leetcode", encode_struct []);
     ("LeetcodeDaily", encode_daily (LeetcodeDaily cfg));
     ("NeetcodeDaily", encode_daily (NeetcodeDaily cfg));
     ("DailyStickerIDs", encode_strings (DailyStickerIDs cfg));
     ("DailyChickensStickerIDs", encode_strings (DailyChickensStickerIDs cfg));
     ("DPStickerID", encode TString (B (DPStickerID cfg)));
     ("Mocks", encode_mocks (Mocks cfg));
     ("GreetingsNewUsersTemplates", encode_strings (GreetingsNewUsersTemplates cfg));
     ("GreetingsOldUsersTemplates", encode_strings (GreetingsOldUsersTemplates cfg))].

(** The configuration with other secrets: the API key of Telegram, the
    token of [VC], the session and the CSRF token of LeetCode. *)
Definition with_secrets (cfg : Config) (key token session csrf : string) : Config := {|
  BadgerPath := BadgerPath cfg;
  Features := Features cfg;
  Tg := {| Key := key; LongPollerTimeout := LongPollerTimeout (Tg cfg);
           AdminChatID := AdminChatID (Tg cfg) |};
  Rod := Rod cfg;
  MediaGenerator := MediaGenerator cfg;
  VC := {| Domain := Domain (VC cfg); Token := token |};
  Boardwhite := Boardwhite cfg;
  Leetcode := {| Session := session; CSRF := csrf |};
  LeetcodeDaily := LeetcodeDaily cfg;
  NeetcodeDaily := NeetcodeDaily cfg;
  DailyStickerIDs := DailyStickerIDs cfg;
  DailyChickensStickerIDs := DailyChickensStickerIDs cfg;
  DPStickerID := DPStickerID cfg;
  Mocks := Mocks cfg;
  GreetingsNewUsersTemplates := GreetingsNewUsersTemplates cfg;
  GreetingsOldUsersTemplates := GreetingsOldUsersTemplates cfg
|}.

Section Files.

(** The environment, the embedded [default_config.yaml] (not among the
    sources), [yaml.Unmarshal] into a [*Config] (the struct given and the
    struct afterwards), [os.ReadFile], and the [%q] verb of [fmt]. *)
Variable LookupEnv : string -> option string.
Variable defaultConfigBytes : bytes.
Variable yaml_Unmarshal : bytes -> Config -> Config * option error.
Variable ReadFile : string -> bytes * option error.
Variable Quote : string -> string.

Definition Path : string :=
  match LookupEnv "DRONE_CONFIG_FILENAME" with
  | None => "config.yaml"
  | Some path => path
  end.

Definition Default : Config * option error :=
  match yaml_Unmarshal defaultConfigBytes zero_Config with
  | (_, Some err) => (zero_Config, Some (Errorf "unmarshal default config" err))
  | (cfg, None) => (cfg, None)
  end.

Definition Load (filename : string) : Config * option error :=
  match Default with
  | (cfg, Some err) => (cfg, Some err)
  | (cfg, None) =>
      match ReadFile filename with
      | (_, Some err) =>
          (zero_Config, Some (Errorf (String.append "read config file " (Quote filename)) err))
      | (data, None) =>
          match yaml_Unmarshal data cfg with
          | (_, Some err) => (zero_Config, Some (Errorf "unmarshal config" err))
          | (cfg, None) =>
              match validate cfg with
              | Some err => (zero_Config, Some (Errorf "validate config" err))
              | None => (cfg, None)
              end
          end
      end
  end.

End Files.

End config.

(** ** package main: the cron jobs *)

Module main.

(** How a call of a [func(context.Context) error] ends: it returns its
    error (or nil), or it panics with a value (never nil: since Go 1.21 a
    [panic(nil)] carries a [*runtime.PanicNilError]). The value is kept as
    the text [slog.Any] gives it. *)
Inductive outcome :=
| Returned (err : option error)
| Panicked (v : string).

Inductive Level := LevelInfo | LevelError.

(** A [slog] record: level, message, attributes. *)
Record Record_ := { level : Level; msg : string; attrs : list (string * string) }.

(** The default logger of [log/slog], on the state [W] that the tasks
    work on. *)
Class Logger (W : Type) := {
  slog_Info : string -> list (string * string) -> M W unit;
  slog_Error : string -> list (string * string) -> M W unit
}.

(** A logger that keeps its records. *)
Definition logbook : Type := list Record_.

Global Instance logbook_Logger : Logger logbook := {
  slog_Info m a := fun w => (tt, w ++ [{| level := LevelInfo; msg := m; attrs := a |}]);
  slog_Error m a := fun w => (tt, w ++ [{| level := LevelError; msg := m; attrs := a |}])
}.

(** [gocron.CronJob(crontab, withSeconds)] *)
Record JobDefinition := CronJob { crontab : string; withSeconds : bool }.

(** [gocron.NewTask(function, ctx)]: the function to call. (The context
    is handed through unchanged and is left out.) *)
Definition Task (W : Type) : Type := M W unit.

Definition NewTask {W : Type} (function : M W unit) : Task W := function.

(** [gocron.Scheduler] as [registerJob] uses it; a [gocron.Job] is an
    interface value, [None] when nil. *)
Class Scheduler (S J W : Type) := {
  NewJob : JobDefinition -> Task W -> M S (option J * option error)
}.

Record job (J : Type) := { Job : option J; name : string; cron : string }.

Arguments Job {J} _.
Arguments name {J} _.
Arguments cron {J} _.

(** The methods of [*boardwhite.Service] that are run by cron (the
    service is not among the sources: each is any task). *)
Record Service (W : Type) := {
  PublishLCDaily : M W outcome;
  PublishLCChickensDaily : M W outcome;
  PublishLCRating : M W outcome;
  PublishLCChickensRating : M W outcome;
  PublishNCDaily : M W outcome;
  PublishNCRating : M W outcome
}.

Arguments PublishLCDaily {W} _.
Arguments PublishLCChickensDaily {W} _.
Arguments PublishLCRating {W} _.
Arguments PublishLCChickensRating {W} _.
Arguments PublishNCDaily {W} _.
Arguments PublishNCRating {W} _.

Section Cron.
Context {S J W : Type} {HS : Scheduler S J W} {HL : Logger W}.

(** The deferred [recover] turns a panic of [f] into an error record; the
    statements after the call of [f] are then skipped. *)
Definition wrapErrors (name : string) (f : M W outcome) : M W unit :=
  _ <- slog_Info "started cron task run" [("name", name)] ;;
  r <- f ;;
  match r with
  | Panicked v => slog_Error "panic in cron task" [("name", name); ("err", v)]
  | Returned (Some err) => slog_Error "err in cron task" [("name", name); ("err", Error err)]
  | Returned None => slog_Info "finished cron task run" [("name", name)]
  end.

Definition registerJob (name cron : string) (f : M W outcome) : M S (job J * option error) :=
  r <- NewJob (CronJob cron false) (NewTask (wrapErrors name f)) ;;
  match r with
  | (_, Some err) => ret ({| Job := None; name := EmptyString; cron := EmptyString |}, Some err)
  | (jb, None) => ret ({| Job := jb; name := name; cron := cron |}, None)
  end.

(** The result is [None] for a nil slice. *)
Definition registerCronJobs (cfg : config.Config) (bw : Service W)
  : M S (option (list (job J)) * option error) :=
  let jobs := [] in
  r <- registerJob "PublishLCDaily" (config.Cron (config.LeetcodeDaily cfg)) (PublishLCDaily bw) ;;
  match r with
  | (_, Some err) => ret (None, Some err)
  | (jb, None) =>
  let jobs := jobs ++ [jb] in
  r <- registerJob "PublishLCChickensDaily" (config.Cron (config.LeetcodeDaily cfg))
         (PublishLCChickensDaily bw) ;;
  match r with
  | (_, Some err) => ret (None, Some err)
  | (jb, None) =>
  let jobs := jobs ++ [jb] in
  r <- registerJob "PublishLCRating" (config.RatingCron (config.LeetcodeDaily cfg))
         (PublishLCRating bw) ;;
  match r with
  | (_, Some err) => ret (None, Some err)
  | (jb, None) =>
  let jobs := jobs ++ [jb] in
  r <- registerJob "PublishLCChickensRating" (config.RatingCron (config.LeetcodeDaily cfg))
         (PublishLCChickensRating bw) ;;
  match r with
  | (_, Some err) => ret (None, Some err)
  | (jb, None) =>
  let jobs := jobs ++ [jb] in
  r <- registerJob "PublishNCDaily" (config.Cron (config.NeetcodeDaily cfg)) (PublishNCDaily bw) ;;
  match r with
  | (_, Some err) => ret (None, Some err)
  | (jb, None) =>
  let jobs := jobs ++ [jb] in
  r <- registerJob "PublishNCRating" (config.RatingCron (config.NeetcodeDaily cfg))
         (PublishNCRating bw) ;;
  match r with
  | (_, Some err) => ret (None, Some err)
  | (jb, None) =>
  let jobs := jobs ++ [jb] in
  ret (Some jobs, None)
  end end end end end end.

End Cron.

(** A scheduler that keeps what it accepted, in order, and hands out the
    position as the job. [check] stands for the validation of the crontab
    by [gocron]: the error for a crontab it refuses. *)
Record recorder (W : Type) := { accepted : list (JobDefinition * Task W) }.

Arguments accepted {W} _.

Section Recorder.
Context {W : Type}.
Variable check : string -> option error.

Definition recorder_NewJob (d : JobDefinition) (t : Task W)
  : M (recorder W) (option nat * option error) :=
  fun s =>
    match check (crontab d) with
    | Some err => ((None, Some err), s)
    | None => ((Some (length (accepted s)), None), {| accepted := accepted s ++ [(d, t)] |})
    end.

Definition recorder_Scheduler : Scheduler (recorder W) nat W :=
  {| NewJob := recorder_NewJob |}.

End Recorder.

(** The jobs of [registerCronJobs] in the order of its calls: the name,
    the crontab and the method. *)
Definition schedule {W : Type} (cfg : config.Config) (bw : Service W)
  : list (string * string * M W outcome) :=
  [("PublishLCDaily", config.Cron (config.LeetcodeDaily cfg), PublishLCDaily bw);
   ("PublishLCChickensDaily", config.Cron (config.LeetcodeDaily cfg), PublishLCChickensDaily bw);
   ("PublishLCRating", config.RatingCron (config.LeetcodeDaily cfg), PublishLCRating bw);
   ("PublishLCChickensRating", config.RatingCron (config.LeetcodeDaily cfg),
    PublishLCChickensRating bw);
   ("PublishNCDaily", config.Cron (config.NeetcodeDaily cfg), PublishNCDaily bw);
   ("PublishNCRating", config.RatingCron (config.NeetcodeDaily cfg), PublishNCRating bw)].

(** The entries before the first one whose crontab is refused, and the
    error of that one. *)
Fixpoint until_refused {A : Type} (check : string -> option error)
    (l : list (string * string * A)) : list (string * string * A) * option error :=
  match l with
  | [] => ([], None)
  | e :: l' =>
      match check e.1.2 with
      | Some err => ([], Some err)
      | None => let '(ok, err) := until_refused check l' in (e :: ok, err)
      end
  end.

(** What a call of [registerJob] hands to the scheduler, and the [job] it
    makes of the scheduler's [i]-th job. *)
Definition handed {W : Type} {HL : Logger W} (e : string * string * M W outcome)
  : JobDefinition * Task W :=
  (CronJob e.1.2 false, NewTask (wrapErrors e.1.1 e.2)).

Definition made {W : Type} (i : nat) (e : string * string * M W outcome) : job nat :=
  {| Job := Some i; name := e.1.1; cron := e.1.2 |}.

End main.

(** * Properties *)

(** ** Errors *)

Lemma is_chain_Errorf ctx e target :
  target ≠ Errorf ctx e → is_chain (Errorf ctx e) target = is_chain e target.
Proof. intros Hne. simpl. destruct (decide (Errorf ctx e = target)); congruence. Qed.

Lemma Is_not_found_Errorf ctx e :
  errors_Is (Some (Errorf ctx e)) (Some ErrKeyNotFound) = errors_Is (Some e) (Some ErrKeyNotFound).
Proof. simpl. destruct (decide (Errorf ctx e = ErrKeyNotFound)); congruence. Qed.

(** ** Typed codec layer *)

Section TypedCodecFacts.
Context {T : Type} `{!Tx T} {A : Type} `{!JsonType A}.

Lemma GetJson_get_error key tx data e tx' :
  Get key tx = ((data, Some e), tx') →
  GetJson A key tx = ((zero, Some (Errorf "get key" e)), tx').
Proof. intros H. unfold GetJson, bind. rewrite H. reflexivity. Qed.

Lemma GetJson_unmarshal_error key tx data r e tx' :
  Get key tx = ((data, None), tx') → Unmarshal data = (r, Some e) →
  GetJson A key tx = ((zero, Some (Errorf "unmarshall key val" e)), tx').
Proof. intros H1 H2. unfold GetJson, bind. rewrite H1, H2. reflexivity. Qed.

Lemma GetJson_ok key tx data r tx' :
  Get key tx = ((data, None), tx') → Unmarshal data = (r, None) →
  GetJson A key tx = ((r, None), tx').
Proof. intros H1 H2. unfold GetJson, bind. rewrite H1, H2. reflexivity. Qed.


End TypedCodecFacts.

Lemma GetJsonDefault_cases {T : Type} `{!Tx T} {A : Type} `{!JsonType A}
    (key : bytes) (d : A) (tx : T) :
  GetJsonDefault A key d tx =
    (let '((data, err), tx') := Get key tx in
     match err with
     | Some e =>
         if errors_Is (Some e) (Some ErrKeyNotFound) then ((d, None), tx')
         else ((zero, Some (Errorf "get key" e)), tx')
     | None =>
         match Unmarshal data with
         | (result, None) => ((result, None), tx')
         | (_, Some e) =>
             if errors_Is (Some e) (Some ErrKeyNotFound) then ((d, None), tx')
             else ((zero, Some (Errorf "unmarshall key val" e)), tx')
         end
     end).
Proof.
  unfold GetJsonDefault, GetJson, bind.
  destruct (Get key tx) as [[data [e|]] tx'].
  - unfold ret. rewrite Is_not_found_Errorf. destruct (errors_Is _ _); reflexivity.
  - destruct (Unmarshal data) as [result [e|]]; unfold ret.
    + rewrite Is_not_found_Errorf. destruct (errors_Is _ _); reflexivity.
    + reflexivity.
Qed.

(** C6. [GetJsonDefault] gives the default, with no error, exactly where
    [GetJson] fails with an error that [errors.Is] the sentinel; everywhere
    else it gives what [GetJson] gives: the decoded value of a present key,
    and every other failure (of [Get] or of the decoding) unchanged. *)
Theorem GetJsonDefault_falls_back_only_on_not_found :
  ∀ (T : Type) (HT : Tx T) (A : Type) (HA : JsonType A) (key : bytes) (d : A) (tx : T),
    GetJsonDefault A key d tx =
      (let '((result, err), tx') := GetJson A key tx in
       if errors_Is err (Some ErrKeyNotFound) then ((d, None), tx')
       else ((result, err), tx'))
    ∧ GetJsonDefault A key d tx =
      (let '((data, err), tx') := Get key tx in
       match err with
       | Some e =>
           if errors_Is (Some e) (Some ErrKeyNotFound) then ((d, None), tx')
           else ((zero, Some (Errorf "get key" e)), tx')
       | None =>
           match Unmarshal data with
           | (result, None) => ((result, None), tx')
           | (_, Some e) =>
               if errors_Is (Some e) (Some ErrKeyNotFound) then ((d, None), tx')
               else ((zero, Some (Errorf "unmarshall key val" e)), tx')
           end
       end).
Proof.
  intros. split.
  - unfold GetJsonDefault, bind. destruct (GetJson A key tx) as [[result err] tx'].
    destruct (errors_Is err _); reflexivity.
  - apply GetJsonDefault_cases.
Qed.

(** C9. When [tx.Get] fails with an error that is (or wraps) the sentinel,
    the error of [GetJson] is that error wrapped once more, with the
    context text in front; it is not the sentinel itself, yet [errors.Is]
    still finds the sentinel, and so [GetJsonDefault] gives the default. *)
Theorem GetJson_wraps_not_found :
  ∀ (T : Type) (HT : Tx T) (A : Type) (HA : JsonType A)
    (key : bytes) (tx tx' : T) (data : bytes) (e : error),
    Get key tx = ((data, Some e), tx') →
    errors_Is (Some e) (Some ErrKeyNotFound) = true →
    ∃ err,
      GetJson A key tx = ((zero, Some err), tx')
      ∧ err = Errorf "get key" e
      ∧ Unwrap err = Some e
      ∧ Error err = String.append "get key: " (Error e)
      ∧ err ≠ ErrKeyNotFound
      ∧ errors_Is (Some err) (Some ErrKeyNotFound) = true
      ∧ ∀ d, GetJsonDefault A key d tx = ((d, None), tx').
Proof.
  intros * Hget His. exists (Errorf "get key" e).
  pose proof (GetJson_get_error (A:=A) _ _ _ _ _ Hget) as HG.
  split; [exact HG|]. split; [reflexivity|]. split; [reflexivity|].
  split; [reflexivity|]. split; [discriminate|]. split.
  - by rewrite Is_not_found_Errorf.
  - intros d. unfold GetJsonDefault, bind. rewrite HG.
    by rewrite Is_not_found_Errorf, His.
Qed.

Lemma GetJson_wraps_not_found_witness :
  ∃ err,
    GetJson (govalue TInt) (B "key1") empty_db = ((0%Z, Some err), log (EvGet (B "key1")) empty_db)
    ∧ err = Errorf "get key" ErrKeyNotFound
    ∧ Unwrap err = Some ErrKeyNotFound
    ∧ Error err = String.append "get key: " (Error ErrKeyNotFound)
    ∧ err ≠ ErrKeyNotFound
    ∧ errors_Is (Some err) (Some ErrKeyNotFound) = true
    ∧ ∀ d, GetJsonDefault (govalue TInt) (B "key1") d empty_db
           = ((d, None), log (EvGet (B "key1")) empty_db).
Proof.
  exact (GetJson_wraps_not_found memDB _ (govalue TInt) _ (B "key1") empty_db
           (log (EvGet (B "key1")) empty_db) [] ErrKeyNotFound eq_refl eq_refl).
Defined.

(** ** The store *)

Lemma memDB_Get_absent (tx : memDB) key :
  cells tx !! key = None → Get key tx = (([], Some ErrKeyNotFound), log (EvGet key) tx).
Proof. intros H. simpl. by rewrite H. Qed.

Lemma memDB_Get_present (tx : memDB) key val :
  cells tx !! key = Some val → Get key tx = ((val, None), log (EvGet key) tx).
Proof. intros H. simpl. by rewrite H. Qed.

Lemma go_Unmarshal_error_kind t data e :
  (Unmarshal (A:=govalue t) data).2 = Some e →
  (∃ msg, e = SyntaxError msg) ∨ (∃ msg, e = UnmarshalTypeError msg).
Proof.
  cbn [Unmarshal go_JsonType]. destruct (valid data); [|intros [= <-]; eauto].
  destruct (value _ _); [|intros [= <-]; eauto].
  destruct (decode _ _); simpl; [done|intros [= <-]; eauto].
Qed.

(** C5. On a key that the keyspace does not hold, [Get] gives an error and
    not an empty value, and [GetJson] fails with an error that [errors.Is]
    the sentinel. The other failures of [GetJson] are told apart from it:
    its error for a stored value that does not decode, and its error for a
    [Get] that failed with something else than the sentinel, do not match
    the sentinel. *)
Theorem GetJson_absent_key_not_found :
  ∀ (A : Type) (HA : JsonType A) (tx : memDB) (key : bytes),
    cells tx !! key = None →
    (Get key tx).1 = ([], Some ErrKeyNotFound)
    ∧ (∃ err, (GetJson A key tx).1 = (zero, Some err)
              ∧ errors_Is (Some err) (Some ErrKeyNotFound) = true)
    ∧ (∀ (t : gotype) (key' data : bytes) (e : error),
        cells tx !! key' = Some data →
        (Unmarshal (A:=govalue t) data).2 = Some e →
        (GetJson (govalue t) key' tx).1 = (zero, Some (Errorf "unmarshall key val" e))
        ∧ errors_Is (Some (Errorf "unmarshall key val" e)) (Some ErrKeyNotFound) = false)
    ∧ ∀ (T : Type) (HT : Tx T) (tx0 tx1 : T) (key' data : bytes) (e : error),
        Get key' tx0 = ((data, Some e), tx1) →
        errors_Is (Some e) (Some ErrKeyNotFound) = false →
        (GetJson A key' tx0).1 = (zero, Some (Errorf "get key" e))
        ∧ errors_Is (Some (Errorf "get key" e)) (Some ErrKeyNotFound) = false.
Proof.
  intros A HA tx key Habs. split; [|split; [|split]]; cycle 3.
  { intros T HT tx0 tx1 key' data e HG He.
    rewrite (GetJson_get_error _ _ _ _ _ HG). split; [done|].
    by rewrite Is_not_found_Errorf. }
  - by rewrite memDB_Get_absent.
  - exists (Errorf "get key" ErrKeyNotFound).
    by rewrite (GetJson_get_error _ _ _ _ _ (memDB_Get_absent _ _ Habs)).
  - intros t key' data e Hin Herr.
    destruct (Unmarshal (A:=govalue t) data) as [r oe] eqn:HU. simpl in Herr. subst oe.
    rewrite (GetJson_unmarshal_error _ _ _ _ _ _ (memDB_Get_present _ _ _ Hin) HU).
    split; [done|].
    rewrite Is_not_found_Errorf.
    destruct (go_Unmarshal_error_kind t data e) as [[msg ->]|[msg ->]]; [by rewrite HU|done..].
Qed.

Lemma GetJson_absent_key_not_found_witness :
  (Get (B "key1") empty_db).1 = ([], Some ErrKeyNotFound)
  ∧ (∃ err, (GetJson (govalue TInt) (B "key1") empty_db).1 = (0%Z, Some err)
            ∧ errors_Is (Some err) (Some ErrKeyNotFound) = true)
  ∧ (∀ (t : gotype) (key' data : bytes) (e : error),
      cells empty_db !! key' = Some data →
      (Unmarshal (A:=govalue t) data).2 = Some e →
      (GetJson (govalue t) key' empty_db).1 = (zero, Some (Errorf "unmarshall key val" e))
      ∧ errors_Is (Some (Errorf "unmarshall key val" e)) (Some ErrKeyNotFound) = false)
  ∧ ∀ (T : Type) (HT : Tx T) (tx0 tx1 : T) (key' data : bytes) (e : error),
      Get key' tx0 = ((data, Some e), tx1) →
      errors_Is (Some e) (Some ErrKeyNotFound) = false →
      (GetJson (govalue TInt) key' tx0).1 = (zero, Some (Errorf "get key" e))
      ∧ errors_Is (Some (Errorf "get key" e)) (Some ErrKeyNotFound) = false.
Proof.
  exact (GetJson_absent_key_not_found (govalue TInt) _ empty_db (B "key1") eq_refl).
Defined.

(** ** Transactions of the store *)

Lemma memDB_Do_error (work : M memDB (option error)) db err tx :
  work (log EvBegin db) = (Some err, tx) →
  Do work db = (Some err, {| cells := cells db; history := history tx ++ [EvRollback] |}).
Proof. intros H. cbn [Do memDB_DB]. by rewrite H. Qed.

Lemma memDB_Do_ok (work : M memDB (option error)) db tx :
  work (log EvBegin db) = (None, tx) → Do work db = (None, log EvCommit tx).
Proof. intros H. cbn [Do memDB_DB]. by rewrite H. Qed.

(** C1. A transaction that sets a key and then returns an error: [Do]
    returns that error, the keyspace afterwards is the keyspace before, so
    the key holds what was committed for it before (or nothing), and a
    [Get] in a later transaction reads, for every key, what it would have
    read before. *)
Theorem failed_transaction_writes_invisible :
  ∀ (db : memDB) (key val : bytes) (rest : option error → M memDB (option error))
    (err : error),
    ((e <- Set_ key val ;; rest e) (log EvBegin db)).1 = Some err →
    (Do (e <- Set_ key val ;; rest e) db).1 = Some err
    ∧ cells (Do (e <- Set_ key val ;; rest e) db).2 = cells db
    ∧ cells (Do (e <- Set_ key val ;; rest e) db).2 !! key = cells db !! key
    ∧ ∀ k, (Get k (log EvBegin (Do (e <- Set_ key val ;; rest e) db).2)).1
           = (Get k (log EvBegin db)).1.
Proof.
  intros db key val rest err H.
  destruct ((e <- Set_ key val ;; rest e) (log EvBegin db)) as [oe tx] eqn:Hw.
  simpl in H. subst oe. rewrite (memDB_Do_error _ _ _ _ Hw). simpl.
  repeat split. intros k. by destruct (cells db !! k).
Qed.


Lemma failed_transaction_writes_invisible_witness :
  (Do (e <- Set_ (B "k") (B "90") ;; ret (Some (ErrNew "err after set"))) db80).1
    = Some (ErrNew "err after set")
  ∧ cells (Do (e <- Set_ (B "k") (B "90") ;; ret (Some (ErrNew "err after set"))) db80).2
    = cells db80
  ∧ cells (Do (e <- Set_ (B "k") (B "90") ;; ret (Some (ErrNew "err after set"))) db80).2 !! B "k"
    = cells db80 !! B "k"
  ∧ ∀ k, (Get k (log EvBegin
            (Do (e <- Set_ (B "k") (B "90") ;; ret (Some (ErrNew "err after set"))) db80).2)).1
         = (Get k (log EvBegin db80)).1.
Proof.
  exact (failed_transaction_writes_invisible db80 (B "k") (B "90")
           (fun _ => ret (Some (ErrNew "err after set"))) (ErrNew "err after set") eq_refl).
Defined.

(** The scenario of the test: commit 80, fail after writing 90, read 80. *)
Example transaction_scenario :
  let failing := e <- SetJson (A:=govalue TInt) (B "k") 90%Z ;; ret (Some (ErrNew "err after set")) in
  (Do (SetJson (A:=govalue TInt) (B "k") 80%Z) empty_db).1 = None
  ∧ (Do failing db80).1 = Some (ErrNew "err after set")
  ∧ (GetJson (govalue TInt) (B "k") (log EvBegin (Do failing db80).2)).1 = (80%Z, None)
  ∧ ((r <- SetJson (A:=govalue TInt) (B "k") 90%Z ;; GetJson (govalue TInt) (B "k"))
       (log EvBegin db80)).1 = (90%Z, None).
Proof. vm_compute. repeat split. Qed.

(** ** Import *)


Lemma memDB_replay dump (tx : memDB) :
  replay dump tx =
    (None, {| cells := foldl (fun m kv => <[Key kv := default [] (Val kv)]> m) (cells tx) dump;
              history := history tx ++ sets_of dump |}).
Proof.
  revert tx. induction dump as [|kv dump IH]; intros tx.
  - simpl. unfold ret. destruct tx; simpl. by rewrite app_nil_r.
  - cbn [replay]. unfold bind. cbn [Set_ memDB_Tx]. rewrite IH. simpl.
    by rewrite <- app_assoc.
Qed.


Section ImportFacts.
Context {D T : Type} `{!Tx T} `{!DB D T} {R : Type} `{!Reader R}.
Variable range : gmap bytes RawMessage → list (bytes * RawMessage).

Lemma RestoreJson_read_error db (reader reader' : R) data e :
  ReadAll reader = ((data, Some e), reader') →
  RestoreJson range db reader = (Some (Errorf "read dump" e), db, reader').
Proof. intros H. unfold RestoreJson. by rewrite H. Qed.


Lemma RestoreJson_parsed db (reader reader' : R) data raw :
  ReadAll reader = ((data, None), reader') →
  Unmarshal_map data = (raw, None) →
  RestoreJson range db reader =
    ((Do (replay (map to_KV (range raw))) db).1,
     (Do (replay (map to_KV (range raw))) db).2, reader').
Proof.
  intros H1 H2. unfold RestoreJson. rewrite H1, H2.
  by destruct (Do _ db).
Qed.

End ImportFacts.



(** ** Export: failures *)

Lemma encode_member_error kv c e :
  encode_member kv = (c, Some e) → c = [] ∧ ∃ e', e = MarshalerError e'.
Proof.
  unfold encode_member. destruct (compact _) as [c' [e'|]]; intros [= <- <-]; eauto.
Qed.

Lemma encode_member_invalid kv :
  valid (RawMessage_MarshalJSON kv.2) = false →
  ∃ e, encode_member kv = ([], Some (MarshalerError e)).
Proof. intros H. unfold encode_member, compact. rewrite H. eauto. Qed.

Lemma encode_members_invalid l first kv :
  kv ∈ l → valid (RawMessage_MarshalJSON kv.2) = false →
  ∃ e, encode_members first l = ([], Some (MarshalerError e)).
Proof.
  revert first. induction l as [|x l IH]; intros first Hin Hinv; [by inversion Hin|].
  cbn [encode_members].
  destruct (encode_member x) as [m [e|]] eqn:Hx.
  - destruct (encode_member_error _ _ _ Hx) as [_ [e' ->]]. eauto.
  - apply elem_of_cons in Hin as [->|Hin].
    + destruct (encode_member_invalid _ Hinv) as [e He]. congruence.
    + destruct (IH false Hin Hinv) as [e ->]. eauto.
Qed.

Lemma Marshal_map_invalid (out : gmap bytes RawMessage) k v :
  out !! k = Some v → valid (RawMessage_MarshalJSON v) = false →
  ∃ e, Marshal_map out = ([], Some (MarshalerError e)).
Proof.
  intros Hk Hinv. unfold Marshal_map.
  destruct (encode_members_invalid (merge_sort key_le (map_to_list out)) true (k, v)) as [e ->];
    [|done|eauto].
  rewrite merge_sort_Permutation. by apply elem_of_map_to_list.
Qed.

(** C10. [DumpJson] calls [Write] at most once, with the whole marshalled
    object, and only when [Dump] and [json.Marshal] both succeeded. When
    [Dump] fails, or when the value dumped for some key is not valid JSON,
    it returns the wrapped error and the writer is as it was: nothing was
    written. *)
Theorem DumpJson_writes_once_after_success :
  ∀ (D T : Type) (HD : DB D T) (W : Type) (HW : Writer W)
    (db db1 : D) (writer : W) (dump : list KV) (derr : option error),
    Dump db = ((dump, derr), db1) →
    (∀ e, derr = Some e →
          DumpJson db writer = (Some (Errorf "dump db" e), db1, writer))
    ∧ (derr = None →
       (∃ k v, collect dump !! k = Some v ∧ valid (RawMessage_MarshalJSON v) = false) →
       ∃ e, DumpJson db writer
            = (Some (Errorf "marshall dump" (MarshalerError e)), db1, writer))
    ∧ ((DumpJson db writer).2 = writer
       ∨ ∃ data, derr = None ∧ Marshal_map (collect dump) = (data, None)
                 ∧ (DumpJson db writer).2 = (Write data writer).2).
Proof.
  intros D T HD W HW db db1 writer dump derr HDump. unfold DumpJson. rewrite HDump. split; [|split].
  - by intros e ->.
  - intros -> (k & v & Hk & Hinv).
    destruct (Marshal_map_invalid _ _ _ Hk Hinv) as [e ->]. eauto.
  - destruct derr as [e|]; [by left|].
    destruct (Marshal_map (collect dump)) as [data [e|]] eqn:HM; [by left|].
    right. exists data. split; [done|]. split; [done|].
    destruct (Write data writer) as [[n [e|]] w']; done.
Qed.


Lemma DumpJson_writes_once_after_success_witness :
  ∃ e, DumpJson db_bad (B "before" : Buffer)
       = (Some (Errorf "marshall dump" (MarshalerError e)), db_bad, (B "before" : Buffer)).
Proof.
  refine (proj1 (proj2 (DumpJson_writes_once_after_success memDB memDB _ Buffer _
            db_bad db_bad (B "before") _ None eq_refl)) eq_refl _).
  exists (B "k"), (Some (B "x")). split; vm_compute; reflexivity.
Defined.

(** ** The scanner: appending input *)

Lemma consumed_app (c r : bytes) : consumed (c ++ r) r = c.
Proof.
  unfold consumed. rewrite length_app.
  replace (length c + length r - length r) with (length c) by lia.
  by rewrite take_app_length.
Qed.

Lemma consumed_frame (s r x : bytes) :
  length r ≤ length s → consumed (s ++ x) (r ++ x) = consumed s r.
Proof.
  intros H. unfold consumed. rewrite !length_app.
  replace (length s + length x - (length r + length x)) with (length s - length r) by lia.
  rewrite take_app_le; [done|lia].
Qed.

Lemma skip_space_app s x : skip_space s ≠ [] → skip_space (s ++ x) = skip_space s ++ x.
Proof.
  induction s as [|c t IH]; [done|]. simpl. destruct (is_space c); [exact IH|done].
Qed.

Lemma skip_space_length s : length (skip_space s) ≤ length s.
Proof. induction s as [|c t IH]; simpl; [lia|]. destruct (is_space c); simpl; lia. Qed.

Lemma skip_space_head c t : is_space c = false → skip_space (c :: t) = c :: t.
Proof. intros H. simpl. by rewrite H. Qed.

Lemma string_rest_app s r x : string_rest s = Some r → string_rest (s ++ x) = Some (r ++ x).
Proof.
  remember (length s) as n eqn:Hn. revert s Hn r.
  induction n as [n IH] using lt_wf_ind. intros [|c t] Hn r; [done|].
  cbn [string_rest app].
  destruct (Ascii.eqb c dquote); [by intros [= <-]|].
  destruct (Ascii.eqb c backslash).
  - destruct t as [|e t']; [done|]. cbn [app].
    destruct (is_escape e). { apply (IH (length t')); [subst n; simpl; clear; lia|done]. }
    destruct (Ascii.eqb e "u"); [|done].
    destruct t' as [|h1 [|h2 [|h3 [|h4 t'']]]]; try done. cbn [app].
    destruct (_ && _); [|done]. apply (IH (length t'')); [subst n; simpl; clear; lia|done].
  - destruct (code c <? 32)%N; [done|]. apply (IH (length t)); [subst n; simpl; clear; lia|done].
Qed.

Lemma string_rest_length s r : string_rest s = Some r → length r < length s.
Proof.
  remember (length s) as n eqn:Hn. revert s Hn r.
  induction n as [n IH] using lt_wf_ind. intros [|c t] Hn r; [done|].
  cbn [string_rest].
  destruct (Ascii.eqb c dquote); [intros [= <-]; subst n; simpl; lia|].
  destruct (Ascii.eqb c backslash).
  - destruct t as [|e t']; [done|].
    destruct (is_escape e).
    { intros H. apply (IH (length t')) in H; [|subst n; simpl; clear; lia|done]. subst n; simpl. clear IH. lia. }
    destruct (Ascii.eqb e "u"); [|done].
    destruct t' as [|h1 [|h2 [|h3 [|h4 t'']]]]; try done.
    destruct (_ && _); [|done].
    intros H. apply (IH (length t'')) in H; [|subst n; simpl; clear; lia|done].
    subst n; simpl. clear IH. lia.
  - destruct (code c <? 32)%N; [done|].
    intros H. apply (IH (length t)) in H; [|subst n; simpl; clear; lia|done].
    subst n; simpl. clear IH. lia.
Qed.

Lemma strip_prefix_app p s r x :
  strip_prefix p s = Some r → strip_prefix p (s ++ x) = Some (r ++ x).
Proof.
  revert s. induction p as [|a p IH]; intros s; simpl; [by intros [= <-]|].
  destruct s as [|b s]; [done|]. simpl. destruct (Ascii.eqb a b); [apply IH|done].
Qed.

Lemma strip_prefix_length p s r : strip_prefix p s = Some r → length r ≤ length s.
Proof.
  revert s. induction p as [|a p IH]; intros s; simpl; [by intros [= <-]|].
  destruct s as [|b s]; [done|]. destruct (Ascii.eqb a b); [|done].
  intros H. apply IH in H. simpl. lia.
Qed.

Lemma delimited_cons c x :
  delimited (c :: x) = true →
  is_digit c = false ∧ Ascii.eqb c "." = false ∧ Ascii.eqb c "e" = false ∧ Ascii.eqb c "E" = false.
Proof.
  simpl. rewrite negb_true_iff, !orb_false_iff. tauto.
Qed.

Lemma digits_delimited x : delimited x = true → digits x = x.
Proof.
  destruct x as [|c x]; [done|]. intros H. apply delimited_cons in H as (H & _).
  simpl. by rewrite H.
Qed.

Lemma digits_app s x : (digits s = [] → delimited x = true) → digits (s ++ x) = digits s ++ x.
Proof.
  induction s as [|c t IH]; simpl.
  - intros H. by apply digits_delimited, H.
  - destruct (is_digit c); [exact IH|done].
Qed.

Lemma digits_length s : length (digits s) ≤ length s.
Proof. induction s as [|c t IH]; simpl; [lia|]. destruct (is_digit c); simpl; lia. Qed.

Lemma number_int_app s r x :
  number_int s = Some r → (r = [] → delimited x = true) →
  number_int (s ++ x) = Some (r ++ x).
Proof.
  destruct s as [|c t]; [done|]. cbn [number_int app].
  destruct (Ascii.eqb c "0"); [by intros [= <-]|].
  destruct (is_digit c); [|done]. intros [= <-] H. f_equal. by apply digits_app.
Qed.

Lemma number_frac_app s r x :
  number_frac s = Some r → (r = [] → delimited x = true) →
  number_frac (s ++ x) = Some (r ++ x).
Proof.
  destruct s as [|c t].
  - intros [= <-] H. specialize (H eq_refl). destruct x as [|c x]; [done|].
    apply delimited_cons in H as (_ & H & _). simpl. by rewrite H.
  - cbn [number_frac app]. destruct (Ascii.eqb c "."); [|by intros [= <-]].
    destruct t as [|d t']; [done|]. cbn [app]. destruct (is_digit d); [|done].
    intros [= <-] H. f_equal. by apply digits_app.
Qed.

Lemma number_exp_app s r x :
  number_exp s = Some r → (r = [] → delimited x = true) →
  number_exp (s ++ x) = Some (r ++ x).
Proof.
  destruct s as [|c t].
  - intros [= <-] H. specialize (H eq_refl). destruct x as [|c x]; [done|].
    apply delimited_cons in H as (_ & _ & H1 & H2). simpl. by rewrite H1, H2.
  - cbn [number_exp app]. destruct (_ || _); [|by intros [= <-]].
    destruct t as [|y t']; [done|]. cbn [app].
    destruct (Ascii.eqb y "+" || Ascii.eqb y "-").
    + destruct t' as [|d t2]; [done|]. cbn [app]. destruct (is_digit d); [|done].
      intros [= <-] H. f_equal. by apply digits_app.
    + destruct (is_digit y); [|done].
      intros [= <-] H. f_equal. by apply digits_app.
Qed.

Lemma number_app s r x :
  number s = Some r → (r = [] → delimited x = true) → number (s ++ x) = Some (r ++ x).
Proof.
  unfold number. intros H Hx.
  assert (Hs1 : ∀ s1, (match s with c :: t => if Ascii.eqb c "-" then t else s | [] => s end) = s1 →
     number_int s1 = None ∨
     (match s ++ x with c :: t => if Ascii.eqb c "-" then t else s ++ x | [] => s ++ x end) = s1 ++ x).
  { intros s1 <-. destruct s as [|c t]; [by left|]. right. simpl. by destruct (Ascii.eqb c "-"). }
  destruct (Hs1 _ eq_refl) as [Hn| ->]; [by rewrite Hn in H|]. clear Hs1.
  destruct (number_int _) as [r1|] eqn:H1; [|done].
  destruct (number_frac r1) as [r2|] eqn:H2; [|done].
  assert (r2 = [] → r = []) as H32.
  { intros ->. by injection H as <-. }
  assert (r1 = [] → r2 = []) as H21.
  { intros ->. by injection H2 as <-. }
  rewrite (number_int_app _ _ _ H1) by auto.
  rewrite (number_frac_app _ _ _ H2) by auto.
  by apply number_exp_app.
Qed.

Lemma number_length s r : number s = Some r → length r < length s.
Proof.
  unfold number.
  set (s1 := match s with c :: t => if Ascii.eqb c "-" then t else s | [] => s end).
  assert (length s1 ≤ length s).
  { subst s1. destruct s as [|c t]; [done|]. destruct (Ascii.eqb c "-"); simpl; lia. }
  clearbody s1.
  destruct (number_int s1) as [r1|] eqn:H1; [|done].
  destruct (number_frac r1) as [r2|] eqn:H2; [|done]. intros H3.
  assert (length r1 < length s1).
  { destruct s1 as [|c t]; [done|]. simpl in H1. destruct (Ascii.eqb c "0").
    - injection H1 as <-. simpl. lia.
    - destruct (is_digit c); [|done]. injection H1 as <-. pose proof (digits_length t). simpl. lia. }
  assert (length r2 ≤ length r1).
  { destruct r1 as [|c t]; [by injection H2 as <-|]. simpl in H2.
    destruct (Ascii.eqb c "."); [|by injection H2 as <-].
    destruct t as [|d t']; [done|]. destruct (is_digit d); [|done].
    injection H2 as <-. pose proof (digits_length t'). simpl. lia. }
  assert (length r ≤ length r2); [|lia].
  destruct r2 as [|c t]; [by injection H3 as <-|]. simpl in H3.
  destruct (_ || _); [|by injection H3 as <-].
  destruct t as [|y t']; [done|].
  destruct (Ascii.eqb y "+" || Ascii.eqb y "-").
  - destruct t' as [|d t2]; [done|]. destruct (is_digit d); [|done].
    injection H3 as <-. pose proof (digits_length t2). simpl. lia.
  - destruct (is_digit y); [|done].
    injection H3 as <-. pose proof (digits_length t'). simpl. lia.
Qed.

Lemma skip_space_nil_inv r c r' : skip_space r = c :: r' → r ≠ [].
Proof. by intros H ->. Qed.

Section CompositeFacts.
Variable v : bytes → option bytes.
Hypothesis v_nil : v [] = None.
Hypothesis v_length : ∀ s r, v s = Some r → length r < length s.
Hypothesis v_app : ∀ s r x, v s = Some r → r ≠ [] → v (s ++ x) = Some (r ++ x).

Lemma elements_app f s l r x :
  elements v f s = Some (l, r) → elements v f (s ++ x) = Some (l, r ++ x).
Proof.
  revert s l r. induction f as [|f IH]; intros s l r; [done|]. cbn [elements].
  destruct (v (skip_space s)) as [r1|] eqn:Hv; [|done].
  assert (skip_space s ≠ []) as Hs by (intros E; rewrite E, v_nil in Hv; done).
  destruct (skip_space r1) as [|c r'] eqn:Hr1; [done|].
  pose proof (skip_space_nil_inv _ _ _ Hr1) as Hne.
  rewrite (skip_space_app s x Hs), (v_app _ _ x Hv Hne).
  rewrite (skip_space_app r1 x) by (by rewrite Hr1). rewrite Hr1. cbn [app].
  rewrite consumed_frame by (apply v_length in Hv; lia).
  destruct (Ascii.eqb c ",").
  - destruct (elements v f r') as [[l' r'']|] eqn:He; [|done].
    intros [= <- <-]. by rewrite (IH _ _ _ He).
  - destruct (Ascii.eqb c "]"); [|done]. by intros [= <- <-].
Qed.

Lemma elements_fuel f f' s res :
  elements v f s = Some res → f ≤ f' → elements v f' s = Some res.
Proof.
  revert f' s res. induction f as [|f IH]; intros f' s res; [done|].
  intros H Hle. destruct f' as [|f']; [lia|]. revert H. cbn [elements].
  destruct (v (skip_space s)) as [r1|]; [|done].
  destruct (skip_space r1) as [|c r']; [done|].
  destruct (Ascii.eqb c ","); [|done].
  destruct (elements v f r') as [[l' r'']|] eqn:He; [|done].
  by rewrite (IH f' _ _ He) by lia.
Qed.

Lemma elements_length f s l r : elements v f s = Some (l, r) → length r < length s.
Proof.
  revert s l r. induction f as [|f IH]; intros s l r; [done|]. cbn [elements].
  destruct (v (skip_space s)) as [r1|] eqn:Hv; [|done].
  apply v_length in Hv. pose proof (skip_space_length s).
  destruct (skip_space r1) as [|c r'] eqn:Hr1; [done|].
  pose proof (skip_space_length r1) as Hl. rewrite Hr1 in Hl. simpl in Hl.
  destruct (Ascii.eqb c ",").
  - destruct (elements v f r') as [[l' r'']|] eqn:He; [|done].
    intros [= <- <-]. apply IH in He. lia.
  - destruct (Ascii.eqb c "]"); [|done]. intros [= <- <-]. lia.
Qed.

Lemma members_app f s l r x :
  members v f s = Some (l, r) → members v f (s ++ x) = Some (l, r ++ x).
Proof.
  revert s l r. induction f as [|f IH]; intros s l r; [done|]. cbn [members].
  destruct (skip_space s) as [|q s1] eqn:Hs; [done|].
  rewrite (skip_space_app s x) by (by rewrite Hs). rewrite Hs. cbn [app].
  destruct (Ascii.eqb q dquote); [|done].
  destruct (string_rest s1) as [r1|] eqn:Hk; [|done].
  rewrite (string_rest_app _ _ x Hk).
  destruct (skip_space r1) as [|c r2] eqn:Hr1; [done|].
  rewrite (skip_space_app r1 x) by (by rewrite Hr1). rewrite Hr1. cbn [app].
  destruct (Ascii.eqb c ":"); [|done].
  destruct (v (skip_space r2)) as [r3|] eqn:Hv; [|done].
  assert (skip_space r2 ≠ []) as Hs2 by (intros E; rewrite E, v_nil in Hv; done).
  destruct (skip_space r3) as [|d r4] eqn:Hr3; [done|].
  pose proof (skip_space_nil_inv _ _ _ Hr3) as Hne.
  rewrite (skip_space_app r2 x Hs2), (v_app _ _ x Hv Hne).
  rewrite (skip_space_app r3 x) by (by rewrite Hr3). rewrite Hr3. cbn [app].
  pose proof (v_length _ _ Hv). pose proof (string_rest_length _ _ Hk).
  rewrite !consumed_frame by lia.
  destruct (Ascii.eqb d ",").
  - destruct (members v f r4) as [[l' r5]|] eqn:He; [|done].
    intros [= <- <-]. by rewrite (IH _ _ _ He).
  - destruct (Ascii.eqb d "}"); [|done]. by intros [= <- <-].
Qed.

Lemma members_fuel f f' s res :
  members v f s = Some res → f ≤ f' → members v f' s = Some res.
Proof.
  revert f' s res. induction f as [|f IH]; intros f' s res; [done|].
  intros H Hle. destruct f' as [|f']; [lia|]. revert H. cbn [members].
  destruct (skip_space s) as [|q s1]; [done|].
  destruct (Ascii.eqb q dquote); [|done].
  destruct (string_rest s1) as [r1|]; [|done].
  destruct (skip_space r1) as [|c r2]; [done|].
  destruct (Ascii.eqb c ":"); [|done].
  destruct (v (skip_space r2)) as [r3|]; [|done].
  destruct (skip_space r3) as [|d r4]; [done|].
  destruct (Ascii.eqb d ","); [|done].
  destruct (members v f r4) as [[l' r5]|] eqn:He; [|done].
  by rewrite (IH f' _ _ He) by lia.
Qed.

Lemma members_length f s l r : members v f s = Some (l, r) → length r < length s.
Proof.
  revert s l r. induction f as [|f IH]; intros s l r; [done|]. cbn [members].
  pose proof (skip_space_length s) as Hl0.
  destruct (skip_space s) as [|q s1] eqn:Hs; [done|]. simpl in Hl0.
  destruct (Ascii.eqb q dquote); [|done].
  destruct (string_rest s1) as [r1|] eqn:Hk; [|done]. apply string_rest_length in Hk.
  pose proof (skip_space_length r1) as Hl1.
  destruct (skip_space r1) as [|c r2] eqn:Hr1; [done|]. simpl in Hl1.
  destruct (Ascii.eqb c ":"); [|done].
  destruct (v (skip_space r2)) as [r3|] eqn:Hv; [|done].
  apply v_length in Hv. pose proof (skip_space_length r2) as Hl2.
  pose proof (skip_space_length r3) as Hl3.
  destruct (skip_space r3) as [|d r4] eqn:Hr3; [done|]. simpl in Hl3.
  destruct (Ascii.eqb d ",").
  - destruct (members v f r4) as [[l' r5]|] eqn:He; [|done].
    intros [= <- <-]. apply IH in He. lia.
  - destruct (Ascii.eqb d "}"); [|done]. intros [= <- <-]. lia.
Qed.

Lemma array_app s l r x : array v s = Some (l, r) → array v (s ++ x) = Some (l, r ++ x).
Proof.
  unfold array. destruct (skip_space s) as [|c r0] eqn:Hs; [done|].
  rewrite (skip_space_app s x) by (by rewrite Hs). rewrite Hs. cbn [app].
  destruct (Ascii.eqb c "]"); [by intros [= <- <-]|].
  intros H. apply elements_app. apply (elements_fuel _ _ _ _ H).
  rewrite length_app. lia.
Qed.

Lemma array_length s l r : array v s = Some (l, r) → length r < length s.
Proof.
  unfold array. pose proof (skip_space_length s) as Hl.
  destruct (skip_space s) as [|c r0] eqn:Hs; [done|]. simpl in Hl.
  destruct (Ascii.eqb c "]"); [intros [= <- <-]; lia|]. apply elements_length.
Qed.

Lemma object_app s l r x : object v s = Some (l, r) → object v (s ++ x) = Some (l, r ++ x).
Proof.
  unfold object. destruct (skip_space s) as [|c r0] eqn:Hs; [done|].
  rewrite (skip_space_app s x) by (by rewrite Hs). rewrite Hs. cbn [app].
  destruct (Ascii.eqb c "}"); [by intros [= <- <-]|].
  intros H. apply members_app. apply (members_fuel _ _ _ _ H).
  rewrite length_app. lia.
Qed.

Lemma object_length s l r : object v s = Some (l, r) → length r < length s.
Proof.
  unfold object. pose proof (skip_space_length s) as Hl.
  destruct (skip_space s) as [|c r0] eqn:Hs; [done|]. simpl in Hl.
  destruct (Ascii.eqb c "}"); [intros [= <- <-]; lia|]. apply members_length.
Qed.

End CompositeFacts.

Lemma value_nil n : value n [] = None.
Proof. by destruct n. Qed.

Lemma value_length n s r : value n s = Some r → length r < length s.
Proof.
  revert s r. induction n as [|n IH]; intros [|c t] r; try done; cbn [value].
  - destruct (Ascii.eqb c "{"); [done|]. destruct (Ascii.eqb c "["); [done|].
    destruct (Ascii.eqb c dquote).
    { intros H%string_rest_length. simpl. lia. }
    destruct (_ || _). { apply number_length. }
    destruct (Ascii.eqb c "t"). { intros H%strip_prefix_length. simpl. lia. }
    destruct (Ascii.eqb c "f"). { intros H%strip_prefix_length. simpl. lia. }
    destruct (Ascii.eqb c "n"). { intros H%strip_prefix_length. simpl. lia. }
    done.
  - destruct (Ascii.eqb c "{").
    { destruct (object (value n) t) as [[l r']|] eqn:Ho; [|done].
      intros [= <-]. apply object_length in Ho; [simpl; lia|exact IH]. }
    destruct (Ascii.eqb c "[").
    { destruct (array (value n) t) as [[l r']|] eqn:Ho; [|done].
      intros [= <-]. apply array_length in Ho; [simpl; lia|exact IH]. }
    destruct (Ascii.eqb c dquote).
    { intros H%string_rest_length. simpl. lia. }
    destruct (_ || _). { apply number_length. }
    destruct (Ascii.eqb c "t"). { intros H%strip_prefix_length. simpl. lia. }
    destruct (Ascii.eqb c "f"). { intros H%strip_prefix_length. simpl. lia. }
    destruct (Ascii.eqb c "n"). { intros H%strip_prefix_length. simpl. lia. }
    done.
Qed.

Lemma value_app n s r x :
  value n s = Some r → (r = [] → delimited x = true) → value n (s ++ x) = Some (r ++ x).
Proof.
  revert s r x. induction n as [|n IH]; intros [|c t] r x; try done; cbn [value app].
  - destruct (Ascii.eqb c "{"); [done|]. destruct (Ascii.eqb c "["); [done|].
    destruct (Ascii.eqb c dquote). { intros H _. by apply string_rest_app. }
    destruct (_ || _). { apply (number_app (c :: t)). }
    destruct (Ascii.eqb c "t"). { intros H _. by apply strip_prefix_app. }
    destruct (Ascii.eqb c "f"). { intros H _. by apply strip_prefix_app. }
    destruct (Ascii.eqb c "n"). { intros H _. by apply strip_prefix_app. }
    done.
  - assert (∀ s r x, value n s = Some r → r ≠ [] → value n (s ++ x) = Some (r ++ x)) as IH'.
    { intros s' r' x' H Hne. by apply IH. }
    destruct (Ascii.eqb c "{").
    { destruct (object (value n) t) as [[l r']|] eqn:Ho; [|done].
      intros [= <-] _.
      by rewrite (object_app _ (value_nil n) (value_length n) IH' _ _ _ x Ho). }
    destruct (Ascii.eqb c "[").
    { destruct (array (value n) t) as [[l r']|] eqn:Ho; [|done].
      intros [= <-] _.
      by rewrite (array_app _ (value_nil n) (value_length n) IH' _ _ _ x Ho). }
    destruct (Ascii.eqb c dquote). { intros H _. by apply string_rest_app. }
    destruct (_ || _). { apply (number_app (c :: t)). }
    destruct (Ascii.eqb c "t"). { intros H _. by apply strip_prefix_app. }
    destruct (Ascii.eqb c "f"). { intros H _. by apply strip_prefix_app. }
    destruct (Ascii.eqb c "n"). { intros H _. by apply strip_prefix_app. }
    done.
Qed.

(** A deeper budget accepts what a shallower one does. *)
Section Monotone.
Variables v1 v2 : bytes → option bytes.
Hypothesis v_le : ∀ s r, v1 s = Some r → v2 s = Some r.

Lemma elements_mono f s res : elements v1 f s = Some res → elements v2 f s = Some res.
Proof.
  revert s res. induction f as [|f IH]; intros s res; [done|]. cbn [elements].
  destruct (v1 (skip_space s)) as [r1|] eqn:Hv; [|done]. rewrite (v_le _ _ Hv).
  destruct (skip_space r1) as [|c r']; [done|].
  destruct (Ascii.eqb c ","); [|done].
  destruct (elements v1 f r') as [[l' r'']|] eqn:He; [|done].
  by rewrite (IH _ _ He).
Qed.

Lemma members_mono f s res : members v1 f s = Some res → members v2 f s = Some res.
Proof.
  revert s res. induction f as [|f IH]; intros s res; [done|]. cbn [members].
  destruct (skip_space s) as [|q s1]; [done|].
  destruct (Ascii.eqb q dquote); [|done].
  destruct (string_rest s1) as [r1|]; [|done].
  destruct (skip_space r1) as [|c r2]; [done|].
  destruct (Ascii.eqb c ":"); [|done].
  destruct (v1 (skip_space r2)) as [r3|] eqn:Hv; [|done]. rewrite (v_le _ _ Hv).
  destruct (skip_space r3) as [|d r4]; [done|].
  destruct (Ascii.eqb d ","); [|done].
  destruct (members v1 f r4) as [[l' r5]|] eqn:He; [|done].
  by rewrite (IH _ _ He).
Qed.

Lemma array_mono s res : array v1 s = Some res → array v2 s = Some res.
Proof.
  unfold array. destruct (skip_space s) as [|c r0]; [done|].
  destruct (Ascii.eqb c "]"); [done|]. apply elements_mono.
Qed.

Lemma object_mono s res : object v1 s = Some res → object v2 s = Some res.
Proof.
  unfold object. destruct (skip_space s) as [|c r0]; [done|].
  destruct (Ascii.eqb c "}"); [done|]. apply members_mono.
Qed.

End Monotone.

Lemma value_mono n m s r : n ≤ m → value n s = Some r → value m s = Some r.
Proof.
  revert m s r. induction n as [|n IH]; intros m [|c t] r Hle; try done.
  - destruct m as [|m]; [done|]. cbn [value].
    destruct (Ascii.eqb c "{"); [done|]. by destruct (Ascii.eqb c "[").
  - destruct m as [|m]; [lia|]. cbn [value].
    assert (∀ s r, value n s = Some r → value m s = Some r) as IH'.
    { intros s' r'. apply IH. lia. }
    destruct (Ascii.eqb c "{").
    { destruct (object (value n) t) as [[l r']|] eqn:Ho; [|done].
      by rewrite (object_mono _ _ IH' _ _ Ho). }
    destruct (Ascii.eqb c "["); [|done].
    destruct (array (value n) t) as [[l r']|] eqn:Ho; [|done].
    by rewrite (array_mono _ _ IH' _ _ Ho).
Qed.

(** ** UTF-8 *)

Lemma in_range_true lo hi c : in_range lo hi c = true → (lo ≤ code c ≤ hi)%N.
Proof. unfold in_range. rewrite andb_true_iff, !N.leb_le. tauto. Qed.

Lemma rune_size_inv s n :
  rune_size s = Some n →
  match n with
  | 1 => ∃ c t, s = c :: t ∧ (code c < 128)%N
  | 2 => ∃ c0 c1 t, s = c0 :: c1 :: t ∧ (128 ≤ code c0)%N ∧ (128 ≤ code c1)%N
                    ∧ ∀ t', rune_size (c0 :: c1 :: t') = Some 2
  | 3 => ∃ c0 c1 c2 t, s = c0 :: c1 :: c2 :: t
                    ∧ (128 ≤ code c0)%N ∧ (128 ≤ code c1)%N ∧ (128 ≤ code c2)%N
                    ∧ ∀ t', rune_size (c0 :: c1 :: c2 :: t') = Some 3
  | 4 => ∃ c0 c1 c2 c3 t, s = c0 :: c1 :: c2 :: c3 :: t
                    ∧ (128 ≤ code c0)%N ∧ (128 ≤ code c1)%N ∧ (128 ≤ code c2)%N
                    ∧ (128 ≤ code c3)%N
                    ∧ ∀ t', rune_size (c0 :: c1 :: c2 :: c3 :: t') = Some 4
  | _ => False
  end.
Proof.
  destruct s as [|c0 t]; [done|]. unfold rune_size.
  destruct (N.ltb_spec (code c0) 0x80). { intros [= <-]. eauto. }
  destruct (N.ltb_spec (code c0) 0xC2); [done|].
  destruct (N.ltb_spec (code c0) 0xE0).
  { destruct t as [|c1 t]; [done|]. destruct (in_range _ _ c1) eqn:E1; [|done].
    intros [= <-]. apply in_range_true in E1. exists c0, c1, t.
    repeat split; [lia..|]. intros t'. unfold rune_size.
    destruct (N.ltb_spec (code c0) 0x80); [lia|].
    destruct (N.ltb_spec (code c0) 0xC2); [lia|].
    destruct (N.ltb_spec (code c0) 0xE0); [|lia].
    destruct (in_range _ _ c1) eqn:E1'; [done|]. unfold in_range in E1'.
    rewrite andb_false_iff, !N.leb_gt in E1'. lia. }
  destruct (N.ltb_spec (code c0) 0xF0).
  { destruct t as [|c1 [|c2 t]]; [done..|].
    destruct (in_range _ _ c1 && in_range _ _ c2) eqn:E; [|done].
    intros [= <-]. exists c0, c1, c2, t.
    pose proof E as E'. apply andb_true_iff in E' as [E1 E2].
    apply in_range_true in E1, E2.
    assert (128 ≤ code c1)%N by (repeat case_match; lia).
    repeat split; [lia..|]. intros t'. unfold rune_size.
    destruct (N.ltb_spec (code c0) 0x80); [lia|].
    destruct (N.ltb_spec (code c0) 0xC2); [lia|].
    destruct (N.ltb_spec (code c0) 0xE0); [lia|].
    destruct (N.ltb_spec (code c0) 0xF0); [|lia]. by rewrite E. }
  destruct (N.ltb_spec (code c0) 0xF5); [|done].
  destruct t as [|c1 [|c2 [|c3 t]]]; [done..|].
  destruct (in_range _ _ c1 && in_range _ _ c2 && in_range _ _ c3) eqn:E; [|done].
  intros [= <-]. exists c0, c1, c2, c3, t.
  pose proof E as E'. apply andb_true_iff in E' as [E' E3].
  apply andb_true_iff in E' as [E1 E2].
  apply in_range_true in E1, E2, E3.
  assert (128 ≤ code c1)%N by (repeat case_match; lia).
  repeat split; [lia..|]. intros t'. unfold rune_size.
  destruct (N.ltb_spec (code c0) 0x80); [lia|].
  destruct (N.ltb_spec (code c0) 0xC2); [lia|].
  destruct (N.ltb_spec (code c0) 0xE0); [lia|].
  destruct (N.ltb_spec (code c0) 0xF0); [lia|].
  destruct (N.ltb_spec (code c0) 0xF5); [|lia]. by rewrite E.
Qed.

(** ** String literals *)

Lemma string_rest_high c y : (128 ≤ code c)%N → string_rest (c :: y) = string_rest y.
Proof.
  intros H. cbn [string_rest].
  destruct (Ascii.eqb_spec c dquote) as [->|_]; [vm_compute in H; done|].
  destruct (Ascii.eqb_spec c backslash) as [->|_]; [vm_compute in H; done|].
  destruct (N.ltb_spec (code c) 32); [lia|done].
Qed.

Lemma string_rest_quote_ascii c y : string_rest (quote_ascii c ++ y) = string_rest y.
Proof. destruct c as [[] [] [] [] [] [] [] []]; reflexivity. Qed.

Lemma string_rest_u202 c y : string_rest (u202 c ++ y) = string_rest y.
Proof. destruct c as [[] [] [] [] [] [] [] []]; reflexivity. Qed.

Lemma string_rest_quote_body k r : string_rest (quote_body k ++ dquote :: r) = Some r.
Proof.
  remember (length k) as n eqn:Hn. revert k Hn.
  induction n as [n IH] using lt_wf_ind. intros [|s0 t] Hn; [done|].
  cbn [quote_body].
  destruct (rune_size (s0 :: t)) as [[|[|[|[|[|m]]]]]|] eqn:Hr;
    try (apply rune_size_inv in Hr; done).
  - rewrite <- app_assoc, string_rest_quote_ascii.
    apply (IH (length t)); [subst n; simpl; lia|done].
  - apply rune_size_inv in Hr as (c0 & c1 & t' & [= -> ->] & H0 & H1 & _).
    cbn [app]. rewrite !string_rest_high by done.
    apply (IH (length t')); [subst n; simpl; lia|done].
  - apply rune_size_inv in Hr as (c0 & c1 & c2 & t' & [= -> ->] & H0 & H1 & H2 & _).
    rewrite <- app_assoc. destruct (is_line_sep c0 c1 c2).
    + rewrite string_rest_u202. apply (IH (length t')); [subst n; simpl; lia|done].
    + cbn [app]. rewrite !string_rest_high by done.
      apply (IH (length t')); [subst n; simpl; lia|done].
  - apply rune_size_inv in Hr as (c0 & c1 & c2 & c3 & t' & [= -> ->] & H0 & H1 & H2 & H3 & _).
    cbn [app]. rewrite !string_rest_high by done.
    apply (IH (length t')); [subst n; simpl; lia|done].
  - rewrite <- app_assoc. change (string_rest (quote_body t ++ dquote :: r) = Some r).
    apply (IH (length t)); [subst n; simpl; lia|done].
Qed.

Lemma string_rest_quote k r : string_rest (quote_body k ++ [dquote] ++ r) = Some r.
Proof. apply string_rest_quote_body. Qed.

Lemma unquote_body_quote_ascii c y :
  (code c < 128)%N → unquote_body (quote_ascii c ++ y) = cons c <$> unquote_body y.
Proof.
  destruct c as [[] [] [] [] [] [] [] []]; intros H;
    first [by vm_compute in H | by destruct (unquote_body y) eqn:E; cbn; rewrite ?E].
Qed.

Lemma code_inj c n : code c = n → c = byte n.
Proof. intros <-. unfold byte, code. by rewrite ascii_N_embedding. Qed.

Lemma unquote_body_high c y :
  (128 ≤ code c)%N →
  unquote_body (c :: y) =
    match rune_size (c :: y) with
    | Some 1 => cons c <$> unquote_body y
    | Some 2 =>
        match y with
        | s1 :: t' => (fun r => c :: s1 :: r) <$> unquote_body t'
        | _ => None
        end
    | Some 3 =>
        match y with
        | s1 :: s2 :: t' => (fun r => c :: s1 :: s2 :: r) <$> unquote_body t'
        | _ => None
        end
    | Some 4 =>
        match y with
        | s1 :: s2 :: s3 :: t' => (fun r => c :: s1 :: s2 :: s3 :: r) <$> unquote_body t'
        | _ => None
        end
    | _ => app (EncodeRune RuneError) <$> unquote_body y
    end.
Proof.
  intros H. cbn [unquote_body].
  destruct (Ascii.eqb_spec c dquote) as [->|_]; [vm_compute in H; done|].
  destruct (Ascii.eqb_spec c backslash) as [->|_]; [vm_compute in H; done|].
  destruct (N.ltb_spec (code c) 32); [lia|done].
Qed.

Lemma unquote_body_u202 c0 c1 c2 y :
  is_line_sep c0 c1 c2 = true →
  unquote_body (u202 c2 ++ y) = (fun r => c0 :: c1 :: c2 :: r) <$> unquote_body y.
Proof.
  unfold is_line_sep. rewrite !andb_true_iff, orb_true_iff, !N.eqb_eq.
  intros [[->%code_inj ->%code_inj] [->%code_inj| ->%code_inj]];
    by destruct (unquote_body y) eqn:E; cbn; rewrite ?E.
Qed.

Lemma unquote_body_quote_body k :
  utf8_valid k = true → unquote_body (quote_body k ++ [dquote]) = Some k.
Proof.
  remember (length k) as n eqn:Hn. revert k Hn.
  induction n as [n IH] using lt_wf_ind. intros [|s0 t] Hn; [done|].
  cbn [quote_body utf8_valid].
  destruct (rune_size (s0 :: t)) as [[|[|[|[|[|m]]]]]|] eqn:Hr; try done.
  - intros Hv. apply rune_size_inv in Hr as (c & t' & [= -> ->] & H0).
    rewrite <- app_assoc, unquote_body_quote_ascii by done.
    by rewrite (IH (length t')); [|subst n; simpl; lia|done|done].
  - apply rune_size_inv in Hr as (c0 & c1 & t' & [= -> ->] & H0 & H1 & Hs).
    intros Hv. cbn [app]. rewrite unquote_body_high, Hs by done.
    by rewrite (IH (length t')); [|subst n; simpl; lia|done|done].
  - apply rune_size_inv in Hr as (c0 & c1 & c2 & t' & [= -> ->] & H0 & H1 & H2 & Hs).
    intros Hv. rewrite <- app_assoc. destruct (is_line_sep c0 c1 c2) eqn:Hsep.
    + rewrite (unquote_body_u202 c0 c1 c2) by done.
      by rewrite (IH (length t')); [|subst n; simpl; lia|done|done].
    + cbn [app]. rewrite unquote_body_high, Hs by done.
      by rewrite (IH (length t')); [|subst n; simpl; lia|done|done].
  - apply rune_size_inv in Hr as (c0 & c1 & c2 & c3 & t' & [= -> ->] & H0 & H1 & H2 & H3 & Hs).
    intros Hv. cbn [app]. rewrite unquote_body_high, Hs by done.
    by rewrite (IH (length t')); [|subst n; simpl; lia|done|done].
Qed.

Lemma unquote_quote k : utf8_valid k = true → unquote (quote k) = Some k.
Proof.
  intros H. unfold unquote, quote. rewrite Ascii.eqb_refl.
  by apply unquote_body_quote_body.
Qed.

(** ** Export: the text written *)

Lemma encode_member_valid kv :
  valid (RawMessage_MarshalJSON kv.2) = true → encode_member kv = (member_text kv, None).
Proof. intros H. unfold encode_member, compact. by rewrite H. Qed.

Lemma encode_members_valid l first :
  Forall (fun kv => valid (RawMessage_MarshalJSON kv.2) = true) l →
  encode_members first l =
    ((if first then [] else match l with [] => [] | _ => B "," end)
       ++ join_comma (map member_text l), None).
Proof.
  intros H. revert first. induction H as [|kv l Hkv Hl IH]; intros first.
  - by destruct first.
  - cbn [encode_members]. rewrite (encode_member_valid _ Hkv), (IH false).
    f_equal. f_equal. destruct l as [|kv' l]; [simpl; by rewrite app_nil_r|].
    simpl. by rewrite <- !app_assoc.
Qed.

Lemma Marshal_map_valid (out : gmap bytes RawMessage) :
  (∀ k v, out !! k = Some v → valid (RawMessage_MarshalJSON v) = true) →
  Marshal_map out =
    (B "{" ++ join_comma (map member_text (merge_sort key_le (map_to_list out))) ++ B "}", None).
Proof.
  intros H. unfold Marshal_map. rewrite encode_members_valid; [done|].
  apply Forall_forall. intros [k v] Hin. apply (H k).
  rewrite merge_sort_Permutation in Hin. by apply elem_of_map_to_list.
Qed.



(** ** Import: reading back what was written *)

Lemma value_head n c t r : value n (c :: t) = Some r → is_space c = false.
Proof.
  intros H. destruct (is_space c) eqn:E; [|done]. exfalso. revert H.
  unfold is_space in E. rewrite !orb_true_iff, !N.eqb_eq in E.
  destruct E as [[[E|E]|E]|E]; apply code_inj in E; subst c; by destruct n.
Qed.

Lemma canonical_inv v :
  canonical v = true →
  value innerNestingDepth v = Some [] ∧ strip Outside v = v.
Proof.
  unfold canonical. rewrite andb_true_iff, !bool_decide_eq_true. tauto.
Qed.

Lemma value_valid n v : n ≤ maxNestingDepth → value n v = Some [] → valid v = true.
Proof.
  intros Hn H. unfold valid. destruct v as [|c t]; [by rewrite value_nil in H|].
  rewrite (skip_space_head c t (value_head _ _ _ _ H)).
  by rewrite (value_mono _ _ _ _ Hn H).
Qed.

Lemma inner_le_max : innerNestingDepth ≤ maxNestingDepth.
Proof. unfold maxNestingDepth. lia. Qed.

Lemma canonical_valid v : canonical v = true → valid v = true.
Proof. intros [H _]%canonical_inv. exact (value_valid _ _ inner_le_max H). Qed.

Lemma join_comma_cons x l :
  join_comma (x :: l) = x ++ match l with [] => [] | _ => B "," ++ join_comma l end.
Proof. destruct l; simpl; [by rewrite app_nil_r|done]. Qed.

Lemma consumed_snoc (x : bytes) c r : consumed (x ++ c :: r) r = x ++ [c].
Proof. rewrite (cons_middle c x r), app_assoc. apply consumed_app. Qed.

Lemma quote_head k : ∃ y, quote k = dquote :: y.
Proof. unfold quote. eauto. Qed.

Section ReadBack.
Variable n : nat.

Lemma members_written l f rest :
  l ≠ [] → length l ≤ f →
  Forall (fun kv => value n kv.2 = Some []) l →
  members (value n) f (join_comma (map written l) ++ B "}" ++ rest) = Some (map seen l, rest).
Proof.
  intros Hne Hf Hl. revert f Hf Hne.
  induction Hl as [|[k v] l Hv Hl IH]; intros f Hf Hne; [done|].
  destruct f as [|f]; [simpl in Hf; lia|]. simpl in Hf.
  set (tail := match l with
               | [] => B "}" ++ rest
               | _ => B "," ++ join_comma (map written l) ++ B "}" ++ rest
               end).
  assert (join_comma (map written ((k, v) :: l)) ++ B "}" ++ rest
          = dquote :: (quote_body k ++ [dquote] ++ B ":" ++ v ++ tail)) as ->.
  { subst tail. rewrite map_cons, join_comma_cons. unfold written at 1, quote. cbn [fst snd].
    destruct l as [|kv' l]; cbn [map]; rewrite <- ?app_assoc;
      cbn [B list_ascii_of_string app]; rewrite <- ?app_assoc; reflexivity. }
  assert (∃ d tl, tail = d :: tl ∧ is_space d = false ∧ delimited tail = true
                  ∧ ((l = [] ∧ d = "}"%char ∧ tl = rest)
                     ∨ (l ≠ [] ∧ d = ","%char ∧ tl = join_comma (map written l) ++ B "}" ++ rest)))
    as (d & tl & Htail & Hd & Hdel & Hcase).
  { subst tail. destruct l as [|kv' l].
    - exists "}"%char, rest. split_and!; [done..|by left].
    - exists ","%char, (join_comma (map written (kv' :: l)) ++ B "}" ++ rest).
      split_and!; [done..|by right]. }
  simpl in Hv. destruct v as [|c vt] eqn:Ev; [by rewrite value_nil in Hv|]. rewrite <- Ev in *.
  assert (skip_space (v ++ tail) = v ++ tail) as Hsv.
  { pose proof Hv as Hv'. rewrite Ev in Hv' |- *. cbn [app].
    apply skip_space_head. exact (value_head n c vt [] Hv'). }
  cbn [members]. rewrite skip_space_head by done. rewrite Ascii.eqb_refl.
  rewrite string_rest_quote.
  change (B ":" ++ v ++ tail) with (":"%char :: (v ++ tail)).
  rewrite (skip_space_head ":"%char) by done. rewrite Ascii.eqb_refl.
  rewrite Hsv.
  rewrite (value_app n v [] tail Hv (fun _ => Hdel)). cbn [app].
  rewrite (consumed_app v tail).
  rewrite consumed_snoc.
  rewrite Htail, (skip_space_head d tl Hd).
  destruct Hcase as [(-> & -> & ->)|(Hl' & -> & ->)].
  - reflexivity.
  - cbn [Ascii.eqb]. change (Ascii.eqb "," ",") with true. cbv iota.
    rewrite (IH f) by (done || lia). reflexivity.
Qed.

End ReadBack.

Lemma written_length (l : list (bytes * bytes)) : length l ≤ length (join_comma (map written l)).
Proof.
  induction l as [|kv l IH]; [done|]. rewrite map_cons, join_comma_cons, length_app.
  assert (1 ≤ length (written kv)) by (unfold written, quote; simpl; lia).
  destruct l as [|kv' l]; [simpl; lia|].
  rewrite map_cons in *. cbv iota. rewrite length_app. simpl in *. lia.
Qed.

Lemma object_written n (l : list (bytes * bytes)) rest :
  Forall (fun kv => value n kv.2 = Some []) l →
  object (value n) (join_comma (map written l) ++ B "}" ++ rest) = Some (map seen l, rest).
Proof.
  intros Hl. unfold object. destruct l as [|kv l]; [done|].
  assert (∃ y, join_comma (map written (kv :: l)) ++ B "}" ++ rest = dquote :: y) as [y Hy].
  { rewrite map_cons, join_comma_cons. unfold written at 1, quote. cbn [app]. eauto. }
  rewrite Hy, (skip_space_head dquote y) by done.
  change (Ascii.eqb dquote "}") with false. cbv iota. rewrite <- Hy.
  apply members_written; [done| |done].
  rewrite length_app. pose proof (written_length (kv :: l)). lia.
Qed.

Lemma store_members_seen (l : list (bytes * bytes)) (m : gmap bytes RawMessage) :
  Forall (fun kv => utf8_valid kv.1 = true) l →
  store_members (map seen l) m = (foldl (fun m kv => <[kv.1 := Some kv.2]> m) m l, None).
Proof.
  intros H. revert m. induction H as [|[k v] l Hk Hl IH]; intros m; [done|].
  cbn [map seen store_members fst snd foldl]. by rewrite (unquote_quote k Hk), IH.
Qed.

Lemma value_object n t : value (S n) ("{"%char :: t) = snd <$> object (value n) t.
Proof. reflexivity. Qed.

Lemma valid_intro data r :
  value maxNestingDepth (skip_space data) = Some r → skip_space r = [] → valid data = true.
Proof. intros H1 H2. unfold valid. rewrite H1. by apply bool_decide_eq_true_2. Qed.

Lemma Unmarshal_map_object data t l r :
  valid data = true → skip_space data = "{"%char :: t →
  object (value innerNestingDepth) t = Some (l, r) →
  Unmarshal_map data = store_members l ∅.
Proof.
  intros H1 H2 H3. unfold Unmarshal_map. rewrite H1, H2.
  change (Ascii.eqb "{" "{") with true. cbv iota. by rewrite H3.
Qed.

Lemma Unmarshal_written (l : list (bytes * bytes)) :
  Forall (fun kv => utf8_valid kv.1 = true ∧ value innerNestingDepth kv.2 = Some []) l →
  Unmarshal_map ("{"%char :: join_comma (map written l) ++ B "}")
  = (foldl (fun m kv => <[kv.1 := Some kv.2]> m) ∅ l, None).
Proof.
  intros H.
  assert (Forall (fun kv => value innerNestingDepth kv.2 = Some []) l) as Hv
    by (eapply Forall_impl; [exact H|]; by intros ? [? ?]).
  assert (Forall (fun kv => utf8_valid kv.1 = true) l) as Hk
    by (eapply Forall_impl; [exact H|]; by intros ? [? ?]).
  pose proof (object_written innerNestingDepth l [] Hv) as Ho.
  rewrite (app_nil_r (B "}")) in Ho.
  rewrite (Unmarshal_map_object _ (join_comma (map written l) ++ B "}") (map seen l) []).
  - by apply store_members_seen.
  - apply (valid_intro _ []); [|done].
    rewrite skip_space_head by done. unfold maxNestingDepth.
    rewrite value_object. by rewrite Ho.
  - by apply skip_space_head.
  - exact Ho.
Qed.

(** ** Maps built by assignment in a loop *)

Lemma foldl_insert_list_to_map {A V} (key : A → bytes) (val : A → V) (l : list A) :
  foldl (fun acc x => <[key x := val x]> acc) (∅ : gmap bytes V) l
  = list_to_map (rev (map (fun x => (key x, val x)) l)).
Proof.
  induction l as [|x l IH] using rev_ind; [reflexivity|].
  rewrite foldl_app, map_app, rev_app_distr, IH. reflexivity.
Qed.

Lemma foldl_insert_perm {A V} (key : A → bytes) (val : A → V) (l : list A) (m : gmap bytes V) :
  map (fun x => (key x, val x)) l ≡ₚ map_to_list m →
  foldl (fun acc x => <[key x := val x]> acc) ∅ l = m.
Proof.
  intros Hp. rewrite foldl_insert_list_to_map.
  assert (rev (map (fun x => (key x, val x)) l) ≡ₚ map_to_list m) as Hp'.
  { rewrite <- Hp. symmetry. apply Permutation_rev. }
  transitivity (list_to_map (map_to_list m) : gmap bytes V); [|apply list_to_map_to_list].
  apply list_to_map_proper; [|exact Hp'].
  rewrite Hp'. apply NoDup_fst_map_to_list.
Qed.

(** ** Export and import together *)

Lemma member_text_written (kv : bytes * RawMessage) b :
  kv.2 = Some b → strip Outside b = b → member_text kv = written (unwrap kv).
Proof.
  destruct kv as [k v]. simpl. intros -> H. unfold member_text, written. simpl. by rewrite H.
Qed.

Lemma map_member_text_written (l : list (bytes * RawMessage)) :
  Forall (fun kv => ∃ b, kv.2 = Some b ∧ strip Outside b = b) l →
  map member_text l = map written (map unwrap l).
Proof.
  induction 1 as [|kv l (b & H1 & H2) Hl IH]; [done|].
  cbn [map]. by rewrite IH, (member_text_written kv b).
Qed.

Lemma map_wrap_unwrap (l : list (bytes * RawMessage)) :
  Forall (fun kv => ∃ b, kv.2 = Some b) l →
  map (fun x : bytes * bytes => (x.1, Some x.2)) (map unwrap l) = l.
Proof.
  induction 1 as [|[k v] l (b & H1) Hl IH]; [done|].
  simpl in H1. subst v. cbn [map]. by rewrite IH.
Qed.

Section RoundTrip.
Variable out : gmap bytes RawMessage.
Hypothesis out_ok :
  ∀ k v, out !! k = Some v → utf8_valid k = true ∧ ∃ b, v = Some b ∧ canonical b = true.

Lemma sorted_entries_ok :
  Forall (fun kv : bytes * RawMessage =>
            utf8_valid kv.1 = true ∧ ∃ b, kv.2 = Some b ∧ canonical b = true)
         (merge_sort key_le (map_to_list out)).
Proof.
  apply Forall_forall. intros [k v] Hin.
  rewrite merge_sort_Permutation in Hin. apply elem_of_map_to_list in Hin.
  by apply out_ok.
Qed.

Lemma Marshal_map_canonical :
  Marshal_map out =
    ("{"%char :: join_comma (map written (map unwrap (merge_sort key_le (map_to_list out))))
       ++ B "}", None).
Proof.
  rewrite Marshal_map_valid.
  - rewrite map_member_text_written; [done|].
    eapply Forall_impl; [apply sorted_entries_ok|].
    intros kv (_ & b & Hb & [_ Hc]%canonical_inv). eauto.
  - intros k v Hk. destruct (out_ok k v Hk) as (_ & b & -> & Hc). by apply canonical_valid.
Qed.

Lemma Unmarshal_Marshal_map :
  ∃ data, Marshal_map out = (data, None) ∧ Unmarshal_map data = (out, None).
Proof.
  eexists. split; [apply Marshal_map_canonical|].
  rewrite Unmarshal_written.
  - f_equal. apply (foldl_insert_perm fst (fun x => Some x.2)).
    rewrite map_wrap_unwrap; [apply merge_sort_Permutation|].
    eapply Forall_impl; [apply sorted_entries_ok|]. intros kv (_ & b & Hb & _). eauto.
  - apply Forall_map. eapply Forall_impl; [apply sorted_entries_ok|].
    intros [k v] (Hk & b & Hb & [Hc _]%canonical_inv). cbn [fst snd] in *. subst v. by split.
Qed.

End RoundTrip.

Lemma memDB_collect (db : memDB) :
  collect (map (fun kv : bytes * bytes => {| Key := kv.1; Val := Some kv.2 |})
             (map_to_list (cells db))) = Some <$> cells db.
Proof.
  unfold collect. apply (foldl_insert_perm Key Val).
  rewrite map_map. cbn [Key Val]. rewrite map_to_list_fmap. reflexivity.
Qed.

Lemma memDB_restore_cells (range : gmap bytes RawMessage → list (bytes * RawMessage))
    (m : gmap bytes bytes) :
  (∀ m, range m ≡ₚ map_to_list m) →
  foldl (fun acc kv => <[Key kv := default [] (Val kv)]> acc) ∅
        (map to_KV (range (Some <$> m))) = m.
Proof.
  intros Hr. apply (foldl_insert_perm Key (fun kv => default [] (Val kv))).
  rewrite map_map. cbn [Key Val to_KV]. rewrite (Hr (Some <$> m)), map_to_list_fmap.
  assert (∀ l : list (bytes * bytes),
            map (fun x : bytes * RawMessage => (x.1, default [] x.2)) (prod_map id Some <$> l) = l)
    as ->; [|done].
  induction l as [|[k v] l IH]; [done|]. cbn. by rewrite IH.
Qed.

Lemma snapshot_safe_lookup (m : gmap bytes bytes) k v :
  snapshot_safe m = true → m !! k = Some v → utf8_valid k = true ∧ canonical v = true.
Proof.
  unfold snapshot_safe. rewrite forallb_forall. intros H Hk.
  apply elem_of_map_to_list, list_elem_of_In, H in Hk.
  by apply andb_true_iff in Hk.
Qed.

(** C3 (amended). A keyspace whose keys are valid UTF-8 and whose values
    are canonical JSON (one value, no space between its tokens, [<], [>],
    [&], U+2028 and U+2029 escaped, brackets at most 9999 deep) survives
    export and import: [DumpJson] succeeds, [RestoreJson] of what it wrote
    into a store with an empty keyspace succeeds, whatever the order in
    which the parsed object is listed, and the keyspace afterwards is the
    keyspace exported. The empty keyspace is one of these. *)
Theorem snapshot_round_trip :
  ∀ (range : gmap bytes RawMessage → list (bytes * RawMessage)) (db fresh : memDB),
    (∀ m, range m ≡ₚ map_to_list m) →
    cells fresh = ∅ →
    snapshot_safe (cells db) = true →
    ∃ (data : Buffer) (restored : memDB),
      DumpJson db ([] : Buffer) = (None, db, data)
      ∧ RestoreJson range fresh data = (None, restored, ([] : Buffer))
      ∧ cells restored = cells db.
Proof.
  intros range db fresh Hr Hfresh Hsafe.
  assert (∀ k v, (Some <$> cells db) !! k = Some v →
            utf8_valid k = true ∧ ∃ b, v = Some b ∧ canonical b = true) as Hok.
  { intros k v. rewrite lookup_fmap. destruct (cells db !! k) as [b|] eqn:Hk; [|done].
    intros [= <-]. destruct (snapshot_safe_lookup _ _ _ Hsafe Hk). eauto. }
  destruct (Unmarshal_Marshal_map _ Hok) as (data & HM & HU).
  exists data. eexists. split; [|split].
  - unfold DumpJson. cbn [Dump memDB_DB]. rewrite memDB_collect, HM. reflexivity.
  - assert (ReadAll (data : Buffer) = ((data, None), ([] : Buffer))) as Hread by reflexivity.
    rewrite (RestoreJson_parsed range fresh _ _ _ _ Hread HU).
    cbn [Do memDB_DB]. rewrite memDB_replay. reflexivity.
  - cbn [cells log]. rewrite Hfresh. by apply memDB_restore_cells.
Qed.

Lemma snapshot_round_trip_witness :
  (∃ (data : Buffer) (restored : memDB),
      DumpJson db_good ([] : Buffer) = (None, db_good, data)
      ∧ RestoreJson (fun m => map_to_list m) empty_db data = (None, restored, ([] : Buffer))
      ∧ cells restored = cells db_good)
  ∧ (∃ (data : Buffer) (restored : memDB),
      DumpJson empty_db ([] : Buffer) = (None, empty_db, data)
      ∧ RestoreJson (fun m => map_to_list m) empty_db data = (None, restored, ([] : Buffer))
      ∧ cells restored = cells empty_db).
Proof.
  split.
  - apply (snapshot_round_trip (fun m => map_to_list m) db_good empty_db);
      [reflexivity|reflexivity|vm_compute; reflexivity].
  - apply (snapshot_round_trip (fun m => map_to_list m) empty_db empty_db);
      [reflexivity|reflexivity|vm_compute; reflexivity].
Defined.

(** C3 as stated fails: a value that is not JSON is not exported at all; a
    value with a space between its tokens comes back without the space; a
    key that is not UTF-8 comes back as U+FFFD; a value whose brackets nest
    10000 deep is exported but the snapshot is refused on import. *)
Lemma snapshot_round_trip_counterexample :
  (let '(e1, e2, restored) := round_trip db_bad in
   e1 ≠ None ∧ cells restored !! B "k" = None ∧ cells db_bad !! B "k" = Some (B "x"))
  ∧ (let '(e1, e2, restored) := round_trip db_spaced in
     e1 = None ∧ e2 = None
     ∧ cells restored !! B "k" = Some (B "[1,2]")
     ∧ cells db_spaced !! B "k" = Some (B "[1, 2]"))
  ∧ (let '(e1, e2, restored) := round_trip db_key in
     e1 = None ∧ e2 = None
     ∧ cells restored !! [byte 255] = None
     ∧ cells restored !! [byte 239; byte 191; byte 189] = Some (B "1")
     ∧ cells db_key !! [byte 255] = Some (B "1"))
  ∧ (let '(e1, e2, restored) := round_trip db_deep in
     e1 = None ∧ e2 ≠ None ∧ cells restored !! B "k" = None
     ∧ is_Some (cells db_deep !! B "k")).
Proof.
  split; [|split; [|split]].
  - vm_compute. by repeat split.
  - vm_compute. by repeat split.
  - vm_compute. by repeat split.
  - assert (round_trip db_deep
            = (None, Some (Errorf "unmarshall dump"
                 (SyntaxError "invalid character or unexpected end of JSON input")),
               {| cells := ∅; history := [] |})) as -> by (vm_compute; reflexivity).
    by repeat split.
Qed.



(** What [DumpJson] writes for the test's keyspace. *)
Example DumpJson_db_good :
  (DumpJson db_good ([] : Buffer)).2
  = B "{" ++ quote (B "k") ++ B ":80,"
      ++ quote (B "key3.0") ++ B ":[444,13,-1,0],"
      ++ quote (B "key3.1") ++ B ":" ++ quote (B "string <sg>") ++ B ","
      ++ quote (B "key3.2") ++ B ":null}".
Proof. vm_compute. reflexivity. Qed.


(** ** Typed values: what the encoders write *)

Lemma value_unfold n c t :
  value n (c :: t) =
    if Ascii.eqb c "{" then
      match n with 0 => None | S n' => snd <$> object (value n') t end
    else if Ascii.eqb c "[" then
      match n with 0 => None | S n' => snd <$> array (value n') t end
    else if Ascii.eqb c dquote then string_rest t
    else if Ascii.eqb c "-" || is_digit c then number (c :: t)
    else if Ascii.eqb c "t" then strip_prefix (B "rue") t
    else if Ascii.eqb c "f" then strip_prefix (B "alse") t
    else if Ascii.eqb c "n" then strip_prefix (B "ull") t
    else None.
Proof. by destruct n. Qed.

Lemma value_number n c t :
  Ascii.eqb c "-" || is_digit c = true → value n (c :: t) = number (c :: t).
Proof.
  rewrite value_unfold.
  destruct c as [[] [] [] [] [] [] [] []]; intros H; try discriminate H; reflexivity.
Qed.

Lemma value_literal n s :
  s = B "true" ∨ s = B "false" ∨ s = B "null" → value n s = Some [].
Proof. intros [->|[->| ->]]; by destruct n. Qed.

Lemma value_quote n k : value n (quote k) = Some [].
Proof.
  unfold quote. rewrite value_unfold. change (Ascii.eqb dquote "{") with false.
  change (Ascii.eqb dquote "[") with false. rewrite Ascii.eqb_refl. cbv iota.
  apply (string_rest_quote_body k []).
Qed.

(** *** Integers *)

Lemma to_uint_normal p : Pos.to_uint p = Decimal.unorm (Pos.to_uint p).
Proof.
  rewrite <- (DecimalPos.Unsigned.to_of (Pos.to_uint p)).
  by rewrite DecimalPos.Unsigned.of_to.
Qed.

Lemma to_uint_head p :
  match Pos.to_uint p with
  | Decimal.Nil | Decimal.D0 _ => False
  | _ => True
  end.
Proof.
  pose proof (to_uint_normal p) as Hn.
  pose proof (DecimalPos.Unsigned.to_uint_nonzero p) as Hz.
  pose proof (DecimalPos.Unsigned.to_uint_nonnil p) as Hnil.
  destruct (Pos.to_uint p) as [|d| | | | | | | | |] eqn:E; try done.
  rewrite DecimalFacts.unorm_D0 in Hn.
  destruct (Decimal.nzhead d) eqn:Hd.
  - apply DecimalFacts.unorm_0 in Hd. rewrite Hd in Hn. by rewrite Hn in Hz.
  - rewrite DecimalFacts.unorm_nzhead in Hn by (by rewrite Hd).
    symmetry in Hn. by apply DecimalFacts.nzhead_nonzero in Hn.
  - rewrite DecimalFacts.unorm_nzhead in Hn by (by rewrite Hd).
    symmetry in Hn. by apply DecimalFacts.nzhead_nonzero in Hn.
  - rewrite DecimalFacts.unorm_nzhead in Hn by (by rewrite Hd).
    symmetry in Hn. by apply DecimalFacts.nzhead_nonzero in Hn.
  - rewrite DecimalFacts.unorm_nzhead in Hn by (by rewrite Hd).
    symmetry in Hn. by apply DecimalFacts.nzhead_nonzero in Hn.
  - rewrite DecimalFacts.unorm_nzhead in Hn by (by rewrite Hd).
    symmetry in Hn. by apply DecimalFacts.nzhead_nonzero in Hn.
  - rewrite DecimalFacts.unorm_nzhead in Hn by (by rewrite Hd).
    symmetry in Hn. by apply DecimalFacts.nzhead_nonzero in Hn.
  - rewrite DecimalFacts.unorm_nzhead in Hn by (by rewrite Hd).
    symmetry in Hn. by apply DecimalFacts.nzhead_nonzero in Hn.
  - rewrite DecimalFacts.unorm_nzhead in Hn by (by rewrite Hd).
    symmetry in Hn. by apply DecimalFacts.nzhead_nonzero in Hn.
  - rewrite DecimalFacts.unorm_nzhead in Hn by (by rewrite Hd).
    symmetry in Hn. by apply DecimalFacts.nzhead_nonzero in Hn.
  - rewrite DecimalFacts.unorm_nzhead in Hn by (by rewrite Hd).
    symmetry in Hn. by apply DecimalFacts.nzhead_nonzero in Hn.
Qed.

Lemma digits_string_of_uint d x :
  digits (B (NilEmpty.string_of_uint d) ++ x) = digits x.
Proof. induction d; simpl; auto. Qed.

(** The text of a positive integer: a digit from 1 to 9, then digits. *)
Lemma number_to_uint p :
  ∃ c t, B (NilZero.string_of_uint (Pos.to_uint p)) = c :: t
         ∧ is_digit c = true ∧ Ascii.eqb c "0" = false ∧ Ascii.eqb c "-" = false
         ∧ digits t = [].
Proof.
  pose proof (to_uint_head p) as H.
  destruct (Pos.to_uint p) as [|d|d|d|d|d|d|d|d|d|d] eqn:E; try done;
    eexists _, (B (NilEmpty.string_of_uint d)); (split; [reflexivity|]);
    repeat split; rewrite <- (app_nil_r (B _)); apply digits_string_of_uint.
Qed.

Lemma number_digits c t :
  is_digit c = true → Ascii.eqb c "0" = false → Ascii.eqb c "-" = false → digits t = [] →
  number (c :: t) = Some [].
Proof.
  intros H1 H2 H3 H4. unfold number, number_int. by rewrite H3, H2, H1, H4.
Qed.

Lemma FormatInt_number z :
  ∃ c t, FormatInt z = c :: t ∧ Ascii.eqb c "-" || is_digit c = true
         ∧ number (c :: t) = Some [].
Proof.
  destruct z as [|p|p].
  - by exists "0"%char, [].
  - destruct (number_to_uint p) as (c & t & E & H1 & H2 & H3 & H4).
    exists c, t. split; [exact E|]. split; [by rewrite H1, orb_true_r|].
    by apply number_digits.
  - destruct (number_to_uint p) as (c & t & E & H1 & H2 & H3 & H4).
    exists "-"%char, (c :: t). split; [unfold FormatInt; simpl; by rewrite <- E|].
    split; [done|].
    pose proof (number_digits c t H1 H2 H3 H4) as Hn. revert Hn.
    unfold number. by rewrite H3.
Qed.

Lemma value_FormatInt n z : value n (FormatInt z) = Some [].
Proof.
  destruct (FormatInt_number z) as (c & t & -> & H1 & H2). by rewrite value_number.
Qed.

Lemma ParseInt_FormatInt z :
  ((- 2 ^ 63 <=? z) && (z <? 2 ^ 63))%Z = true → ParseInt (FormatInt z) = Some z.
Proof.
  intros H. unfold ParseInt, FormatInt, B. rewrite string_of_list_ascii_of_string.
  rewrite NilZero.isi.
  - by rewrite DecimalZ.of_to, H.
  - destruct z; simpl; try done. intros [= E]. by apply DecimalPos.Unsigned.to_uint_nonnil in E.
  - destruct z; simpl; try done. intros [= E]. by apply DecimalPos.Unsigned.to_uint_nonnil in E.
Qed.

(** *** Slices *)

Lemma value_head_bracket n c t r : value n (c :: t) = Some r → Ascii.eqb c "]" = false.
Proof.
  intros H. destruct (Ascii.eqb_spec c "]") as [->|]; [|done]. by destruct n.
Qed.

Lemma elements_written n (l : list bytes) f rest :
  l ≠ [] → length l ≤ f →
  Forall (fun x => value n x = Some []) l →
  elements (value n) f (join_comma l ++ B "]" ++ rest) = Some (l, rest).
Proof.
  intros Hne Hf Hl. revert f Hf Hne.
  induction Hl as [|x l Hx Hl IH]; intros f Hf Hne; [done|].
  destruct f as [|f]; [simpl in Hf; lia|]. simpl in Hf.
  set (tail := match l with
               | [] => B "]" ++ rest
               | _ => B "," ++ join_comma l ++ B "]" ++ rest
               end).
  assert (join_comma (x :: l) ++ B "]" ++ rest = x ++ tail) as ->.
  { subst tail. rewrite join_comma_cons.
    destruct l as [|y l]; rewrite <- ?app_assoc; reflexivity. }
  assert (∃ d tl, tail = d :: tl ∧ is_space d = false ∧ delimited tail = true
                  ∧ ((l = [] ∧ d = "]"%char ∧ tl = rest)
                     ∨ (l ≠ [] ∧ d = ","%char ∧ tl = join_comma l ++ B "]" ++ rest)))
    as (d & tl & Htail & Hd & Hdel & Hcase).
  { subst tail. destruct l as [|y l].
    - exists "]"%char, rest. split_and!; [done..|by left].
    - exists ","%char, (join_comma (y :: l) ++ B "]" ++ rest).
      split_and!; [done..|by right]. }
  destruct x as [|c xt] eqn:Ex; [by rewrite value_nil in Hx|].
  pose proof (value_head _ _ _ _ Hx) as Hc. rewrite <- Ex in *.
  assert (skip_space (x ++ tail) = x ++ tail) as Hsx.
  { rewrite Ex. cbn [app]. by apply skip_space_head. }
  cbn [elements]. rewrite Hsx, (value_app n x [] tail Hx (fun _ => Hdel)). cbn [app].
  rewrite (consumed_app x tail), Htail, (skip_space_head d tl Hd).
  destruct Hcase as [(-> & -> & ->)|(Hl' & -> & ->)].
  - reflexivity.
  - change (Ascii.eqb "," ",") with true. cbv iota.
    rewrite (IH f) by (done || lia). reflexivity.
Qed.

Lemma join_comma_length (l : list bytes) :
  Forall (fun x => x ≠ []) l → length l ≤ length (join_comma l).
Proof.
  induction 1 as [|x l Hx Hl IH]; [done|]. rewrite join_comma_cons, length_app.
  assert (1 ≤ length x) by (destruct x; [done|simpl; lia]).
  destruct l as [|y l]; [simpl; lia|]. rewrite length_app. simpl in *. lia.
Qed.

Lemma array_written n (l : list bytes) rest :
  Forall (fun x => value n x = Some []) l →
  array (value n) (join_comma l ++ B "]" ++ rest) = Some (l, rest).
Proof.
  intros Hl. unfold array. destruct l as [|x l]; [done|].
  assert (∃ c y, join_comma (x :: l) ++ B "]" ++ rest = c :: y
                 ∧ is_space c = false ∧ Ascii.eqb c "]" = false) as (c & y & Hy & Hc & Hb).
  { rewrite join_comma_cons. apply Forall_cons in Hl as [Hx _].
    destruct x as [|c xt]; [by rewrite value_nil in Hx|].
    exists c. eexists. split; [reflexivity|].
    split; [exact (value_head _ _ _ _ Hx)|exact (value_head_bracket _ _ _ _ Hx)]. }
  rewrite Hy, (skip_space_head c y Hc), Hb. rewrite <- Hy.
  apply elements_written; [done| |done].
  rewrite length_app. assert (length (x :: l) ≤ length (join_comma (x :: l))); [|lia].
  apply join_comma_length. eapply Forall_impl; [exact Hl|].
  intros z Hz ->. by rewrite value_nil in Hz.
Qed.

(** *** Every encoding is one JSON value *)

Lemma foldr_max_le (l : list nat) n : foldr Nat.max 0 l ≤ n → Forall (fun x => x ≤ n) l.
Proof. induction l as [|x l IH]; simpl; [constructor|]. intros H. constructor; [lia|apply IH; lia]. Qed.

Lemma value_encode t (v : govalue t) n : nesting t v ≤ n → value n (encode t v) = Some [].
Proof.
  revert v n. induction t as [| | |t IH|t IH]; intros v n Hn; cbn [encode].
  - apply value_literal. destruct v; auto.
  - apply value_FormatInt.
  - apply value_quote.
  - destruct v as [v|]; [by apply IH|]. apply value_literal. auto.
  - destruct v as [l|]; [|apply value_literal; auto].
    cbn [nesting] in Hn. destruct n as [|n]; [lia|].
    change (B "[" ++ ?x) with ("["%char :: x). rewrite value_unfold.
    change (Ascii.eqb "[" "{") with false. change (Ascii.eqb "[" "[") with true. cbv iota.
    pose proof (array_written n (map (encode t) l) []) as Ha.
    rewrite (app_nil_r (B "]")) in Ha. rewrite Ha; [done|].
    apply Forall_map. apply Forall_forall. intros x Hx. apply IH.
    assert (Forall (fun k => k ≤ n) (map (nesting t) l)) as Hall by (apply foldr_max_le; lia).
    rewrite Forall_map, Forall_forall in Hall. by apply Hall.
Qed.

(** *** Decoding an encoding *)

Lemma is_null_head c t : Ascii.eqb c "n" = false → is_null (c :: t) = false.
Proof.
  intros H. apply bool_decide_eq_false_2. intros [= -> _]. by rewrite Ascii.eqb_refl in H.
Qed.

Lemma mapM_map_Some {A C} (f : A → option C) (g : C → A) (l : list C) :
  Forall (fun x => f (g x) = Some x) l → mapM f (map g l) = Some l.
Proof.
  induction 1 as [|x l Hx Hl IH]; [done|]. cbn [map]. cbn. by rewrite Hx, IH.
Qed.

Lemma decode_encode t (v : govalue t) :
  faithful t v = true → nesting t v ≤ maxNestingDepth → decode t (encode t v) = Some v.
Proof.
  revert v. induction t as [| | |t IH|t IH]; intros v Hf Hn; cbn [encode decode].
  - by destruct v.
  - destruct (FormatInt_number v) as (c & tl & E & H1 & H2).
    rewrite E. rewrite is_null_head.
    2:{ destruct c as [[] [] [] [] [] [] [] []]; try discriminate H1; reflexivity. }
    rewrite H1, <- E. by apply ParseInt_FormatInt.
  - unfold quote at 1. rewrite is_null_head by done. by apply unquote_quote.
  - destruct v as [v|]; [|done]. cbn [faithful] in Hf.
    apply andb_true_iff in Hf as [Hf Hnull]. apply negb_true_iff in Hnull.
    rewrite Hnull. by rewrite IH.
  - destruct v as [l|]; [|done].
    change (B "[" ++ ?x) with ("["%char :: x). rewrite is_null_head by done.
    change (Ascii.eqb "[" "[") with true. cbv iota.
    cbn [nesting faithful] in Hn, Hf.
    assert (Forall (fun k => k ≤ maxNestingDepth) (map (nesting t) l)) as Hall
      by (apply foldr_max_le; lia).
    rewrite Forall_map, Forall_forall in Hall.
    pose proof (array_written maxNestingDepth (map (encode t) l) []) as Ha.
    rewrite (app_nil_r (B "]")) in Ha. rewrite Ha.
    + rewrite mapM_map_Some; [done|]. apply Forall_forall. intros x Hx. apply IH.
      * rewrite forallb_forall in Hf. by apply Hf, list_elem_of_In.
      * by apply Hall.
    + apply Forall_map. apply Forall_forall. intros x Hx. apply value_encode. by apply Hall.
Qed.

Lemma Unmarshal_encode t (v : govalue t) :
  faithful t v = true → nesting t v ≤ maxNestingDepth →
  Unmarshal (encode t v) = (v, None).
Proof.
  intros Hf Hn. cbn [Unmarshal go_JsonType].
  pose proof (value_encode t v maxNestingDepth Hn) as Hv.
  assert (skip_space (encode t v) = encode t v) as Hs.
  { destruct (encode t v) as [|c tl]; [done|]. apply skip_space_head.
    exact (value_head _ _ _ _ Hv). }
  rewrite (valid_intro _ [] ltac:(by rewrite Hs) eq_refl), Hs, Hv.
  unfold consumed. cbn [length]. rewrite Nat.sub_0_r, firstn_all.
  by rewrite decode_encode.
Qed.



(** The values of the test's [json] subtest that are of a modelled type. *)
Example json_test_values :
  let rt t (v : govalue t) :=
    (GetJson (govalue t) (B "key2") (SetJson (B "key2") v empty_db).2).1 in
  rt (TPtr TInt) None = (None, None)
  ∧ rt (TPtr TInt) (Some 2%Z) = (Some 2%Z, None)
  ∧ rt TInt 1%Z = (1%Z, None)
  ∧ rt TString (B "string") = (B "string", None)
  ∧ rt TBool true = (true, None)
  ∧ rt TBool false = (false, None)
  ∧ rt (TSlice TInt) (Some [4; 8; 9; 33]%Z) = (Some [4; 8; 9; 33]%Z, None).
Proof. vm_compute. by repeat split. Qed.


(** ** The counter, one transaction at a time *)

Lemma add_int_small (a b : Z) :
  (- 2 ^ 63 ≤ a + b < 2 ^ 63)%Z → add_int a b = (a + b)%Z.
Proof.
  intros H. unfold add_int, wrap_int. rewrite Z.mod_small; lia.
Qed.

(** At the largest [int] the sum wraps to the smallest one, which is what
    the closure then stores. *)
Lemma increment_wraps :
  add_int (2 ^ 63 - 1) 1 = (- 2 ^ 63)%Z
  ∧ cells (Do (increment (B "key5")) db_max).2 !! B "key5" = Some (B "-9223372036854775808").
Proof. vm_compute. by split. Qed.

Lemma increment_step (key : bytes) (db : memDB) (n : Z) :
  (0 ≤ n < 2 ^ 63 - 1)%Z →
  cells db !! key = (if (n =? 0)%Z then None else Some (FormatInt n)) →
  cells (Do (increment key) db).2 !! key = Some (FormatInt (n + 1)).
Proof.
  intros Hn Hcell.
  assert (∃ tx', GetJsonDefault (govalue TInt) key 0%Z (log EvBegin db) = ((n, None), tx')
                 ∧ cells tx' = cells db) as (tx' & HG & Hc).
  { rewrite GetJsonDefault_cases.
    cbn [Get memDB_Tx log cells]. rewrite Hcell.
    destruct (Z.eqb_spec n 0) as [->|Hne]; [eexists; split; reflexivity|].
    assert (Unmarshal (A:=govalue TInt) (FormatInt n) = (n, None)) as ->.
    { apply (Unmarshal_encode TInt n).
      - cbn [faithful]. apply andb_true_iff. split; [apply Z.leb_le|apply Z.ltb_lt]; lia.
      - cbn [nesting]. lia. }
    eexists; split; reflexivity. }
  cbn [Do memDB_DB]. unfold increment, bind at 1. rewrite HG.
  rewrite (add_int_small n 1) by lia.
  unfold SetJson, bind. cbn [Marshal go_JsonType Set_ memDB_Tx]. unfold ret.
  cbn [log cells snd encode]. apply lookup_insert_eq.
Qed.

(** After [n] transactions run one after the other, each reading the
    counter with default 0 and writing it back incremented, the counter
    holds [n]. (Of the concurrent test, this is the serial order.) *)
Lemma serial_increments (key : bytes) (n : nat) :
  (Z.of_nat n < 2 ^ 63)%Z →
  cells (run_serially n (increment key) empty_db) !! key
  = if (Z.of_nat n =? 0)%Z then None else Some (FormatInt (Z.of_nat n)).
Proof.
  induction n as [|n IH]; intros Hn; [done|].
  cbn [run_serially]. rewrite (increment_step key _ (Z.of_nat n)).
  - destruct (Z.eqb_spec (Z.of_nat (S n)) 0); [lia|]. do 2 f_equal. lia.
  - lia.
  - apply IH. lia.
Qed.

(** ** What [SetJson] writes is canonical *)

Lemma is_line_sep_head c c1 c2 : (code c =? 0xE2)%N = false → is_line_sep c c1 c2 = false.
Proof. intros H. unfold is_line_sep. by rewrite H. Qed.

Lemma strip_cons st c t :
  is_html c = false → (code c =? 0xE2)%N = false →
  strip st (c :: t) =
    (if match st with Outside => is_space c | _ => false end then [] else [c])
      ++ strip (place_step st c) t.
Proof.
  intros H1 H2. cbn [strip]. rewrite H1.
  destruct t as [|c1 [|c2 t']]; rewrite ?(is_line_sep_head c _ _ H2);
    by destruct (match st with Outside => is_space c | _ => false end).
Qed.

Lemma strip_inert s y :
  forallb inert s = true → strip Outside (s ++ y) = s ++ strip Outside y.
Proof.
  induction s as [|c s IH]; [done|]. cbn [forallb app]. rewrite andb_true_iff.
  intros [Hc Hs]. unfold inert in Hc. rewrite !andb_true_iff, !negb_true_iff in Hc.
  destruct Hc as [[[H1 H2] H3] H4]. rewrite strip_cons by done. rewrite H3.
  unfold place_step. rewrite H4. cbn [app]. by rewrite IH.
Qed.

Lemma strip_high c t :
  (128 ≤ code c)%N → (code c =? 0xE2)%N = false →
  strip InString (c :: t) = c :: strip InString t.
Proof.
  intros H1 H2. rewrite strip_cons; [| |done].
  - unfold place_step.
    destruct (Ascii.eqb_spec c dquote) as [->|_]; [vm_compute in H1; done|].
    by destruct (Ascii.eqb_spec c backslash) as [->|_]; [vm_compute in H1; done|].
  - unfold is_html.
    destruct (Ascii.eqb_spec c "<") as [->|_]; [vm_compute in H1; done|].
    destruct (Ascii.eqb_spec c ">") as [->|_]; [vm_compute in H1; done|].
    by destruct (Ascii.eqb_spec c "&") as [->|_]; [vm_compute in H1; done|].
Qed.

Lemma strip_lead3 c0 c1 c2 t :
  (128 ≤ code c0)%N → is_line_sep c0 c1 c2 = false →
  strip InString (c0 :: c1 :: c2 :: t) = c0 :: strip InString (c1 :: c2 :: t).
Proof.
  intros H1 H2. cbn [strip]. rewrite H2.
  assert (is_html c0 = false) as ->.
  { unfold is_html.
    destruct (Ascii.eqb_spec c0 "<") as [->|_]; [vm_compute in H1; done|].
    destruct (Ascii.eqb_spec c0 ">") as [->|_]; [vm_compute in H1; done|].
    by destruct (Ascii.eqb_spec c0 "&") as [->|_]; [vm_compute in H1; done|]. }
  assert (place_step InString c0 = InString) as ->; [|done].
  unfold place_step.
  destruct (Ascii.eqb_spec c0 dquote) as [->|_]; [vm_compute in H1; done|].
  by destruct (Ascii.eqb_spec c0 backslash) as [->|_]; [vm_compute in H1; done|].
Qed.

Lemma rune_size_noE2 s n :
  rune_size s = Some n →
  match n, s with
  | 2, c0 :: c1 :: _ => (code c0 =? 0xE2)%N = false ∧ (code c1 =? 0xE2)%N = false
  | 3, c0 :: c1 :: c2 :: _ => (code c1 =? 0xE2)%N = false ∧ (code c2 =? 0xE2)%N = false
  | 4, c0 :: c1 :: c2 :: c3 :: _ =>
      (code c0 =? 0xE2)%N = false ∧ (code c1 =? 0xE2)%N = false
      ∧ (code c2 =? 0xE2)%N = false ∧ (code c3 =? 0xE2)%N = false
  | _, _ => True
  end.
Proof.
  destruct s as [|c0 t]; [done|]. unfold rune_size.
  destruct (N.ltb_spec (code c0) 0x80). { by intros [= <-]. }
  destruct (N.ltb_spec (code c0) 0xC2); [done|].
  destruct (N.ltb_spec (code c0) 0xE0).
  { destruct t as [|c1 t]; [done|]. destruct (in_range _ _ c1) eqn:E1; [|done].
    intros [= <-]. apply in_range_true in E1. split; apply N.eqb_neq; lia. }
  destruct (N.ltb_spec (code c0) 0xF0).
  { destruct t as [|c1 [|c2 t]]; [done..|].
    destruct (in_range _ _ c1 && in_range _ _ c2) eqn:E; [|done].
    intros [= <-]. apply andb_true_iff in E as [E1 E2].
    apply in_range_true in E1, E2.
    split; apply N.eqb_neq; repeat case_match; lia. }
  destruct (N.ltb_spec (code c0) 0xF5); [|done].
  destruct t as [|c1 [|c2 [|c3 t]]]; [done..|].
  destruct (in_range _ _ c1 && in_range _ _ c2 && in_range _ _ c3) eqn:E; [|done].
  intros [= <-]. apply andb_true_iff in E as [E E3].
  apply andb_true_iff in E as [E1 E2]. apply in_range_true in E1, E2, E3.
  repeat split; apply N.eqb_neq; repeat case_match; lia.
Qed.

Ltac strip_step :=
  rewrite strip_cons by reflexivity;
  match goal with
  | |- context [place_step ?s ?c] =>
      let v := eval vm_compute in (place_step s c) in change (place_step s c) with v
  end;
  cbv iota; cbn [app].

Ltac compute_quoted f :=
  match goal with
  | |- context [f ?c] =>
      let v := eval vm_compute in (f c) in change (f c) with v
  end.

Lemma strip_quote_ascii c y :
  (code c < 128)%N → strip InString (quote_ascii c ++ y) = quote_ascii c ++ strip InString y.
Proof.
  destruct c as [[] [] [] [] [] [] [] []]; intros H; try (by vm_compute in H);
    clear H; compute_quoted quote_ascii; cbn [app]; repeat strip_step; reflexivity.
Qed.

Lemma strip_u202 c y :
  (code c =? 0xA8)%N || (code c =? 0xA9)%N = true →
  strip InString (u202 c ++ y) = u202 c ++ strip InString y.
Proof.
  rewrite orb_true_iff, !N.eqb_eq. intros [->%code_inj| ->%code_inj];
    compute_quoted u202; cbn [app]; repeat strip_step; reflexivity.
Qed.

Lemma strip_ufffd y : strip InString (B "\ufffd" ++ y) = B "\ufffd" ++ strip InString y.
Proof. cbn [B list_ascii_of_string app]. repeat strip_step. reflexivity. Qed.

Lemma strip_quote_body k y :
  strip InString (quote_body k ++ dquote :: y) = quote_body k ++ dquote :: strip Outside y.
Proof.
  remember (length k) as n eqn:Hn. revert k Hn.
  induction n as [n IH] using lt_wf_ind. intros [|s0 t] Hn.
  { cbn [quote_body app]. by strip_step. }
  cbn [quote_body].
  destruct (rune_size (s0 :: t)) as [[|[|[|[|[|m]]]]]|] eqn:Hr;
    try (apply rune_size_inv in Hr; done).
  - apply rune_size_inv in Hr as (c & t' & [= -> ->] & H0).
    rewrite <- !app_assoc, strip_quote_ascii by done.
    by rewrite (IH (length t')); [|subst n; simpl; lia|done].
  - pose proof (rune_size_noE2 _ _ Hr) as HE.
    apply rune_size_inv in Hr as (c0 & c1 & t' & [= -> ->] & H0 & H1 & _).
    destruct HE as [E0 E1]. cbn [app]. rewrite !strip_high by done.
    by rewrite (IH (length t')); [|subst n; simpl; lia|done].
  - pose proof (rune_size_noE2 _ _ Hr) as HE.
    apply rune_size_inv in Hr as (c0 & c1 & c2 & t' & [= -> ->] & H0 & H1 & H2 & _).
    destruct HE as [E1 E2]. rewrite <- !app_assoc.
    destruct (is_line_sep c0 c1 c2) eqn:Hsep.
    + rewrite strip_u202.
      * by rewrite (IH (length t')); [|subst n; simpl; lia|done].
      * unfold is_line_sep in Hsep. by apply andb_true_iff in Hsep as [_ ?].
    + cbn [app]. rewrite strip_lead3 by done. rewrite !strip_high by done.
      by rewrite (IH (length t')); [|subst n; simpl; lia|done].
  - pose proof (rune_size_noE2 _ _ Hr) as HE.
    apply rune_size_inv in Hr as (c0 & c1 & c2 & c3 & t' & [= -> ->] & H0 & H1 & H2 & H3 & _).
    destruct HE as (E0 & E1 & E2 & E3). cbn [app]. rewrite !strip_high by done.
    by rewrite (IH (length t')); [|subst n; simpl; lia|done].
  - rewrite <- !app_assoc, strip_ufffd.
    by rewrite (IH (length t)); [|subst n; simpl; lia|done].
Qed.

Lemma strip_quote k y : strip Outside (quote k ++ y) = quote k ++ strip Outside y.
Proof.
  unfold quote. cbn [app]. strip_step. change (is_space dquote) with false. cbv iota.
  rewrite <- !app_assoc. cbn [app]. by rewrite strip_quote_body.
Qed.

Lemma inert_string_of_uint d : forallb inert (B (NilEmpty.string_of_uint d)) = true.
Proof. induction d; simpl; auto. Qed.

Lemma inert_FormatInt z : forallb inert (FormatInt z) = true.
Proof.
  assert (∀ d, forallb inert (B (NilZero.string_of_uint d)) = true) as H.
  { intros d. destruct d; try apply inert_string_of_uint. reflexivity. }
  destruct z as [|p|p]; unfold FormatInt; cbn [Z.to_int NilZero.string_of_int]; [apply H..|].
  cbn [B list_ascii_of_string forallb]. apply andb_true_iff. split; [reflexivity|apply H].
Qed.

Lemma strip_join (l : list bytes) y :
  Forall (fun x => ∀ y, strip Outside (x ++ y) = x ++ strip Outside y) l →
  strip Outside (join_comma l ++ y) = join_comma l ++ strip Outside y.
Proof.
  induction 1 as [|x l Hx Hl IH]; [done|]. rewrite join_comma_cons.
  destruct l as [|x' l]; [by rewrite app_nil_r|].
  rewrite <- !app_assoc, Hx. f_equal. rewrite (strip_inert (B ",")) by reflexivity.
  f_equal. apply IH.
Qed.

Lemma strip_encode t (v : govalue t) y :
  strip Outside (encode t v ++ y) = encode t v ++ strip Outside y.
Proof.
  revert v y. induction t as [| | |t IH|t IH]; intros v y; cbn [encode].
  - destruct v; by apply strip_inert.
  - apply strip_inert, inert_FormatInt.
  - apply strip_quote.
  - destruct v as [v|]; [apply IH|by apply strip_inert].
  - destruct v as [l|]; [|by apply strip_inert].
    rewrite <- !app_assoc. rewrite (strip_inert (B "[")) by reflexivity. f_equal.
    rewrite strip_join.
    + f_equal. by apply strip_inert.
    + apply Forall_map, Forall_forall. intros x _. apply IH.
Qed.

(** The bytes [SetJson] stores for a value whose slices nest at most 9999
    deep are canonical: a snapshot carries them unchanged. *)
Lemma canonical_encode t (v : govalue t) :
  nesting t v ≤ innerNestingDepth → canonical (encode t v) = true.
Proof.
  intros Hn. unfold canonical. apply andb_true_iff. split; apply bool_decide_eq_true_2.
  - by apply value_encode.
  - pose proof (strip_encode t v []) as H. by rewrite !app_nil_r in H.
Qed.

Lemma SetJson_stores_canonical t (v : govalue t) (key : bytes) (tx : memDB) :
  nesting t v ≤ innerNestingDepth →
  (SetJson key v tx).1 = None
  ∧ cells (SetJson key v tx).2 !! key = Some (encode t v)
  ∧ canonical (encode t v) = true.
Proof.
  intros Hn. split; [done|]. split; [apply lookup_insert_eq|by apply canonical_encode].
Qed.

(** * Further properties of package db *)

(** ** [GetJsonDefault]: what it gives back *)

(** X1. [GetJsonDefault] never reports a missing key: whatever the
    transaction and the codec, its error does not match the sentinel.
    When it does fail the value is the zero value, and the transaction is
    left as the one [Get] left it. *)
Theorem GetJsonDefault_never_not_found :
  ∀ (T : Type) (HT : Tx T) (A : Type) (HA : JsonType A) (key : bytes) (d : A) (tx : T),
    let '((v, err), tx') := GetJsonDefault A key d tx in
    errors_Is err (Some ErrKeyNotFound) = false
    ∧ (err ≠ None → v = zero)
    ∧ tx' = (Get key tx).2.
Proof.
  intros. rewrite GetJsonDefault_cases.
  destruct (Get key tx) as [[data [e|]] tx'].
  - destruct (errors_Is (Some e) _) eqn:E; cbn [snd].
    + by split_and!.
    + split_and!; [|done..]. by rewrite Is_not_found_Errorf.
  - destruct (Unmarshal data) as [r [e|]]; cbn [snd].
    + destruct (errors_Is (Some e) _) eqn:E.
      * by split_and!.
      * split_and!; [|done..]. by rewrite Is_not_found_Errorf.
    + by split_and!.
Qed.

(** ** The replay of a snapshot *)

Lemma replay_app {T : Type} `{!Tx T} (l1 l2 : list KV) (tx tx1 : T) :
  replay l1 tx = (None, tx1) → replay (l1 ++ l2) tx = replay l2 tx1.
Proof.
  revert tx. induction l1 as [|kv l1 IH]; intros tx.
  - by intros [= <-].
  - cbn [replay app]. unfold bind.
    destruct (Set_ _ _ tx) as [[e|] tx']; [done|]. apply IH.
Qed.

(** X2. The closure that [RestoreJson] hands to [Do] stops at the first
    [Set] that fails: it returns that error as it is, without a context,
    and the transaction is left as the failing [Set] left it, so the
    pairs behind it are never set. *)
Theorem replay_stops_at_first_failure :
  ∀ (T : Type) (HT : Tx T) (before : list KV) (kv : KV) (rest : list KV)
    (tx tx1 tx2 : T) (e : error),
    replay before tx = (None, tx1) →
    Set_ (Key kv) (default [] (Val kv)) tx1 = (Some e, tx2) →
    replay (before ++ kv :: rest) tx = (Some e, tx2).
Proof.
  intros * H1 H2. rewrite (replay_app _ _ _ _ H1).
  cbn [replay]. unfold bind. by rewrite H2.
Qed.

Lemma replay_stops_at_first_failure_witness :
  replay ([{| Key := B "a"; Val := Some (B "1") |}]
            ++ {| Key := B "b"; Val := Some (B "2") |}
            :: [{| Key := B "c"; Val := Some (B "3") |}])
         {| kept := ∅; room := 1 |}
  = (Some (ErrNew "transaction is too big"),
     {| kept := <[B "a" := B "1"]> ∅; room := 0 |}).
Proof.
  exact (replay_stops_at_first_failure roomTx _
           [{| Key := B "a"; Val := Some (B "1") |}]
           {| Key := B "b"; Val := Some (B "2") |}
           [{| Key := B "c"; Val := Some (B "3") |}]
           {| kept := ∅; room := 1 |}
           {| kept := <[B "a" := B "1"]> ∅; room := 0 |}
           {| kept := <[B "a" := B "1"]> ∅; room := 0 |}
           (ErrNew "transaction is too big") eq_refl eq_refl).
Defined.

(** ** Import into a store that holds entries *)

Lemma foldl_insert_union {A V} (key : A → bytes) (val : A → V) (l : list A) (m0 : gmap bytes V) :
  foldl (fun acc x => <[key x := val x]> acc) m0 l
  = foldl (fun acc x => <[key x := val x]> acc) ∅ l ∪ m0.
Proof.
  induction l as [|x l IH] using rev_ind.
  - simpl. by rewrite (left_id ∅ (∪)).
  - rewrite !foldl_app. cbn [foldl]. rewrite IH. by rewrite insert_union_l.
Qed.

Lemma replayed_map (range : gmap bytes RawMessage → list (bytes * RawMessage))
    (raw : gmap bytes RawMessage) :
  (∀ m, range m ≡ₚ map_to_list m) →
  foldl (fun acc kv => <[Key kv := default [] (Val kv)]> acc) ∅ (map to_KV (range raw))
  = default [] <$> raw.
Proof.
  intros Hr. apply (foldl_insert_perm Key (fun kv => default [] (Val kv))).
  rewrite map_map. cbn [Key Val to_KV]. rewrite (Hr raw), map_to_list_fmap.
  by rewrite list_fmap_alt.
Qed.

Lemma RestoreJson_union {R : Type} `{!Reader R}
    (range : gmap bytes RawMessage → list (bytes * RawMessage))
    (db : memDB) (reader reader' : R) (data : bytes) (raw : gmap bytes RawMessage) :
  (∀ m, range m ≡ₚ map_to_list m) →
  ReadAll reader = ((data, None), reader') →
  Unmarshal_map data = (raw, None) →
  ∃ db' : memDB,
    RestoreJson range db reader = (None, db', reader')
    ∧ cells db' = (default [] <$> raw) ∪ cells db.
Proof.
  intros Hr Hread HU.
  rewrite (RestoreJson_parsed range db reader reader' data raw Hread HU).
  cbn [Do memDB_DB]. rewrite memDB_replay. cbn [fst snd].
  eexists. split; [reflexivity|].
  cbn [cells log]. rewrite foldl_insert_union. by rewrite replayed_map.
Qed.

(** X3. [RestoreJson] adds to the store, it does not replace it: after
    a successful import into the store the keyspace is the one before
    with every pair of the snapshot assigned. A key of the snapshot holds
    the snapshot's value, every other key holds what it held; nothing is
    deleted. *)
Theorem RestoreJson_merges_into_store :
  ∀ (R : Type) (HR : Reader R)
    (range : gmap bytes RawMessage → list (bytes * RawMessage))
    (db : memDB) (reader reader' : R) (data : bytes) (raw : gmap bytes RawMessage),
    (∀ m, range m ≡ₚ map_to_list m) →
    ReadAll reader = ((data, None), reader') →
    Unmarshal_map data = (raw, None) →
    ∃ db' : memDB,
      RestoreJson range db reader = (None, db', reader')
      ∧ cells db' = (default [] <$> raw) ∪ cells db
      ∧ (∀ k v, raw !! k = Some v → cells db' !! k = Some (default [] v))
      ∧ (∀ k, raw !! k = None → cells db' !! k = cells db !! k).
Proof.
  intros * Hr Hread HU.
  destruct (RestoreJson_union range db reader reader' data raw Hr Hread HU) as (db' & HR' & Hc).
  exists db'. split; [done|]. split; [done|]. rewrite Hc. split.
  - intros k v Hk. apply lookup_union_Some_l. by rewrite lookup_fmap, Hk.
  - intros k Hk. apply lookup_union_r. by rewrite lookup_fmap, Hk.
Qed.

Lemma RestoreJson_merges_into_store_witness :
  ∃ db' : memDB,
    RestoreJson (fun m => map_to_list m) db_good (merge_doc : Buffer)
    = (None, db', ([] : Buffer))
    ∧ cells db' = (default [] <$> (<[B "k" := Some (B "81")]> (<[B "new" := Some (B "[]")]> ∅)))
                  ∪ cells db_good
    ∧ (∀ k v, (<[B "k" := Some (B "81")]> (<[B "new" := Some (B "[]")]> ∅)
                 : gmap bytes RawMessage) !! k = Some v →
              cells db' !! k = Some (default [] v))
    ∧ (∀ k, (<[B "k" := Some (B "81")]> (<[B "new" := Some (B "[]")]> ∅)
               : gmap bytes RawMessage) !! k = None →
            cells db' !! k = cells db_good !! k).
Proof.
  apply (RestoreJson_merges_into_store Buffer _ (fun m => map_to_list m) db_good
           merge_doc [] merge_doc).
  - reflexivity.
  - reflexivity.
  - vm_compute. reflexivity.
Defined.

(** ** The order in which the store lists its entries *)

Lemma collect_perm (dump1 dump2 : list KV) :
  dump1 ≡ₚ dump2 → NoDup (map Key dump1) → collect dump1 = collect dump2.
Proof.
  intros Hp Hnd. unfold collect.
  rewrite !(foldl_insert_list_to_map Key Val).
  apply list_to_map_proper.
  - rewrite <- Permutation_rev.
    assert ((map (fun x => (Key x, Val x)) dump1).*1 = map Key dump1) as ->; [|done].
    rewrite <- list_fmap_compose. done.
  - rewrite <- !Permutation_rev. by rewrite Hp.
Qed.

(** X4. What [DumpJson] writes does not depend on the order in which
    [Dump] lists the entries: two stores whose dumps hold the same
    entries, each key once, give the same outcome and hand the writer the
    same bytes. *)
Theorem DumpJson_order_independent :
  ∀ (D T : Type) (HD : DB D T) (W : Type) (HW : Writer W)
    (db1 db2 db1' db2' : D) (writer : W) (dump1 dump2 : list KV),
    Dump db1 = ((dump1, None), db1') →
    Dump db2 = ((dump2, None), db2') →
    dump1 ≡ₚ dump2 →
    NoDup (map Key dump1) →
    (DumpJson db1 writer).1.1 = (DumpJson db2 writer).1.1
    ∧ (DumpJson db1 writer).2 = (DumpJson db2 writer).2.
Proof.
  intros * H1 H2 Hp Hnd. unfold DumpJson. rewrite H1, H2.
  rewrite (collect_perm dump1 dump2 Hp Hnd).
  destruct (Marshal_map (collect dump2)) as [data [e|]]; [done|].
  destruct (Write data writer) as [[n [e|]] w]; done.
Qed.

Lemma DumpJson_order_independent_witness :
  (DumpJson listed ([] : Buffer)).1.1 = (DumpJson listed_backwards ([] : Buffer)).1.1
  ∧ (DumpJson listed ([] : Buffer)).2 = (DumpJson listed_backwards ([] : Buffer)).2.
Proof.
  apply (DumpJson_order_independent listDB unit listDB_DB Buffer Buffer_Writer
           listed listed_backwards listed listed_backwards []
           listed listed_backwards eq_refl eq_refl).
  - apply perm_swap.
  - apply (bool_decide_unpack _). vm_compute. exact I.
Defined.

(** ** Importing twice, exporting again *)

(** X12. Importing a snapshot a second time changes nothing: after
    [RestoreJson] of some bytes into a store, [RestoreJson] of the same
    bytes succeeds again and leaves the keyspace as the first import left
    it. *)
Theorem RestoreJson_twice_is_once :
  ∀ (range : gmap bytes RawMessage → list (bytes * RawMessage))
    (db : memDB) (data : Buffer) (raw : gmap bytes RawMessage),
    (∀ m, range m ≡ₚ map_to_list m) →
    Unmarshal_map data = (raw, None) →
    ∃ db1 db2 : memDB,
      RestoreJson range db data = (None, db1, ([] : Buffer))
      ∧ RestoreJson range db1 data = (None, db2, ([] : Buffer))
      ∧ cells db2 = cells db1.
Proof.
  intros range db data raw Hr HU.
  assert (ReadAll (data : Buffer) = ((data, None), ([] : Buffer))) as Hread by reflexivity.
  destruct (RestoreJson_union range db data [] data raw Hr Hread HU) as (db1 & H1 & Hc1).
  destruct (RestoreJson_union range db1 data [] data raw Hr Hread HU) as (db2 & H2 & Hc2).
  exists db1, db2. split; [done|]. split; [done|].
  rewrite Hc2, Hc1. by rewrite (assoc_L (∪)), (idemp_L (∪)).
Qed.

Lemma RestoreJson_twice_is_once_witness :
  ∃ db1 db2 : memDB,
    RestoreJson (fun m => map_to_list m) db_good (merge_doc : Buffer) = (None, db1, ([] : Buffer))
    ∧ RestoreJson (fun m => map_to_list m) db1 (merge_doc : Buffer) = (None, db2, ([] : Buffer))
    ∧ cells db2 = cells db1.
Proof.
  apply (RestoreJson_twice_is_once (fun m => map_to_list m) db_good merge_doc
           (<[B "k" := Some (B "81")]> (<[B "new" := Some (B "[]")]> ∅))).
  - reflexivity.
  - vm_compute. reflexivity.
Defined.

(** ** A store filled through [SetJson] *)

Lemma set_all_run (entries : list (bytes * typed)) (tx : memDB) :
  set_all entries tx =
    (None,
     {| cells := foldl (fun m e => <[e.1 := encode (ty_of e.2) (val_of e.2)]> m) (cells tx) entries;
        history := history tx
                   ++ map (fun e => EvSet e.1 (encode (ty_of e.2) (val_of e.2))) entries |}).
Proof.
  revert tx. induction entries as [|[key tv] entries IH]; intros tx.
  - cbn. unfold ret. destruct tx; cbn. by rewrite app_nil_r.
  - cbn [set_all]. unfold SetJson, bind. cbn [Marshal go_JsonType Set_ memDB_Tx]. unfold ret.
    rewrite IH. cbn [cells history foldl map fst snd]. by rewrite <- app_assoc.
Qed.

Lemma foldl_insert_fmap {A V V'} (key : A → bytes) (val : A → V) (f : V → V') (l : list A) :
  foldl (fun acc x => <[key x := f (val x)]> acc) (∅ : gmap bytes V') l
  = f <$> foldl (fun acc x => <[key x := val x]> acc) (∅ : gmap bytes V) l.
Proof.
  induction l as [|x l IH] using rev_ind; [cbn [foldl]; by rewrite fmap_empty|].
  rewrite !foldl_app. cbn [foldl]. by rewrite IH, fmap_insert.
Qed.

Lemma cells_stored (entries : list (bytes * typed)) :
  cells (Do (set_all entries) empty_db).2
  = (fun tv => encode (ty_of tv) (val_of tv)) <$> assigned entries.
Proof.
  cbn [Do memDB_DB]. rewrite set_all_run. cbn [snd cells log empty_db].
  apply (foldl_insert_fmap fst snd (fun tv => encode (ty_of tv) (val_of tv))).
Qed.

Lemma assigned_elem (entries : list (bytes * typed)) k tv :
  assigned entries !! k = Some tv → (k, tv) ∈ entries.
Proof.
  unfold assigned. induction entries as [|e entries IH] using rev_ind; [done|].
  rewrite foldl_app. cbn [foldl]. rewrite lookup_insert_Some.
  intros [[<- <-]|[_ H]].
  - apply elem_of_app. right. destruct e. apply list_elem_of_singleton. done.
  - apply elem_of_app. left. by apply IH.
Qed.

Lemma valid_written (l : list (bytes * bytes)) :
  Forall (fun kv => value innerNestingDepth kv.2 = Some []) l →
  valid ("{"%char :: join_comma (map written l) ++ B "}") = true.
Proof.
  intros Hv.
  pose proof (object_written innerNestingDepth l [] Hv) as Ho.
  rewrite (app_nil_r (B "}")) in Ho.
  apply (valid_intro _ []); [|done].
  rewrite skip_space_head by done. unfold maxNestingDepth.
  rewrite value_object. by rewrite Ho.
Qed.

(** X5. Whatever [SetJson] has stored, [DumpJson] exports: for a store
    filled in one transaction by [SetJson] calls with values of the
    modelled types whose slices nest at most 10000 deep, under any keys,
    [DumpJson] into a buffer succeeds; and when the slices nest at most
    9999 deep what it writes is valid JSON for the decoder that
    [RestoreJson] uses. *)
Theorem DumpJson_exports_what_SetJson_stored :
  ∀ entries : list (bytes * typed),
    forallb (fun e => bool_decide (nesting (ty_of e.2) (val_of e.2) ≤ maxNestingDepth)) entries
    = true →
    ∃ data : Buffer,
      DumpJson (Do (set_all entries) empty_db).2 ([] : Buffer)
      = (None, (Do (set_all entries) empty_db).2, data)
      ∧ (forallb (fun e => bool_decide (nesting (ty_of e.2) (val_of e.2) ≤ innerNestingDepth))
           entries = true →
         valid data = true).
Proof.
  intros entries Hmax.
  set (db := (Do (set_all entries) empty_db).2).
  assert (∀ k b, cells db !! k = Some b →
            ∃ tv, (k, tv) ∈ entries ∧ b = encode (ty_of tv) (val_of tv)) as Hcell.
  { intros k b. unfold db. rewrite cells_stored, lookup_fmap.
    destruct (assigned entries !! k) as [tv|] eqn:Hk; [|done].
    intros [= <-]. exists tv. split; [by apply assigned_elem|done]. }
  unfold DumpJson. cbn [Dump memDB_DB]. rewrite memDB_collect.
  rewrite Marshal_map_valid.
  - cbn [Write Buffer_Writer app]. eexists. split; [reflexivity|].
    intros Hinner.
    rewrite map_member_text_written.
    + apply valid_written. apply Forall_map, Forall_forall. intros [k v] Hin.
      rewrite merge_sort_Permutation in Hin. apply elem_of_map_to_list in Hin.
      rewrite lookup_fmap in Hin.
      destruct (cells db !! k) as [b|] eqn:Hk; [|done]. injection Hin as <-.
      destruct (Hcell k b Hk) as (tv & Hin & ->). cbn [unwrap snd default].
      apply value_encode. rewrite forallb_forall in Hinner.
      apply list_elem_of_In, Hinner in Hin. by apply bool_decide_eq_true in Hin.
    + apply Forall_forall. intros [k v] Hin.
      rewrite merge_sort_Permutation in Hin. apply elem_of_map_to_list in Hin.
      rewrite lookup_fmap in Hin.
      destruct (cells db !! k) as [b|] eqn:Hk; [|done]. injection Hin as <-.
      destruct (Hcell k b Hk) as (tv & Hin & ->). exists (encode (ty_of tv) (val_of tv)).
      split; [done|].
      pose proof (strip_encode (ty_of tv) (val_of tv) []) as H. by rewrite !app_nil_r in H.
  - intros k v. rewrite lookup_fmap.
    destruct (cells db !! k) as [b|] eqn:Hk; [|done]. intros [= <-].
    destruct (Hcell k b Hk) as (tv & Hin & ->). cbn [RawMessage_MarshalJSON].
    apply (value_valid maxNestingDepth); [done|].
    apply value_encode. rewrite forallb_forall in Hmax.
    apply list_elem_of_In, Hmax in Hin. by apply bool_decide_eq_true in Hin.
Qed.

Lemma DumpJson_exports_what_SetJson_stored_witness :
  ∃ data : Buffer,
    DumpJson (Do (set_all backup_entries) empty_db).2 ([] : Buffer)
    = (None, (Do (set_all backup_entries) empty_db).2, data)
    ∧ (forallb (fun e => bool_decide (nesting (ty_of e.2) (val_of e.2) ≤ innerNestingDepth))
         backup_entries = true →
       valid data = true).
Proof.
  apply (DumpJson_exports_what_SetJson_stored backup_entries).
  vm_compute. reflexivity.
Defined.

(** ** Export and import of a store filled through [SetJson] *)

Lemma export_import (range : gmap bytes RawMessage → list (bytes * RawMessage))
    (db fresh : memDB) :
  (∀ m, range m ≡ₚ map_to_list m) →
  cells fresh = ∅ →
  (∀ k b, cells db !! k = Some b → utf8_valid k = true ∧ canonical b = true) →
  ∃ (data : Buffer) (restored : memDB),
    DumpJson db ([] : Buffer) = (None, db, data)
    ∧ RestoreJson range fresh data = (None, restored, ([] : Buffer))
    ∧ cells restored = cells db.
Proof.
  intros Hr Hfresh Hsafe.
  assert (∀ k v, (Some <$> cells db) !! k = Some v →
            utf8_valid k = true ∧ ∃ b, v = Some b ∧ canonical b = true) as Hok.
  { intros k v. rewrite lookup_fmap. destruct (cells db !! k) as [b|] eqn:Hk; [|done].
    intros [= <-]. destruct (Hsafe _ _ Hk). eauto. }
  destruct (Unmarshal_Marshal_map _ Hok) as (data & HM & HU).
  exists data. eexists. split; [|split].
  - unfold DumpJson. cbn [Dump memDB_DB]. rewrite memDB_collect, HM. reflexivity.
  - assert (ReadAll (data : Buffer) = ((data, None), ([] : Buffer))) as Hread by reflexivity.
    rewrite (RestoreJson_parsed range fresh _ _ _ _ Hread HU).
    cbn [Do memDB_DB]. rewrite memDB_replay. reflexivity.
  - cbn [cells log]. rewrite Hfresh. by apply memDB_restore_cells.
Qed.

(** X6. The backup test, for any entries of the modelled types: set the
    entries with [SetJson] in one transaction, export with [DumpJson],
    import the bytes with [RestoreJson] into a store with an empty
    keyspace. When the keys and the strings are valid UTF-8, no pointer
    hides a null and the slices nest at most 9999 deep, all three steps
    succeed, and in the restored store [GetJson] gives, for every key,
    the value last set for it; a key that was not set is reported as not
    found. *)
Theorem typed_backup_round_trip :
  ∀ (range : gmap bytes RawMessage → list (bytes * RawMessage))
    (entries : list (bytes * typed)) (fresh : memDB),
    (∀ m, range m ≡ₚ map_to_list m) →
    cells fresh = ∅ →
    forallb entry_ok entries = true →
    ∃ (db : memDB) (data : Buffer) (restored : memDB),
      Do (set_all entries) empty_db = (None, db)
      ∧ DumpJson db ([] : Buffer) = (None, db, data)
      ∧ RestoreJson range fresh data = (None, restored, ([] : Buffer))
      ∧ (∀ key tv, assigned entries !! key = Some tv →
           (GetJson (govalue (ty_of tv)) key restored).1 = (val_of tv, None))
      ∧ (∀ key t, assigned entries !! key = None →
           errors_Is (GetJson (govalue t) key restored).1.2 (Some ErrKeyNotFound) = true).
Proof.
  intros range entries fresh Hr Hfresh Hok.
  assert (∀ k tv, assigned entries !! k = Some tv →
            utf8_valid k = true ∧ faithful (ty_of tv) (val_of tv) = true
            ∧ nesting (ty_of tv) (val_of tv) ≤ innerNestingDepth) as Hent.
  { intros k tv Hk. apply assigned_elem, list_elem_of_In in Hk.
    rewrite forallb_forall in Hok. apply Hok in Hk. unfold entry_ok in Hk.
    rewrite !andb_true_iff, bool_decide_eq_true in Hk. cbn [fst snd] in Hk. tauto. }
  set (db := (Do (set_all entries) empty_db).2).
  assert (Do (set_all entries) empty_db = (None, db)) as HDo.
  { unfold db. cbn [Do memDB_DB]. by rewrite set_all_run. }
  assert (cells db = (fun tv => encode (ty_of tv) (val_of tv)) <$> assigned entries) as Hcells
    by apply cells_stored.
  destruct (export_import range db fresh Hr Hfresh) as (data & restored & HD & HR & Hc).
  { intros k b. rewrite Hcells, lookup_fmap.
    destruct (assigned entries !! k) as [tv|] eqn:Hk; [|done]. intros [= <-].
    destruct (Hent k tv Hk) as (Hu & _ & Hn). split; [done|]. by apply canonical_encode. }
  exists db, data, restored. split_and!; [done..| |].
  - intros key tv Hk. destruct (Hent key tv Hk) as (_ & Hf & Hn).
    rewrite (GetJson_ok key restored (encode (ty_of tv) (val_of tv)) (val_of tv)
               (log (EvGet key) restored)); [done| |].
    + apply memDB_Get_present. by rewrite Hc, Hcells, lookup_fmap, Hk.
    + apply Unmarshal_encode; [done|]. pose proof inner_le_max. lia.
  - intros key t Hk.
    rewrite (GetJson_get_error (A:=govalue t) key restored [] ErrKeyNotFound
               (log (EvGet key) restored)); [done|].
    apply memDB_Get_absent. by rewrite Hc, Hcells, lookup_fmap, Hk.
Qed.

Lemma typed_backup_round_trip_witness :
  ∃ (db : memDB) (data : Buffer) (restored : memDB),
    Do (set_all backup_entries) empty_db = (None, db)
    ∧ DumpJson db ([] : Buffer) = (None, db, data)
    ∧ RestoreJson (fun m => map_to_list m) empty_db data = (None, restored, ([] : Buffer))
    ∧ (∀ key tv, assigned backup_entries !! key = Some tv →
         (GetJson (govalue (ty_of tv)) key restored).1 = (val_of tv, None))
    ∧ (∀ key t, assigned backup_entries !! key = None →
         errors_Is (GetJson (govalue t) key restored).1.2 (Some ErrKeyNotFound) = true).
Proof.
  apply (typed_backup_round_trip (fun m => map_to_list m) backup_entries empty_db).
  - reflexivity.
  - reflexivity.
  - vm_compute. reflexivity.
Defined.

(** ** The counter read back *)

(** X7. After [n] transactions run one after the other, each reading the
    counter with [GetJsonDefault] and default 0 and writing it back
    incremented with [SetJson], a read of the counter with default 0
    gives [n], for every [n] below 2^63 and any key. *)
Theorem counter_counts_serial_increments :
  ∀ (key : bytes) (n : nat),
    (Z.of_nat n < 2 ^ 63)%Z →
    (GetJsonDefault (govalue TInt) key 0%Z (run_serially n (increment key) empty_db)).1
    = (Z.of_nat n, None).
Proof.
  intros key n Hn. rewrite GetJsonDefault_cases.
  cbn [Get memDB_Tx]. rewrite (serial_increments key n Hn).
  destruct (Z.eqb_spec (Z.of_nat n) 0) as [->|Hne]; [done|].
  assert (Unmarshal (A:=govalue TInt) (FormatInt (Z.of_nat n)) = (Z.of_nat n, None)) as ->.
  { apply (Unmarshal_encode TInt (Z.of_nat n)).
    - cbn [faithful]. apply andb_true_iff. split; [apply Z.leb_le|apply Z.ltb_lt]; lia.
    - cbn [nesting]. lia. }
  done.
Qed.

Lemma counter_counts_serial_increments_witness :
  (GetJsonDefault (govalue TInt) (B "key5") 0%Z
     (run_serially 12 (increment (B "key5")) empty_db)).1
  = (Z.of_nat 12, None).
Proof.
  apply (counter_counts_serial_increments (B "key5") 12). vm_compute. reflexivity.
Defined.

(** ** Exporting the restored store *)

Lemma DumpJson_memDB (db : memDB) (w : Buffer) :
  DumpJson db w =
    match Marshal_map (Some <$> cells db) with
    | (_, Some e) => (Some (Errorf "marshall dump" e), db, w)
    | (data, None) => (None, db, w ++ data)
    end.
Proof.
  unfold DumpJson. cbn [Dump memDB_DB]. rewrite memDB_collect.
  by destruct (Marshal_map _) as [data [e|]].
Qed.

(** X14. A backup of the restored store is the backup it was restored
    from: for a keyspace with valid UTF-8 keys and canonical values,
    [DumpJson], then [RestoreJson] into a store with an empty keyspace,
    then [DumpJson] of that store writes the same bytes again. *)
Theorem restored_store_exports_the_same_bytes :
  ∀ (range : gmap bytes RawMessage → list (bytes * RawMessage)) (db fresh : memDB),
    (∀ m, range m ≡ₚ map_to_list m) →
    cells fresh = ∅ →
    snapshot_safe (cells db) = true →
    ∃ (data : Buffer) (restored : memDB),
      DumpJson db ([] : Buffer) = (None, db, data)
      ∧ RestoreJson range fresh data = (None, restored, ([] : Buffer))
      ∧ DumpJson restored ([] : Buffer) = (None, restored, data).
Proof.
  intros range db fresh Hr Hfresh Hsafe.
  destruct (export_import range db fresh Hr Hfresh) as (data & restored & HD & HR & Hc).
  { intros k b Hk. by apply (snapshot_safe_lookup (cells db)). }
  exists data, restored. split; [done|]. split; [done|].
  rewrite DumpJson_memDB in HD |- *. rewrite Hc.
  destruct (Marshal_map (Some <$> cells db)) as [d [e|]]; [done|].
  by injection HD as <-.
Qed.

Lemma restored_store_exports_the_same_bytes_witness :
  ∃ (data : Buffer) (restored : memDB),
    DumpJson db_good ([] : Buffer) = (None, db_good, data)
    ∧ RestoreJson (fun m => map_to_list m) empty_db data = (None, restored, ([] : Buffer))
    ∧ DumpJson restored ([] : Buffer) = (None, restored, data).
Proof.
  apply (restored_store_exports_the_same_bytes (fun m => map_to_list m) db_good empty_db).
  - reflexivity.
  - reflexivity.
  - vm_compute. reflexivity.
Defined.

(** * Properties of package config *)

Lemma validate_cases (cfg : config.Config) :
  config.validate cfg =
    if config.one_generator cfg then None
    else Some (ErrNew "only one of use_carbon, use_rayso, and use_javahighlight should be enabled").
Proof.
  unfold config.validate, config.one_generator.
  destruct (config.UseCarbon _), (config.UseRayso _), (config.UseJavaHighlight _); reflexivity.
Qed.

(** X8. [validate] accepts a configuration exactly when one, and only
    one, of [use_carbon], [use_rayso] and [use_javahighlight] is set: it
    refuses two or three of them set, and also none of them set; no other
    field of the configuration matters. *)
Theorem validate_accepts_exactly_one_generator :
  ∀ cfg : config.Config,
    (config.validate cfg = None ↔ config.one_generator cfg = true)
    ∧ (config.validate cfg ≠ None ↔
       config.validate cfg =
         Some (ErrNew "only one of use_carbon, use_rayso, and use_javahighlight should be enabled"))
    ∧ (config.validate cfg = None ↔
       Z.of_nat (length (filter (fun flag : bool => flag = true)
                           [config.UseCarbon (config.MediaGenerator cfg);
                            config.UseRayso (config.MediaGenerator cfg);
                            config.UseJavaHighlight (config.MediaGenerator cfg)])) = 1%Z).
Proof.
  intros cfg. rewrite validate_cases. unfold config.one_generator.
  destruct (config.UseCarbon _), (config.UseRayso _), (config.UseJavaHighlight _);
    cbn; split_and!; split; (done || lia || discriminate).
Qed.

(** X9. [Load] gives a configuration only after [validate] has accepted
    it: with a nil error the configuration has exactly one generator set,
    and it is what [yaml.Unmarshal] made of the file's bytes laid over the
    defaults. With an error the configuration returned is the zero
    [Config], never a partly filled one, and the error wraps its cause
    with the context of the step that failed. *)
Theorem Load_gives_a_validated_config_or_none :
  ∀ (defaultConfigBytes : bytes)
    (yaml_Unmarshal : bytes → config.Config → config.Config * option error)
    (ReadFile : string → bytes * option error) (Quote : string → string)
    (filename : string),
    let '(cfg, err) := config.Load defaultConfigBytes yaml_Unmarshal ReadFile Quote filename in
    match err with
    | None =>
        config.validate cfg = None
        ∧ config.one_generator cfg = true
        ∧ ∃ defaults data,
            yaml_Unmarshal defaultConfigBytes config.zero_Config = (defaults, None)
            ∧ ReadFile filename = (data, None)
            ∧ yaml_Unmarshal data defaults = (cfg, None)
    | Some e =>
        cfg = config.zero_Config
        ∧ ∃ cause,
            Unwrap e = Some cause
            ∧ (e = Errorf "unmarshal default config" cause
               ∨ e = Errorf (String.append "read config file " (Quote filename)) cause
               ∨ e = Errorf "unmarshal config" cause
               ∨ e = Errorf "validate config" cause)
    end.
Proof.
  intros. unfold config.Load, config.Default.
  destruct (yaml_Unmarshal defaultConfigBytes config.zero_Config) as [defaults [e|]] eqn:H0.
  { split; [done|]. exists e. split; [done|]. by left. }
  destruct (ReadFile filename) as [data [e|]] eqn:H1.
  { split; [done|]. exists e. split; [done|]. right. by left. }
  destruct (yaml_Unmarshal data defaults) as [cfg [e|]] eqn:H2.
  { split; [done|]. exists e. split; [done|]. right. right. by left. }
  pose proof (validate_cases cfg) as Hv.
  destruct (config.validate cfg) as [e|] eqn:H3.
  { split; [done|]. exists e. split; [done|]. right. right. by right. }
  split; [done|]. split.
  - by destruct (config.one_generator cfg).
  - by exists defaults, data.
Qed.

(** * Properties of the cron registration *)

(** X10. [registerCronJobs] gives all six jobs or none. With a nil error
    the slice holds six jobs, named and timed as the calls are written:
    the daily and the chickens' daily on the LeetCode daily crontab, the
    two ratings on the LeetCode rating crontab, then the NeetCode daily
    and rating on theirs. With an error the slice is nil, whichever call
    failed, and the error is the scheduler's own. *)
Theorem registerCronJobs_all_or_none :
  ∀ (S J W : Type) (HS : main.Scheduler S J W) (HL : main.Logger W)
    (cfg : config.Config) (bw : main.Service W) (s : S),
    let '((jobs, err), s') := main.registerCronJobs cfg bw s in
    match err with
    | None =>
        ∃ l, jobs = Some l
             ∧ map main.name l =
                 ["PublishLCDaily"; "PublishLCChickensDaily"; "PublishLCRating";
                  "PublishLCChickensRating"; "PublishNCDaily"; "PublishNCRating"]
             ∧ map main.cron l =
                 [config.Cron (config.LeetcodeDaily cfg); config.Cron (config.LeetcodeDaily cfg);
                  config.RatingCron (config.LeetcodeDaily cfg);
                  config.RatingCron (config.LeetcodeDaily cfg);
                  config.Cron (config.NeetcodeDaily cfg);
                  config.RatingCron (config.NeetcodeDaily cfg)]
    | Some _ => jobs = None
    end.
Proof.
  intros. unfold main.registerCronJobs, main.registerJob, bind, ret.
  repeat (destruct (main.NewJob _ _ _) as [[? [?|]] ?]; [done|]).
  eexists. split; [reflexivity|]. split; reflexivity.
Qed.

(** X11. [registerCronJobs] registers in the order of its calls and
    stops at the first crontab the scheduler refuses. On a scheduler that
    keeps what it accepted: the definitions and wrapped tasks it holds
    afterwards are those of the calls before the refused one, in order,
    they stay registered although the function returns nil, the error is
    that crontab's, and no later job reaches the scheduler. When nothing
    is refused all six are held and returned. *)
Theorem registerCronJobs_stops_at_first_refusal :
  ∀ (W : Type) (HL : main.Logger W) (check : string → option error)
    (cfg : config.Config) (bw : main.Service W),
    let '((jobs, err), s') :=
      main.registerCronJobs (HS := main.recorder_Scheduler check) cfg bw
        {| main.accepted := [] |} in
    let '(ok, refused) := main.until_refused check (main.schedule cfg bw) in
    main.accepted s' = map main.handed ok
    ∧ err = refused
    ∧ jobs = match refused with
             | None => Some (imap main.made ok)
             | Some _ => None
             end.
Proof.
  intros. unfold main.registerCronJobs, main.registerJob, bind, ret.
  cbn [main.NewJob main.recorder_Scheduler]. unfold main.recorder_NewJob.
  cbn [main.crontab main.until_refused main.schedule fst snd].
  destruct (check (config.Cron (config.LeetcodeDaily cfg))) eqn:E1; [done|].
  destruct (check (config.RatingCron (config.LeetcodeDaily cfg))) eqn:E2; [done|].
  destruct (check (config.Cron (config.NeetcodeDaily cfg))) eqn:E3; [done|].
  destruct (check (config.RatingCron (config.NeetcodeDaily cfg))) eqn:E4; done.
Qed.

(** ** The configuration as text *)

Lemma value_encode_struct n (fields : list (string * bytes)) :
  Forall (fun f => value n f.2 = Some []) fields →
  value (S n) (config.encode_struct fields) = Some [].
Proof.
  intros H. unfold config.encode_struct.
  change (B "{" ++ ?x) with ("{"%char :: x). rewrite value_object.
  assert (map (fun f : string * bytes => quote (B f.1) ++ B ":" ++ f.2) fields
          = map written (map (fun f : string * bytes => (B f.1, f.2)) fields)) as ->
    by (by rewrite map_map).
  pose proof (object_written n (map (fun f : string * bytes => (B f.1, f.2)) fields) []) as Ho.
  rewrite (app_nil_r (B "}")) in Ho. rewrite Ho; [done|].
  apply Forall_map. eapply Forall_impl; [exact H|]. done.
Qed.

Lemma value_encode_strings n (l : option (list string)) :
  1 ≤ n → value n (config.encode_strings l) = Some [].
Proof.
  intros Hn. apply value_encode. destruct l as [l|]; cbn [fmap option_fmap option_map nesting]; [|lia].
  assert (foldr Nat.max 0 (map (fun _ : govalue TString => 0) (map B l)) = 0) as ->; [|lia].
  induction l as [|x l IH]; [done|]. cbn. exact IH.
Qed.

Lemma value_encode_mock n (m : config.mock) :
  2 ≤ n → value n (config.encode_mock m) = Some [].
Proof.
  intros Hn. destruct n as [|n]; [lia|]. apply value_encode_struct.
  repeat constructor; cbn [snd].
  - apply value_encode; cbn [nesting]; lia.
  - apply value_encode; cbn [nesting]; lia.
  - apply value_encode_strings. lia.
Qed.

Lemma value_encode_mocks n (l : option (list config.mock)) :
  3 ≤ n → value n (config.encode_mocks l) = Some [].
Proof.
  intros Hn. destruct l as [l|]; [|apply value_literal; auto].
  destruct n as [|n]; [lia|]. cbn [config.encode_mocks].
  change (B "[" ++ ?x) with ("["%char :: x). rewrite value_unfold.
  change (Ascii.eqb "[" "{") with false. change (Ascii.eqb "[" "[") with true. cbv iota.
  pose proof (array_written n (map config.encode_mock l) []) as Ha.
  rewrite (app_nil_r (B "]")) in Ha. rewrite Ha; [done|].
  apply Forall_map, Forall_forall. intros m _. apply value_encode_mock. lia.
Qed.

Lemma value_Config_String (cfg : config.Config) : value 4 (config.Config_String cfg) = Some [].
Proof.
  apply value_encode_struct.
  repeat constructor; cbn [snd];
    first [ apply value_encode_strings; lia
          | apply value_encode_mocks; lia
          | apply value_encode; cbn [nesting]; lia
          | apply (value_encode_struct 2); repeat constructor; cbn [snd];
            apply value_encode; cbn [nesting]; lia ].
Qed.

(** X13. [Config.String] does not show the secrets: the text is the
    same whatever the Telegram API key, the [VC] token and the LeetCode
    session and CSRF token are, so two configurations that differ only in
    these print alike. The text is always one valid JSON value (the
    error of [json.Marshal] that [String] drops is never there). *)
Theorem Config_String_hides_the_secrets :
  ∀ (cfg : config.Config) (key token session csrf : string),
    config.Config_String (config.with_secrets cfg key token session csrf)
    = config.Config_String cfg
    ∧ config.with_secrets cfg (config.Key (config.Tg cfg)) (config.Token (config.VC cfg))
        (config.Session (config.Leetcode cfg)) (config.CSRF (config.Leetcode cfg)) = cfg
    ∧ valid (config.Config_String cfg) = true.
Proof.
  intros. split; [reflexivity|]. split.
  - by destruct cfg as [? ? [] ? ? [] ? [] ? ? ? ? ? ? ? ?].
  - apply (value_valid 4); [unfold maxNestingDepth, innerNestingDepth; lia|].
    apply value_Config_String.
Qed.

(** * The causes of the errors *)

Lemma is_chain_wrap ctx e target :
  is_chain e target = true → is_chain (Errorf ctx e) target = true.
Proof. intros H. cbn [is_chain]. by destruct (decide (Errorf ctx e = target)). Qed.

(** X15. The errors of package db keep their cause within reach of
    [errors.Is], for every target and not only for the sentinel: what the
    error of [tx.Get], [tx.Set], [json.Marshal], [json.Unmarshal],
    [Dump], [Write] or [ReadAll] matches, the error that [GetJson],
    [SetJson], [DumpJson] or [RestoreJson] makes of it matches too. When
    the encoding fails [SetJson] leaves the transaction as it was. *)
Theorem db_errors_keep_their_cause :
  (∀ (T : Type) (HT : Tx T) (A : Type) (HA : JsonType A)
     (key : bytes) (v : A) (tx : T) (target : error),
     (∀ data cause tx',
        Get key tx = ((data, Some cause), tx') → is_chain cause target = true →
        errors_Is (GetJson A key tx).1.2 (Some target) = true)
     ∧ (∀ data r cause tx',
          Get key tx = ((data, None), tx') → Unmarshal data = (r, Some cause) →
          is_chain cause target = true →
          errors_Is (GetJson A key tx).1.2 (Some target) = true)
     ∧ (∀ data cause,
          Marshal v = (data, Some cause) → is_chain cause target = true →
          errors_Is (SetJson key v tx).1 (Some target) = true ∧ (SetJson key v tx).2 = tx)
     ∧ (∀ data cause tx',
          Marshal v = (data, None) → Set_ key data tx = (Some cause, tx') →
          is_chain cause target = true →
          errors_Is (SetJson key v tx).1 (Some target) = true))
  ∧ (∀ (D T : Type) (HT : Tx T) (HD : DB D T) (W : Type) (HW : Writer W) (R : Type) (HR : Reader R)
       (range : gmap bytes RawMessage → list (bytes * RawMessage))
       (db : D) (writer : W) (reader : R) (target : error),
       (∀ dump cause db',
          Dump db = ((dump, Some cause), db') → is_chain cause target = true →
          errors_Is (DumpJson db writer).1.1 (Some target) = true)
       ∧ (∀ dump db' data n cause writer',
            Dump db = ((dump, None), db') → Marshal_map (collect dump) = (data, None) →
            Write data writer = ((n, Some cause), writer') → is_chain cause target = true →
            errors_Is (DumpJson db writer).1.1 (Some target) = true)
       ∧ (∀ data cause reader',
            ReadAll reader = ((data, Some cause), reader') → is_chain cause target = true →
            errors_Is (RestoreJson range db reader).1.1 (Some target) = true)).
Proof.
  split.
  - intros. split_and!.
    + intros data cause tx' HG Hc. rewrite (GetJson_get_error _ _ _ _ _ HG).
      cbn [fst snd errors_Is]. by apply is_chain_wrap.
    + intros data r cause tx' HG HU Hc.
      rewrite (GetJson_unmarshal_error _ _ _ _ _ _ HG HU).
      cbn [fst snd errors_Is]. by apply is_chain_wrap.
    + intros data cause HM Hc. unfold SetJson. rewrite HM. unfold ret.
      cbn [fst snd errors_Is]. split; [by apply is_chain_wrap|done].
    + intros data cause tx' HM HS Hc. unfold SetJson, bind. rewrite HM, HS. unfold ret.
      cbn [fst snd errors_Is]. by apply is_chain_wrap.
  - intros. split_and!.
    + intros dump cause db' HDump Hc. unfold DumpJson. rewrite HDump.
      cbn [fst snd errors_Is]. by apply is_chain_wrap.
    + intros dump db' data n cause writer' HDump HM HW' Hc.
      unfold DumpJson. rewrite HDump, HM, HW'.
      cbn [fst snd errors_Is]. by apply is_chain_wrap.
    + intros data cause reader' HRead Hc.
      rewrite (RestoreJson_read_error range db reader reader' data cause HRead).
      cbn [fst snd errors_Is]. by apply is_chain_wrap.
Qed.

Lemma db_errors_keep_their_cause_witness :
  errors_Is (SetJson (A:=govalue TInt) (B "k") 1%Z {| kept := ∅; room := 0 |}).1
    (Some (ErrNew "transaction is too big")) = true.
Proof.
  exact (proj2 (proj2 (proj2 (proj1 db_errors_keep_their_cause roomTx _ (govalue TInt) _
           (B "k") 1%Z {| kept := ∅; room := 0 |} (ErrNew "transaction is too big"))))
           (FormatInt 1) (ErrNew "transaction is too big") {| kept := ∅; room := 0 |}
           eq_refl eq_refl eq_refl).
Defined.

(** * Compaction of any valid value *)

(** ** Spaces and punctuation *)

Lemma strip_space c t : is_space c = true → strip Outside (c :: t) = strip Outside t.
Proof.
  intros H. pose proof H as H'. unfold is_space in H'.
  rewrite !orb_true_iff, !N.eqb_eq in H'.
  destruct H' as [[[E|E]|E]|E]; apply code_inj in E; subst c;
    rewrite strip_cons by reflexivity; reflexivity.
Qed.

Lemma strip_skip_space s : strip Outside (skip_space s) = strip Outside s.
Proof.
  induction s as [|c t IH]; [done|]. cbn [skip_space].
  destruct (is_space c) eqn:E; [|done]. by rewrite IH, strip_space.
Qed.

Lemma strip_blank r : skip_space r = [] → strip Outside r = [].
Proof. intros H. by rewrite <- strip_skip_space, H. Qed.

Lemma strip_inert1 c t : inert c = true → strip Outside (c :: t) = c :: strip Outside t.
Proof. intros H. apply (strip_inert [c] t). cbn. by rewrite H. Qed.

Lemma strip_open_quote t : strip Outside (dquote :: t) = dquote :: strip InString t.
Proof. by rewrite strip_cons by reflexivity. Qed.

(** ** String literals *)

Lemma strip_plain st c t :
  is_html c = false →
  (∀ c1 c2 t', t = c1 :: c2 :: t' → is_line_sep c c1 c2 = false) →
  strip st (c :: t) =
    (if match st with Outside => is_space c | _ => false end then [] else [c])
      ++ strip (place_step st c) t.
Proof.
  intros H1 H2. cbn [strip]. rewrite H1.
  destruct t as [|c1 [|c2 t']]; rewrite ?(H2 _ _ _ eq_refl);
    by destruct (match st with Outside => is_space c | _ => false end).
Qed.

Lemma is_escape_plain e :
  is_escape e = true → is_html e = false ∧ (code e =? 0xE2)%N = false.
Proof.
  unfold is_escape. cbn [existsb B list_ascii_of_string]. rewrite !orb_true_iff.
  intros H. repeat (destruct H as [H|H]; [apply Ascii.eqb_eq in H; subst e; by split|]).
  done.
Qed.

Lemma is_hex_plain h :
  is_hex h = true →
  is_html h = false ∧ (code h =? 0xE2)%N = false
  ∧ Ascii.eqb h dquote = false ∧ Ascii.eqb h backslash = false.
Proof.
  destruct h as [[] [] [] [] [] [] [] []]; intros H; try (by vm_compute in H);
    by repeat split.
Qed.

Lemma string_rest_u00 c x : is_html c = true → string_rest (u00 c ++ x) = string_rest x.
Proof.
  unfold is_html. rewrite !orb_true_iff.
  intros [[H|H]|H]; apply Ascii.eqb_eq in H; subst c; reflexivity.
Qed.

Lemma is_html_plain c :
  is_html c = true → Ascii.eqb c dquote = false ∧ Ascii.eqb c backslash = false.
Proof.
  unfold is_html. rewrite !orb_true_iff.
  intros [[H|H]|H]; apply Ascii.eqb_eq in H; subst c; by split.
Qed.

Lemma is_line_sep_inv c c1 c2 :
  is_line_sep c c1 c2 = true →
  is_html c = false ∧ Ascii.eqb c dquote = false ∧ Ascii.eqb c backslash = false
  ∧ (128 ≤ code c1)%N ∧ (128 ≤ code c2)%N
  ∧ (code c2 =? 0xA8)%N || (code c2 =? 0xA9)%N = true.
Proof.
  unfold is_line_sep. rewrite !andb_true_iff, !N.eqb_eq.
  intros [[H0 H1] H2]. apply code_inj in H0. subst c.
  split_and!; try reflexivity; [lia| |done].
  rewrite orb_true_iff, !N.eqb_eq in H2. lia.
Qed.

Lemma strip_u00 c x : is_html c = true → strip InString (u00 c ++ x) = u00 c ++ strip InString x.
Proof.
  unfold is_html. rewrite !orb_true_iff.
  intros [[H|H]|H]; apply Ascii.eqb_eq in H; subst c;
    compute_quoted u00; cbn [app]; repeat strip_step; reflexivity.
Qed.

(** The first byte that [strip] gives inside a string is the byte it read
    or the backslash of an escape. *)
Lemma strip_first c t :
  ∃ tl, strip InString (c :: t) = c :: tl ∨ strip InString (c :: t) = backslash :: tl.
Proof.
  cbn [strip]. destruct (is_html c); [eexists; right; reflexivity|].
  destruct t as [|c1 [|c2 t']]; try (eexists; left; reflexivity).
  destruct (is_line_sep c c1 c2); [eexists; right; reflexivity|eexists; left; reflexivity].
Qed.

Lemma is_line_sep_second c o1 o2 :
  is_line_sep c o1 o2 = true → (code o1 =? 0x80)%N = true.
Proof. unfold is_line_sep. rewrite !andb_true_iff. tauto. Qed.

Lemma is_line_sep_third c o1 o2 :
  is_line_sep c o1 o2 = true → (code o2 =? 0xA8)%N || (code o2 =? 0xA9)%N = true.
Proof. unfold is_line_sep. rewrite !andb_true_iff. tauto. Qed.

Lemma is_line_sep_intro c o1 o2 c2 :
  is_line_sep c o1 c2 = false → (code o1 =? 0x80)%N = true →
  (o2 = c2 ∨ o2 = backslash) → is_line_sep c o1 o2 = false.
Proof.
  unfold is_line_sep. intros H H1 [->| ->]; [done|].
  rewrite H1. change (code backslash =? 0xA8)%N with false.
  change (code backslash =? 0xA9)%N with false. by rewrite !andb_false_r.
Qed.

(** No U+2028 or U+2029 starts at [c] in front of [s]; compaction of [s]
    inside a string keeps this so. *)
Lemma sep_free_strip c t :
  (∀ c1 c2 t', t = c1 :: c2 :: t' → is_line_sep c c1 c2 = false) →
  ∀ o1 o2 t', strip InString t = o1 :: o2 :: t' → is_line_sep c o1 o2 = false.
Proof.
  intros Hfree o1 o2 t' Hs.
  destruct (is_line_sep c o1 o2) eqn:E; [|done]. exfalso.
  pose proof (is_line_sep_second _ _ _ E) as E1.
  destruct t as [|c1 t1]; [done|].
  destruct (strip_first c1 t1) as [tl [H|H]]; rewrite H in Hs; injection Hs as <- Htl;
    [|by vm_compute in E1].
  assert (is_html c1 = false ∧ (code c1 =? 0xE2)%N = false
          ∧ place_step InString c1 = InString) as (A1 & A2 & A3).
  { apply N.eqb_eq, code_inj in E1. by subst c1. }
  rewrite strip_cons in H by done. rewrite A3 in H. cbn [app] in H. injection H as H.
  destruct t1 as [|c2 t2]; [by rewrite <- H in Htl|].
  destruct (strip_first c2 t2) as [tl2 Hor]. rewrite <- H in Htl.
  assert (o2 = c2 ∨ o2 = backslash) as Ho2.
  { destruct Hor as [H2|H2]; rewrite H2 in Htl; injection Htl as <- _; auto. }
  pose proof (Hfree _ _ _ eq_refl) as Hin.
  by rewrite (is_line_sep_intro c c1 o2 c2 Hin E1 Ho2) in E.
Qed.

Lemma sep_free_body c (b y y' : bytes) :
  (∀ o1 o2 t', b ++ dquote :: y' = o1 :: o2 :: t' → is_line_sep c o1 o2 = false) →
  ∀ o1 o2 t', b ++ dquote :: y = o1 :: o2 :: t' → is_line_sep c o1 o2 = false.
Proof.
  intros H o1 o2 t'. destruct b as [|x [|x2 b']]; cbn [app].
  - intros [= <- _]. unfold is_line_sep.
    change (code dquote =? 0x80)%N with false. by rewrite andb_false_r.
  - intros [= <- <- _]. unfold is_line_sep.
    change (code dquote =? 0xA8)%N with false. change (code dquote =? 0xA9)%N with false.
    by rewrite !andb_false_r.
  - intros [= <- <- _]. by apply (H x x2 (b' ++ dquote :: y')).
Qed.

(** What [strip] makes of a string literal is a string literal again. *)
Lemma string_strip t r :
  string_rest t = Some r →
  ∃ b, strip InString t = b ++ dquote :: strip Outside r
       ∧ (∀ z, string_rest (b ++ dquote :: z) = Some z)
       ∧ ∀ y, strip InString (b ++ dquote :: y) = b ++ dquote :: strip Outside y.
Proof.
  remember (length t) as n eqn:Hn. revert t Hn r.
  induction n as [n IH] using lt_wf_ind. intros [|c t] Hn r; [done|].
  cbn [string_rest].
  destruct (Ascii.eqb c dquote) eqn:Eq.
  { intros [= <-]. apply Ascii.eqb_eq in Eq. subst c. exists []. split_and!; [|done|].
    - by rewrite strip_cons by reflexivity.
    - intros y. cbn [app]. by rewrite strip_cons by reflexivity. }
  destruct (Ascii.eqb c backslash) eqn:Eb.
  { apply Ascii.eqb_eq in Eb. subst c. destruct t as [|e t']; [done|].
    destruct (is_escape e) eqn:Ee.
    - intros H.
      apply (IH (length t')) in H as (b & Hb & Hs & Hst); [|subst n; simpl; lia|done].
      destruct (is_escape_plain e Ee) as [He1 He2].
      assert (∀ x, strip InString (backslash :: e :: x) = backslash :: e :: strip InString x)
        as Hstep.
      { intros x. rewrite strip_cons by reflexivity. cbn [place_step app].
        change (Ascii.eqb backslash dquote) with false.
        change (Ascii.eqb backslash backslash) with true. cbv iota.
        by rewrite strip_cons by done. }
      exists (backslash :: e :: b). split_and!.
      + by rewrite Hstep, Hb.
      + intros z. cbn [app string_rest].
        change (Ascii.eqb backslash dquote) with false.
        change (Ascii.eqb backslash backslash) with true. cbv iota.
        by rewrite Ee.
      + intros y. cbn [app]. by rewrite Hstep, Hst.
    - destruct (Ascii.eqb e "u") eqn:Eu; [|done]. apply Ascii.eqb_eq in Eu. subst e.
      destruct t' as [|h1 [|h2 [|h3 [|h4 t'']]]]; try done.
      destruct (is_hex h1 && is_hex h2 && is_hex h3 && is_hex h4) eqn:Eh; [|done].
      rewrite !andb_true_iff in Eh. destruct Eh as [[[E1 E2] E3] E4].
      intros H.
      apply (IH (length t'')) in H as (b & Hb & Hs & Hst); [|subst n; simpl; lia|done].
      destruct (is_hex_plain h1 E1) as (A1 & A2 & A3 & A4).
      destruct (is_hex_plain h2 E2) as (B1 & B2 & B3 & B4).
      destruct (is_hex_plain h3 E3) as (C1 & C2 & C3 & C4).
      destruct (is_hex_plain h4 E4) as (D1 & D2 & D3 & D4).
      assert (∀ x, strip InString (backslash :: "u"%char :: h1 :: h2 :: h3 :: h4 :: x)
                   = backslash :: "u"%char :: h1 :: h2 :: h3 :: h4 :: strip InString x)
        as Hstep.
      { intros x. rewrite strip_cons by reflexivity. cbn [place_step app].
        change (Ascii.eqb backslash dquote) with false.
        change (Ascii.eqb backslash backslash) with true. cbv iota.
        rewrite strip_cons by reflexivity. cbn [place_step app].
        rewrite (strip_cons InString h1) by done. cbn [place_step app]. rewrite A3, A4.
        rewrite (strip_cons InString h2) by done. cbn [place_step app]. rewrite B3, B4.
        rewrite (strip_cons InString h3) by done. cbn [place_step app]. rewrite C3, C4.
        rewrite (strip_cons InString h4) by done. cbn [place_step app]. by rewrite D3, D4. }
      exists (backslash :: "u"%char :: h1 :: h2 :: h3 :: h4 :: b). split_and!.
      + by rewrite Hstep, Hb.
      + intros z. cbn [app string_rest].
        change (Ascii.eqb backslash dquote) with false.
        change (Ascii.eqb backslash backslash) with true. cbv iota.
        change (is_escape "u") with false. change (Ascii.eqb "u" "u") with true. cbv iota.
        rewrite E1, E2, E3, E4. cbn [andb]. apply Hs.
      + intros y. cbn [app]. by rewrite Hstep, Hst. }
  destruct (code c <? 32)%N eqn:E32; [done|].
  destruct (is_html c) eqn:Ehtml.
  { intros H. apply (IH (length t)) in H as (b & Hb & Hs & Hst); [|subst n; simpl; lia|done].
    exists (u00 c ++ b). split_and!.
    - cbn [strip]. rewrite Ehtml. cbn [place_step]. rewrite Eq, Eb, Hb.
      by rewrite <- app_assoc.
    - intros z. rewrite <- app_assoc. by rewrite string_rest_u00.
    - intros y. rewrite <- app_assoc. by rewrite strip_u00, Hst. }
  destruct (match t with c1 :: c2 :: _ => is_line_sep c c1 c2 | _ => false end) eqn:Esep.
  - destruct t as [|c1 [|c2 t']]; try done.
    destruct (is_line_sep_inv _ _ _ Esep) as (_ & _ & _ & G1 & G2 & G3).
    rewrite (string_rest_high c1) by done. rewrite (string_rest_high c2) by done.
    intros H. apply (IH (length t')) in H as (b & Hb & Hs & Hst); [|subst n; simpl; lia|done].
    exists (u202 c2 ++ b). split_and!.
    + cbn [strip]. rewrite Ehtml, Esep. cbn [place_step]. rewrite Eq, Eb, Hb.
      by rewrite <- app_assoc.
    + intros z. rewrite <- app_assoc. by rewrite string_rest_u202.
    + intros y. rewrite <- app_assoc. by rewrite strip_u202, Hst.
  - assert (∀ c1 c2 t', t = c1 :: c2 :: t' → is_line_sep c c1 c2 = false) as Hfree.
    { intros c1 c2 t' ->. exact Esep. }
    intros H. apply (IH (length t)) in H as (b & Hb & Hs & Hst); [|subst n; simpl; lia|done].
    exists (c :: b). split_and!.
    + rewrite strip_plain by done. cbn [place_step app]. by rewrite Eq, Eb, Hb.
    + intros z. cbn [app string_rest]. by rewrite Eq, Eb, E32.
    + intros y. cbn [app]. rewrite strip_plain; [|done|].
      * cbn [place_step app]. by rewrite Eq, Eb, Hst.
      * apply (sep_free_body c b y (strip Outside r)). rewrite <- Hb.
        by apply sep_free_strip.
Qed.

(** ** Number literals *)

Lemma is_digit_inert c : is_digit c = true → inert c = true.
Proof. destruct c as [[] [] [] [] [] [] [] []]; intros H; try (by vm_compute in H); done. Qed.

Lemma digits_inert d : forallb is_digit d = true → forallb inert d = true.
Proof.
  induction d as [|c d IH]; [done|]. cbn [forallb]. rewrite !andb_true_iff.
  intros [H1 H2]. split; [by apply is_digit_inert|by apply IH].
Qed.

Lemma digits_split s : ∃ d, s = d ++ digits s ∧ forallb is_digit d = true.
Proof.
  induction s as [|c s (d & Hd & Hf)]; [by exists []|]. cbn [digits].
  destruct (is_digit c) eqn:E; [|by exists []].
  exists (c :: d). cbn [app forallb]. rewrite E, Hf. split; [by f_equal|done].
Qed.

Lemma digits_run d y : forallb is_digit d = true → digits (d ++ y) = digits y.
Proof.
  induction d as [|c d IH]; [done|]. cbn [forallb app digits]. rewrite andb_true_iff.
  intros [-> H]. by apply IH.
Qed.

Lemma number_int_split s r :
  number_int s = Some r →
  ∃ c0 c, s = (c0 :: c) ++ r ∧ is_digit c0 = true ∧ forallb inert (c0 :: c) = true
          ∧ ∀ y, digits y = y → number_int ((c0 :: c) ++ y) = Some y.
Proof.
  destruct s as [|c0 t]; [done|]. cbn [number_int].
  destruct (Ascii.eqb c0 "0") eqn:E0.
  - intros [= <-]. apply Ascii.eqb_eq in E0. subst c0. exists "0"%char, [].
    split_and!; [done..|]. intros y _. reflexivity.
  - destruct (is_digit c0) eqn:Ed; [|done]. intros [= <-].
    destruct (digits_split t) as (d & Hd & Hf). exists c0, d. split_and!.
    + cbn [app]. by rewrite <- Hd.
    + done.
    + cbn [forallb]. by rewrite (is_digit_inert c0 Ed), (digits_inert d Hf).
    + intros y Hy. cbn [app number_int]. rewrite E0, Ed. by rewrite digits_run, Hy.
Qed.

Lemma number_frac_split s r :
  number_frac s = Some r →
  ∃ c, s = c ++ r ∧ forallb inert c = true
       ∧ (c = [] ∨ ∃ c', c = "."%char :: c')
       ∧ ∀ y, digits y = y → (c = [] → number_frac y = Some y) →
              number_frac (c ++ y) = Some y.
Proof.
  destruct s as [|c0 t].
  { intros [= <-]. exists []. split_and!; [done|done|by left|]. intros y _ H. by apply H. }
  cbn [number_frac]. destruct (Ascii.eqb c0 ".") eqn:E0.
  - apply Ascii.eqb_eq in E0. subst c0. destruct t as [|d1 t']; [done|].
    destruct (is_digit d1) eqn:Ed; [|done]. intros [= <-].
    destruct (digits_split t') as (d & Hd & Hf). exists ("."%char :: d1 :: d). split_and!.
    + cbn [app]. by rewrite <- Hd.
    + cbn [forallb]. by rewrite (is_digit_inert d1 Ed), (digits_inert d Hf).
    + right. eauto.
    + intros y Hy _. cbn [app number_frac]. change (Ascii.eqb "." ".") with true. cbv iota.
      rewrite Ed. by rewrite digits_run, Hy.
  - intros [= <-]. exists []. split_and!; [done|done|by left|]. intros y _ H. by apply H.
Qed.

Lemma number_exp_split s r :
  number_exp s = Some r →
  ∃ c, s = c ++ r ∧ forallb inert c = true
       ∧ (c = [] ∨ ∃ h c', c = h :: c' ∧ Ascii.eqb h "e" || Ascii.eqb h "E" = true)
       ∧ ∀ y, digits y = y → (c = [] → number_exp y = Some y) →
              number_exp (c ++ y) = Some y.
Proof.
  destruct s as [|c0 t].
  { intros [= <-]. exists []. split_and!; [done|done|by left|]. intros y _ H. by apply H. }
  cbn [number_exp]. destruct (Ascii.eqb c0 "e" || Ascii.eqb c0 "E") eqn:E0.
  - assert (inert c0 = true) as Hc0.
    { apply orb_true_iff in E0 as [E|E]; apply Ascii.eqb_eq in E; by subst c0. }
    destruct t as [|x t']; [done|].
    destruct (Ascii.eqb x "+" || Ascii.eqb x "-") eqn:Ex.
    + assert (inert x = true) as Hx.
      { apply orb_true_iff in Ex as [E|E]; apply Ascii.eqb_eq in E; by subst x. }
      destruct t' as [|d1 t2]; [done|]. destruct (is_digit d1) eqn:Ed; [|done]. intros [= <-].
      destruct (digits_split t2) as (d & Hd & Hf). exists (c0 :: x :: d1 :: d). split_and!.
      * cbn [app]. by rewrite <- Hd.
      * cbn [forallb]. by rewrite Hc0, Hx, (is_digit_inert d1 Ed), (digits_inert d Hf).
      * right. eauto.
      * intros y Hy _. cbn [app number_exp]. rewrite E0, Ex, Ed. by rewrite digits_run, Hy.
    + destruct (is_digit x) eqn:Ed; [|done]. intros [= <-].
      destruct (digits_split t') as (d & Hd & Hf). exists (c0 :: x :: d). split_and!.
      * cbn [app]. by rewrite <- Hd.
      * cbn [forallb]. by rewrite Hc0, (is_digit_inert x Ed), (digits_inert d Hf).
      * right. eauto.
      * intros y Hy _. cbn [app number_exp]. rewrite E0, Ex, Ed. by rewrite digits_run, Hy.
  - intros [= <-]. exists []. split_and!; [done|done|by left|]. intros y _ H. by apply H.
Qed.

Lemma delimited_frac y : delimited y = true → number_frac y = Some y.
Proof.
  destruct y as [|c y]; [done|]. intros (_ & H & _)%delimited_cons. cbn. by rewrite H.
Qed.

Lemma delimited_exp y : delimited y = true → number_exp y = Some y.
Proof.
  destruct y as [|c y]; [done|]. intros (_ & _ & H1 & H2)%delimited_cons. cbn. by rewrite H1, H2.
Qed.

(** The bytes of a number literal go through compaction unchanged, and
    read as a number again in front of anything that ends a number. *)
Lemma number_split s r :
  number s = Some r →
  ∃ c, s = c ++ r ∧ forallb inert c = true
       ∧ ∀ y, delimited y = true → number (c ++ y) = Some y.
Proof.
  unfold number.
  set (s1 := match s with c :: t => if Ascii.eqb c "-" then t else s | [] => s end).
  destruct (number_int s1) as [r1|] eqn:H1; [|done].
  destruct (number_frac r1) as [r2|] eqn:H2; [|done]. intros H3.
  destruct (number_int_split _ _ H1) as (c0 & ci & Hi & Hd0 & Hii & Fi).
  destruct (number_frac_split _ _ H2) as (cf & Hf & Hfi & Hfs & Ff).
  destruct (number_exp_split _ _ H3) as (ce & He & Hei & Hes & Fe).
  assert (∀ y, delimited y = true → digits (ce ++ y) = ce ++ y) as De.
  { intros y Hy. destruct Hes as [->|(h & c' & -> & Hh)]; [by apply digits_delimited|].
    cbn [app digits].
    assert (is_digit h = false) as ->; [|done].
    apply orb_true_iff in Hh as [E|E]; apply Ascii.eqb_eq in E; by subst h. }
  assert (∀ y, delimited y = true → number_frac (ce ++ y) = Some (ce ++ y)) as Fe'.
  { intros y Hy. destruct Hes as [->|(h & c' & -> & Hh)]; [by apply delimited_frac|].
    cbn [app number_frac].
    assert (Ascii.eqb h "." = false) as ->; [|done].
    apply orb_true_iff in Hh as [E|E]; apply Ascii.eqb_eq in E; by subst h. }
  assert (∀ y, delimited y = true → digits (cf ++ ce ++ y) = cf ++ ce ++ y) as Df.
  { intros y Hy. destruct Hfs as [->|(c' & ->)]; [by apply De|]. reflexivity. }
  assert (∀ y, delimited y = true →
            number_int ((c0 :: ci) ++ cf ++ ce ++ y) = Some (cf ++ ce ++ y)
            ∧ number_frac (cf ++ ce ++ y) = Some (ce ++ y)
            ∧ number_exp (ce ++ y) = Some y) as Hall.
  { intros y Hy. split_and!.
    - apply Fi. by apply Df.
    - apply Ff; [by apply De|]. intros ->. by apply Fe'.
    - apply Fe; [by apply digits_delimited|]. intros _. by apply delimited_exp. }
  assert (s1 = (c0 :: ci) ++ cf ++ ce ++ r) as Hs1.
  { by rewrite Hi, Hf, He. }
  assert (c0 ≠ "-"%char) as Hneg by (intros ->; done).
  destruct s as [|c t]; [done|]. subst s1.
  destruct (Ascii.eqb c "-") eqn:Ec.
  - apply Ascii.eqb_eq in Ec. subst c.
    exists ("-"%char :: (c0 :: ci) ++ cf ++ ce). split_and!.
    + cbn [app]. f_equal. rewrite Hs1. cbn [app]. by rewrite <- !app_assoc.
    + cbn [forallb]. rewrite !forallb_app. cbn [forallb andb] in Hii |- *.
      by rewrite Hii, Hfi, Hei.
    + intros y Hy. destruct (Hall y Hy) as (A1 & A2 & A3).
      cbn [app]. change (Ascii.eqb "-" "-") with true. cbv iota.
      rewrite <- !app_assoc. cbn [app] in A1 |- *. by rewrite A1, A2.
  - exists ((c0 :: ci) ++ cf ++ ce). split_and!.
    + rewrite Hs1. by rewrite <- !app_assoc.
    + rewrite !forallb_app. by rewrite Hii, Hfi, Hei.
    + intros y Hy. destruct (Hall y Hy) as (A1 & A2 & A3).
      rewrite <- !app_assoc. cbn [app] in A1 |- *.
      assert (Ascii.eqb c0 "-" = false) as -> by (by apply Ascii.eqb_neq).
      by rewrite A1, A2.
Qed.

Lemma strip_prefix_eq p s r : strip_prefix p s = Some r → s = p ++ r.
Proof.
  revert s. induction p as [|a p IH]; intros s; cbn; [by intros [= <-]|].
  destruct s as [|b s]; [done|]. destruct (Ascii.eqb_spec a b) as [->|]; [|done].
  intros H. f_equal. by apply IH.
Qed.

(** ** One value *)

Lemma scalar_strip n c t r :
  Ascii.eqb c "{" = false → Ascii.eqb c "[" = false →
  value n (c :: t) = Some r →
  ∃ C, strip Outside (c :: t) = C ++ strip Outside r
       ∧ (∀ m, value m C = Some [])
       ∧ ∀ y, strip Outside (C ++ y) = C ++ strip Outside y.
Proof.
  intros Eo Ea. rewrite value_unfold, Eo, Ea.
  destruct (Ascii.eqb c dquote) eqn:Eq.
  { apply Ascii.eqb_eq in Eq. subst c. intros (b & Hb & Hs & Hst)%string_strip.
    exists (dquote :: b ++ [dquote]). split_and!.
    - rewrite strip_open_quote, Hb. cbn [app]. by rewrite <- app_assoc.
    - intros m. rewrite value_unfold.
      change (Ascii.eqb dquote "{") with false. change (Ascii.eqb dquote "[") with false.
      rewrite Ascii.eqb_refl. cbv iota. apply Hs.
    - intros y. cbn [app]. rewrite <- !app_assoc. cbn [app].
      by rewrite strip_open_quote, Hst. }
  destruct (Ascii.eqb c "-" || is_digit c) eqn:En.
  { intros (C & HC & Hi & Hf)%number_split.
    pose proof (Hf [] eq_refl) as H0. rewrite app_nil_r in H0.
    destruct C as [|c' C']; [done|]. injection HC as <- HC.
    exists (c :: C'). split_and!.
    - rewrite HC. by apply (strip_inert (c :: C')).
    - intros m. by rewrite value_number.
    - intros y. by apply strip_inert. }
  assert (∀ p, strip_prefix p t = Some r → forallb inert (c :: p) = true →
               (c :: p = B "true" ∨ c :: p = B "false" ∨ c :: p = B "null") →
               ∃ C, strip Outside (c :: t) = C ++ strip Outside r
                    ∧ (∀ m, value m C = Some [])
                    ∧ ∀ y, strip Outside (C ++ y) = C ++ strip Outside y)
    as Hlit.
  { intros p ->%strip_prefix_eq Hi Hp. exists (c :: p). split_and!.
    - by apply (strip_inert (c :: p)).
    - intros m. by apply value_literal.
    - intros y. by apply strip_inert. }
  destruct (Ascii.eqb_spec c "t") as [->|_]; [intros H; apply (Hlit _ H); auto|].
  destruct (Ascii.eqb_spec c "f") as [->|_]; [intros H; apply (Hlit _ H); auto|].
  destruct (Ascii.eqb_spec c "n") as [->|_]; [intros H; apply (Hlit _ H); auto|].
  done.
Qed.

Lemma member_bytes_stable n kv y :
  member_ok n kv → strip Outside (member_bytes kv ++ y) = member_bytes kv ++ strip Outside y.
Proof.
  destruct kv as [k v]. intros [(b & Hk & _ & Hst) [_ Hv]]. cbn [fst snd] in *. subst k.
  unfold member_bytes. cbn [fst snd app]. rewrite <- !app_assoc.
  cbn [app B list_ascii_of_string].
  rewrite strip_open_quote, Hst, strip_inert1 by done. by rewrite Hv.
Qed.

Section CompactComposite.
Variable n : nat.
Hypothesis IHn :
  ∀ s r, value n s = Some r →
         ∃ C, strip Outside s = C ++ strip Outside r ∧ value n C = Some []
              ∧ ∀ y, strip Outside (C ++ y) = C ++ strip Outside y.

Lemma elements_strip fuel s l r :
  elements (value n) fuel s = Some (l, r) →
  ∃ L, L ≠ []
       ∧ Forall (fun x => value n x = Some []
                          ∧ ∀ y, strip Outside (x ++ y) = x ++ strip Outside y) L
       ∧ strip Outside s = join_comma L ++ B "]" ++ strip Outside r.
Proof.
  revert s l r. induction fuel as [|fuel IH]; intros s l r; [done|]. cbn [elements].
  destruct (value n (skip_space s)) as [r1|] eqn:Hv; [|done].
  destruct (IHn _ _ Hv) as (C & HC & HvC & HCs).
  destruct (skip_space r1) as [|c r'] eqn:Hr1; [done|].
  assert (strip Outside s = C ++ strip Outside (c :: r')) as Hs.
  { by rewrite <- (strip_skip_space s), HC, <- (strip_skip_space r1), Hr1. }
  destruct (Ascii.eqb_spec c ",") as [->|_].
  - destruct (elements (value n) fuel r') as [[l' r'']|] eqn:He; [|done]. intros [= <- <-].
    destruct (IH _ _ _ He) as (L & HL & HLv & HLs).
    exists (C :: L). split; [done|]. split; [by constructor|].
    rewrite Hs, strip_inert1 by done. rewrite HLs, join_comma_cons.
    destruct L as [|x L]; [done|]. by rewrite <- !app_assoc.
  - destruct (Ascii.eqb_spec c "]") as [->|_]; [|done]. intros [= <- <-].
    exists [C]. split; [done|]. split; [by apply Forall_singleton|].
    rewrite Hs, strip_inert1 by done. done.
Qed.

Lemma members_strip fuel s l r :
  members (value n) fuel s = Some (l, r) →
  ∃ L, L ≠ [] ∧ Forall (member_ok n) L
       ∧ strip Outside s = join_comma (map member_bytes L) ++ B "}" ++ strip Outside r.
Proof.
  revert s l r. induction fuel as [|fuel IH]; intros s l r; [done|]. cbn [members].
  destruct (skip_space s) as [|q s1] eqn:Hs0; [done|].
  destruct (Ascii.eqb_spec q dquote) as [->|_]; [|done].
  destruct (string_rest s1) as [r1|] eqn:Hk; [|done].
  destruct (string_strip _ _ Hk) as (b & Hb & Hbs & Hbst).
  destruct (skip_space r1) as [|c r2] eqn:Hr1; [done|].
  destruct (Ascii.eqb_spec c ":") as [->|_]; [|done].
  destruct (value n (skip_space r2)) as [r3|] eqn:Hv; [|done].
  destruct (IHn _ _ Hv) as (C & HC & HvC & HCs).
  destruct (skip_space r3) as [|d r4] eqn:Hr3; [done|].
  assert (strip Outside s
          = member_bytes (dquote :: b ++ [dquote], C) ++ strip Outside (d :: r4)) as Hs.
  { rewrite <- (strip_skip_space s), Hs0, strip_open_quote, Hb.
    rewrite <- (strip_skip_space r1), Hr1, strip_inert1 by done.
    rewrite <- (strip_skip_space r2), HC, <- (strip_skip_space r3), Hr3.
    unfold member_bytes. cbn [fst snd app]. by rewrite <- !app_assoc. }
  assert (member_ok n (dquote :: b ++ [dquote], C)) as Hm.
  { split; [exists b; by split_and!|by split]. }
  destruct (Ascii.eqb_spec d ",") as [->|_].
  - destruct (members (value n) fuel r4) as [[l' r5]|] eqn:He; [|done]. intros [= <- <-].
    destruct (IH _ _ _ He) as (L & HL & HLv & HLs).
    exists ((dquote :: b ++ [dquote], C) :: L). split; [done|]. split; [by constructor|].
    rewrite Hs, strip_inert1 by done. rewrite HLs, map_cons, join_comma_cons.
    destruct L as [|x L]; [done|]. cbn [map]. rewrite <- ?app_assoc. reflexivity.
  - destruct (Ascii.eqb_spec d "}") as [->|_]; [|done]. intros [= <- <-].
    exists [(dquote :: b ++ [dquote], C)]. split; [done|]. split; [by apply Forall_singleton|].
    rewrite Hs, strip_inert1 by done. cbn [map join_comma]. rewrite <- ?app_assoc. reflexivity.
Qed.

Lemma members_parsed (L : list (bytes * bytes)) f rest :
  L ≠ [] → length L ≤ f → Forall (member_ok n) L →
  ∃ L', members (value n) f (join_comma (map member_bytes L) ++ B "}" ++ rest) = Some (L', rest).
Proof.
  intros Hne Hf HL. revert f Hf Hne.
  induction HL as [|[k v] L [(b & Hk & Hbs & _) [Hv _]] HL IH]; intros f Hf Hne; [done|].
  destruct f as [|f]; [simpl in Hf; lia|]. simpl in Hf.
  cbn [fst snd] in Hk, Hv. subst k.
  set (tail := match L with
               | [] => B "}" ++ rest
               | _ => B "," ++ join_comma (map member_bytes L) ++ B "}" ++ rest
               end).
  assert (join_comma (map member_bytes ((dquote :: b ++ [dquote], v) :: L)) ++ B "}" ++ rest
          = dquote :: (b ++ dquote :: ":"%char :: (v ++ tail))) as ->.
  { subst tail. rewrite map_cons, join_comma_cons. unfold member_bytes at 1. cbn [fst snd].
    destruct L as [|kv' L]; cbn [map]; rewrite <- ?app_assoc;
      cbn [B list_ascii_of_string app]; rewrite <- ?app_assoc; reflexivity. }
  assert (∃ d tl, tail = d :: tl ∧ is_space d = false ∧ delimited tail = true
                  ∧ ((L = [] ∧ d = "}"%char ∧ tl = rest)
                     ∨ (L ≠ [] ∧ d = ","%char
                        ∧ tl = join_comma (map member_bytes L) ++ B "}" ++ rest)))
    as (d & tl & Htail & Hd & Hdel & Hcase).
  { subst tail. destruct L as [|kv' L].
    - exists "}"%char, rest. split_and!; [done..|by left].
    - exists ","%char, (join_comma (map member_bytes (kv' :: L)) ++ B "}" ++ rest).
      split_and!; [done..|by right]. }
  destruct v as [|c vt] eqn:Ev; [by rewrite value_nil in Hv|]. rewrite <- Ev in *.
  assert (skip_space (v ++ tail) = v ++ tail) as Hsv.
  { pose proof Hv as Hv'. rewrite Ev in Hv' |- *. cbn [app].
    apply skip_space_head. exact (value_head n c vt [] Hv'). }
  cbn [members]. rewrite skip_space_head by done. rewrite Ascii.eqb_refl.
  rewrite Hbs.
  rewrite (skip_space_head ":"%char) by done. rewrite Ascii.eqb_refl.
  rewrite Hsv.
  rewrite (value_app n v [] tail Hv (fun _ => Hdel)). cbn [app].
  rewrite Htail, (skip_space_head d tl Hd).
  destruct Hcase as [(-> & -> & ->)|(HL' & -> & ->)].
  - eexists. reflexivity.
  - change (Ascii.eqb "," ",") with true. cbv iota.
    destruct (IH f) as [L' ->]; [lia|done|]. eexists. reflexivity.
Qed.

Lemma member_bytes_length (L : list (bytes * bytes)) :
  Forall (member_ok n) L → length L ≤ length (join_comma (map member_bytes L)).
Proof.
  intros HL. rewrite <- (length_map member_bytes L). apply join_comma_length.
  apply Forall_map. eapply Forall_impl; [exact HL|].
  intros [k v] [(b & Hk & _) _]. cbn [fst] in Hk. subst k. unfold member_bytes. done.
Qed.

Lemma composite_strip c t r :
  Ascii.eqb c "{" || Ascii.eqb c "[" = true →
  value (S n) (c :: t) = Some r →
  ∃ C, strip Outside (c :: t) = C ++ strip Outside r ∧ value (S n) C = Some []
       ∧ ∀ y, strip Outside (C ++ y) = C ++ strip Outside y.
Proof.
  intros Hc. rewrite value_unfold.
  destruct (Ascii.eqb_spec c "{") as [->|_].
  - unfold object at 1. destruct (skip_space t) as [|d r0] eqn:Ht; [done|].
    destruct (Ascii.eqb_spec d "}") as [->|Hd].
    + intros [= <-]. exists (B "{}"). split_and!; [|done|].
      * by rewrite strip_inert1, <- (strip_skip_space t), Ht, strip_inert1.
      * intros y. by apply strip_inert.
    + destruct (members (value n) (length t) t) as [[l r']|] eqn:Hm; [|done]. intros [= <-].
      destruct (members_strip _ _ _ _ Hm) as (L & HL & HLm & HLs).
      exists ("{"%char :: join_comma (map member_bytes L) ++ B "}"). split_and!.
      * rewrite strip_inert1, HLs by done. cbn [app]. by rewrite <- !app_assoc.
      * rewrite value_object. unfold object.
        destruct L as [|[k v] L]; [done|].
        pose proof (Forall_inv HLm) as [(b & Hk & _) _]. cbn [fst] in Hk. subst k.
        assert (∃ y, join_comma (map member_bytes ((dquote :: b ++ [dquote], v) :: L)) ++ B "}"
                     = dquote :: y) as [y Hy].
        { rewrite map_cons, join_comma_cons. unfold member_bytes at 1. cbn [fst app]. eauto. }
        rewrite Hy, (skip_space_head dquote y) by done.
        change (Ascii.eqb dquote "}") with false. cbv iota. rewrite <- Hy.
        destruct (members_parsed ((dquote :: b ++ [dquote], v) :: L)
                    (length (join_comma (map member_bytes ((dquote :: b ++ [dquote], v) :: L))
                             ++ B "}")) []) as [L' HL'].
        -- done.
        -- rewrite length_app. pose proof (member_bytes_length _ HLm). lia.
        -- done.
        -- rewrite (app_nil_r (B "}")) in HL'. by rewrite HL'.
      * intros y. cbn [app]. rewrite strip_inert1 by done. f_equal.
        rewrite <- !app_assoc, strip_join.
        -- f_equal. by apply strip_inert.
        -- apply Forall_map. eapply Forall_impl; [exact HLm|].
           intros kv Hkv y'. by apply (member_bytes_stable n).
  - destruct (Ascii.eqb_spec c "[") as [->|_]; [|done].
    unfold array at 1. destruct (skip_space t) as [|d r0] eqn:Ht; [done|].
    destruct (Ascii.eqb_spec d "]") as [->|Hd].
    + intros [= <-]. exists (B "[]"). split_and!; [|done|].
      * by rewrite strip_inert1, <- (strip_skip_space t), Ht, strip_inert1.
      * intros y. by apply strip_inert.
    + destruct (elements (value n) (length t) t) as [[l r']|] eqn:Hm; [|done]. intros [= <-].
      destruct (elements_strip _ _ _ _ Hm) as (L & HL & HLv & HLs).
      exists ("["%char :: join_comma L ++ B "]"). split_and!.
      * rewrite strip_inert1, HLs by done. cbn [app]. by rewrite <- !app_assoc.
      * rewrite value_unfold.
        change (Ascii.eqb "[" "{") with false. change (Ascii.eqb "[" "[") with true. cbv iota.
        pose proof (array_written n L []) as Ha.
        rewrite (app_nil_r (B "]")) in Ha. rewrite Ha; [done|].
        eapply Forall_impl; [exact HLv|]. by intros x [? _].
      * intros y. cbn [app]. rewrite strip_inert1 by done. f_equal.
        rewrite <- !app_assoc, strip_join.
        -- f_equal. by apply strip_inert.
        -- eapply Forall_impl; [exact HLv|]. by intros x [_ ?].
Qed.

End CompactComposite.

(** Compaction turns the value at the head of the input into one value
    of the same depth, which it leaves as it is when it meets it again,
    and goes on behind it. *)
Lemma value_strip n s r :
  value n s = Some r →
  ∃ C, strip Outside s = C ++ strip Outside r ∧ value n C = Some []
       ∧ ∀ y, strip Outside (C ++ y) = C ++ strip Outside y.
Proof.
  revert s r. induction n as [|n IH]; intros [|c t] r H; try (by rewrite value_nil in H).
  - destruct (Ascii.eqb c "{" || Ascii.eqb c "[") eqn:Ec.
    + revert H. rewrite value_unfold. destruct (Ascii.eqb c "{"); [done|].
      cbn [orb] in Ec. by rewrite Ec.
    + apply orb_false_iff in Ec as [E1 E2].
      destruct (scalar_strip 0 c t r E1 E2 H) as (C & HC & Hv & Hst). eauto.
  - destruct (Ascii.eqb c "{" || Ascii.eqb c "[") eqn:Ec.
    + by apply composite_strip.
    + apply orb_false_iff in Ec as [E1 E2].
      destruct (scalar_strip (S n) c t r E1 E2 H) as (C & HC & Hv & Hst). eauto.
Qed.

(** ** Every snapshot written can be read *)

Lemma strip_valid_within n v :
  valid_within n v = true → value n (strip Outside v) = Some [].
Proof.
  unfold valid_within. destruct (value n (skip_space v)) as [r|] eqn:Hv; [|done].
  intros Hr%bool_decide_eq_true. destruct (value_strip _ _ _ Hv) as (C & HC & HvC & _).
  rewrite <- (strip_skip_space v), HC, (strip_blank r Hr). by rewrite app_nil_r.
Qed.

(** What compaction makes of a valid value is canonical. *)
Lemma strip_canonical v :
  valid_within innerNestingDepth v = true → canonical (strip Outside v) = true.
Proof.
  intros H. unfold canonical. apply andb_true_iff. split; apply bool_decide_eq_true_2.
  - by apply strip_valid_within.
  - revert H. unfold valid_within.
    destruct (value innerNestingDepth (skip_space v)) as [r|] eqn:Hv; [|done].
    intros Hr%bool_decide_eq_true. destruct (value_strip _ _ _ Hv) as (C & HC & _ & Hst).
    rewrite <- (strip_skip_space v), HC, (strip_blank r Hr), app_nil_r.
    pose proof (Hst []) as H. by rewrite !app_nil_r in H.
Qed.

Lemma valid_within_valid n v : n ≤ maxNestingDepth → valid_within n v = true → valid v = true.
Proof.
  unfold valid_within, valid. intros Hn.
  destruct (value n (skip_space v)) as [r|] eqn:Hv; [|done].
  by rewrite (value_mono _ _ _ _ Hn Hv).
Qed.

Lemma exportable_lookup (m : gmap bytes bytes) k v :
  exportable m = true → m !! k = Some v →
  utf8_valid k = true ∧ valid_within innerNestingDepth v = true.
Proof.
  unfold exportable. rewrite forallb_forall. intros H Hk.
  apply elem_of_map_to_list, list_elem_of_In, H in Hk.
  by apply andb_true_iff in Hk.
Qed.

(** X16. Every snapshot that [DumpJson] writes for a keyspace of valid
    JSON can be read back: when the keys are valid UTF-8 and every value
    is valid JSON with brackets at most 9999 deep (with any spaces
    between its tokens and any characters in its strings), [DumpJson]
    succeeds, [RestoreJson] of its bytes into a store with an empty
    keyspace succeeds, and every key then holds its value compacted:
    without the spaces between tokens and with [<], [>], [&], U+2028 and
    U+2029 escaped. The restored keyspace is in its final form: exported
    and imported once more, it comes back as it is. *)
Theorem every_snapshot_restores :
  ∀ (range : gmap bytes RawMessage → list (bytes * RawMessage)) (db fresh : memDB),
    (∀ m, range m ≡ₚ map_to_list m) →
    cells fresh = ∅ →
    exportable (cells db) = true →
    ∃ (data : Buffer) (restored : memDB),
      DumpJson db ([] : Buffer) = (None, db, data)
      ∧ RestoreJson range fresh data = (None, restored, ([] : Buffer))
      ∧ cells restored = strip Outside <$> cells db
      ∧ ∃ (data' : Buffer) (restored' : memDB),
          DumpJson restored ([] : Buffer) = (None, restored, data')
          ∧ RestoreJson range fresh data' = (None, restored', ([] : Buffer))
          ∧ cells restored' = cells restored.
Proof.
  intros range db fresh Hr Hfresh Hsafe.
  set (sorted := merge_sort key_le (map_to_list (Some <$> cells db))).
  set (l := map (fun kv : bytes * RawMessage => (kv.1, strip Outside (default [] kv.2))) sorted).
  assert (∀ kv, kv ∈ sorted → ∃ b, kv.2 = Some b ∧ cells db !! kv.1 = Some b) as Hsorted.
  { intros [k v] Hin. unfold sorted in Hin.
    rewrite merge_sort_Permutation in Hin. apply elem_of_map_to_list in Hin.
    rewrite lookup_fmap in Hin. destruct (cells db !! k) as [b|] eqn:Hk; [|done].
    injection Hin as <-. eauto. }
  assert (Marshal_map (Some <$> cells db)
          = ("{"%char :: join_comma (map written l) ++ B "}", None)) as HM.
  { rewrite Marshal_map_valid.
    - fold sorted.
      assert (map member_text sorted = map written l) as ->; [|done].
      unfold l. rewrite map_map.
      apply map_ext_in. intros kv Hin%list_elem_of_In.
      destruct (Hsorted kv Hin) as (b & Hb & _). destruct kv as [k v]. cbn [snd] in Hb.
      subst v. reflexivity.
    - intros k v. rewrite lookup_fmap. destruct (cells db !! k) as [b|] eqn:Hk; [|done].
      intros [= <-]. destruct (exportable_lookup _ _ _ Hsafe Hk) as [_ Hv].
      exact (valid_within_valid _ _ inner_le_max Hv). }
  assert (Unmarshal_map ("{"%char :: join_comma (map written l) ++ B "}")
          = ((fun v : RawMessage => Some (strip Outside (default [] v))) <$> (Some <$> cells db),
             None)) as HU.
  { rewrite Unmarshal_written.
    - f_equal. apply (foldl_insert_perm fst (fun x : bytes * bytes => Some x.2)).
      unfold l. rewrite map_map. cbn [fst snd].
      rewrite map_to_list_fmap. unfold sorted.
      rewrite merge_sort_Permutation. rewrite list_fmap_alt.
      apply Permutation_map. reflexivity.
    - unfold l. apply Forall_map, Forall_forall. intros kv Hin.
      destruct (Hsorted kv Hin) as (b & Hb & Hk). destruct kv as [k v]. cbn [fst snd] in *.
      subst v. destruct (exportable_lookup _ _ _ Hsafe Hk) as [Hu Hv].
      split; [done|]. by apply strip_valid_within. }
  exists ("{"%char :: join_comma (map written l) ++ B "}").
  assert (ReadAll ("{"%char :: join_comma (map written l) ++ B "}" : Buffer)
          = (("{"%char :: join_comma (map written l) ++ B "}", None), ([] : Buffer))) as Hread
    by reflexivity.
  destruct (RestoreJson_union range fresh _ _ _ _ Hr Hread HU) as (restored & HR & Hc).
  assert (cells restored = strip Outside <$> cells db) as Hcells.
  { rewrite Hc, Hfresh, (right_id_L ∅ (∪)). rewrite <- !map_fmap_compose.
    apply map_fmap_ext. done. }
  exists restored. split_and!.
  - rewrite DumpJson_memDB, HM. reflexivity.
  - exact HR.
  - exact Hcells.
  - apply (export_import range restored fresh Hr Hfresh).
    intros k b. rewrite Hcells, lookup_fmap.
    destruct (cells db !! k) as [v|] eqn:Hk; [|done]. intros [= <-].
    destruct (exportable_lookup _ _ _ Hsafe Hk) as [Hu Hv].
    split; [done|]. by apply strip_canonical.
Qed.

Lemma every_snapshot_restores_witness :
  ∃ (data : Buffer) (restored : memDB),
    DumpJson db_loose ([] : Buffer) = (None, db_loose, data)
    ∧ RestoreJson (fun m => map_to_list m) empty_db data = (None, restored, ([] : Buffer))
    ∧ cells restored = strip Outside <$> cells db_loose
    ∧ ∃ (data' : Buffer) (restored' : memDB),
        DumpJson restored ([] : Buffer) = (None, restored, data')
        ∧ RestoreJson (fun m => map_to_list m) empty_db data'
          = (None, restored', ([] : Buffer))
        ∧ cells restored' = cells restored.
Proof.
  apply (every_snapshot_restores (fun m => map_to_list m) db_loose empty_db).
  - reflexivity.
  - reflexivity.
  - vm_compute. reflexivity.
Defined.

(** The keyspace with loose values, restored: the spaces are gone, [<]
    and [>] are escaped, the keys and everything else are as before. *)
Example db_loose_restored :
  let '(e1, e2, restored) := round_trip db_loose in
  e1 = None ∧ e2 = None
  ∧ cells restored !! B "a" = Some (B "[1,{},[]]")
  ∧ cells restored !! B "b"
    = Some (B "{" ++ quote (B "x<y") ++ B ":-1.5e+3," ++ quote (B "k>") ++ B ":null}").
Proof. vm_compute. by repeat split. Qed.
